(** * YiTranslate: the DOCX translation pipeline

    A shallow embedding of the two [DocxService.py] variants of the
    repository (the top-level service and the one under [server/]):
    extraction of numbered placeholders, the translation stage and the
    reassembly of the final document.

    Conventions.
    - A Python [str] is a [list ascii]; an [ascii] is read as the code point
      of the same number (U+0000 .. U+00FF).  Texts with code points above
      U+00FF are outside the model.
    - A Python [int] is a [Z].
    - [None] is [None]; an attribute that holds a value or [None] is an
      [option].
    - A paragraph object of python-docx is a cell of a store indexed by
      [nat]; the document lists its paragraphs by reference, so a paragraph
      that the library hands out twice (a merged table cell) is one cell of
      the store visited twice.
    - Saving a document and opening it again gives the same document.
    - A paragraph is the sequence of its runs, and a table cell the
      sequence of its paragraphs; text that python-docx reads from other
      children of a paragraph (a hyperlink) and tables nested in a cell
      are outside the model.
    - A [Length] is an exact integer; the rounding of a size to
      half-points when it is written is outside the model.
    - [Root] and [Server] describe the services where no call of a library
      raises and a run reads as the text it was given.  [Python] and
      [Docx] say where [int], [add_run] and the assignment of a size
      raise and how a run reads; [RootExn] is the top-level service with
      these exceptions, and the reassembly of [Server] has them too.  The
      properties of the section on exceptions relate the two descriptions.
    - The functions of a service keep their names, in [Module Root] for
      [DocxService.py] and in [Module Server] for [server/DocxService.py]. *)

From Stdlib Require Import ZArith Ascii String DecimalString DecimalZ Lia.
From stdpp Require Import base option list list_numbers gmap.

Local Open Scope Z_scope.
Local Open Scope list_scope.

Abbreviation text := (list ascii).

(** A string literal as a [text]. *)
Definition str (s : string) : text := list_ascii_of_string s.

(** ** Character classes

    [str.isspace] and the class [\s] of a [str] pattern agree on
    U+0000 .. U+00FF: the six ASCII blanks, the four separators
    U+001C .. U+001F, NEL (U+0085) and the no-break space (U+00A0).
    The class [\d] contains the digits 0 .. 9 only in that range. *)

Definition code (c : ascii) : Z := Z.of_N (N_of_ascii c).

Definition is_space (c : ascii) : bool :=
  ((9 <=? code c) && (code c <=? 13))
  || ((28 <=? code c) && (code c <=? 32))
  || (code c =? 133) || (code c =? 160).

Definition is_digit (c : ascii) : bool :=
  (48 <=? code c) && (code c <=? 57).

(** The line feed, the only character [.] does not match. *)
Definition is_newline (c : ascii) : bool := Ascii.eqb c "010".

Definition is_lbrace (c : ascii) : bool := Ascii.eqb c "{".

Definition is_rbrace (c : ascii) : bool := Ascii.eqb c "}".

(** ** List helpers *)

(** The longest prefix whose elements satisfy [f], and what follows it:
    how a greedy [x*] or [x+] over a character class consumes its input. *)
Fixpoint span {A} (f : A -> bool) (l : list A) : list A * list A :=
  match l with
  | [] => ([], [])
  | x :: l' =>
      if f x then let '(a, b) := span f l' in (x :: a, b) else ([], l)
  end.

Definition is_nil {A} (l : list A) : bool :=
  match l with [] => true | _ => false end.

(** [s.startswith(p)]. *)
Fixpoint starts_with (p s : text) : bool :=
  match p, s with
  | [], _ => true
  | a :: p', b :: s' => if ascii_dec a b then starts_with p' s' else false
  | _ :: _, [] => false
  end.

(** ** [str.strip()] *)

Definition lstrip (s : text) : text := snd (span is_space s).
Definition rstrip (s : text) : text := rev (lstrip (rev s)).
Definition strip (s : text) : text := rstrip (lstrip s).

(** ** [str(n)] and [int(s)] for decimal numerals *)

Definition str_of_int (n : Z) : text :=
  list_ascii_of_string (NilZero.string_of_int (Z.to_int n)).

(** [int(s)] on a text; the code only calls it on a non-empty run of
    digits, where it cannot raise.  (The default is never reached there.) *)
Definition int_of_text (s : text) : Z :=
  match NilZero.int_of_string (string_of_list_ascii s) with
  | Some d => Z.of_int d
  | None => 0
  end.

(** ** The placeholder token: [f"{{{{ {current_num} }}}}"] *)

Definition placeholder (n : Z) : text :=
  str "{{ " ++ str_of_int n ++ str " }}".

(** ** Regular expressions, matched as [re] matches them

    The part of the pattern language the two patterns of the services
    need.  [Class] stands for [\d], [\s] and [.]; [Chr] for an escaped
    character; [Star] is the greedy [*]; [Group n] is the n-th capturing
    group; [Bol] and [Eol] are [^] and [$] without flags. *)

Inductive regex :=
| Chr (c : ascii)
| Class (f : ascii -> bool)
| Cat (r1 r2 : regex)
| Star (r : regex)
| Group (n : nat) (r : regex)
| Bol
| Eol.

(** [r+] is [rr*]. *)
Definition Plus (r : regex) : regex := Cat r (Star r).

(** The groups captured so far, the latest first. *)
Definition captures := list (nat * text).

(** [m.group(n)]. *)
Definition group (n : nat) (caps : captures) : text :=
  match List.find (fun p => (p.1 =? n)%nat) caps with
  | Some p => p.2
  | None => []
  end.

Section Matcher.

Context {R : Type}.

(** The text the match was started on. *)
Variable whole : text.

(** The greedy repetition: one more iteration is tried first, and only if
    no match follows from it the rest of the pattern, [k], is tried
    here.  An iteration that consumes nothing is not repeated.  No more
    iterations than [fuel] are tried; the length of the text is enough. *)
Fixpoint star_loop
    (iter : text -> captures -> (text -> captures -> option R) -> option R)
    (k : text -> captures -> option R)
    (fuel : nat) (s : text) (caps : captures) : option R :=
  match fuel with
  | O => k s caps
  | S fuel' =>
      match iter s caps
              (fun s' caps' =>
                 if (length s' <? length s)%nat
                 then star_loop iter k fuel' s' caps'
                 else None) with
      | Some x => Some x
      | None => k s caps
      end
  end.

(** The backtracking matcher: [backtrack r s caps k] matches [r] at the
    start of [s] and hands what follows, with the captures, to the rest
    of the pattern [k]; the first way to match [r] after which [k]
    succeeds is the result.  [$] holds at the end of the text and before
    a line feed that ends it. *)
Fixpoint backtrack (r : regex) (s : text) (caps : captures)
    (k : text -> captures -> option R) : option R :=
  match r with
  | Chr c =>
      match s with
      | x :: s' => if Ascii.eqb x c then k s' caps else None
      | [] => None
      end
  | Class f =>
      match s with
      | x :: s' => if f x then k s' caps else None
      | [] => None
      end
  | Cat r1 r2 => backtrack r1 s caps (fun s' caps' => backtrack r2 s' caps' k)
  | Star r1 => star_loop (backtrack r1) k (length s) s caps
  | Group n r1 =>
      backtrack r1 s caps
        (fun s' caps' => k s' ((n, take (length s - length s') s) :: caps'))
  | Bol => if (length s =? length whole)%nat then k s caps else None
  | Eol =>
      match s with
      | [] => k s caps
      | [c] => if is_newline c then k s caps else None
      | _ => None
      end
  end.

End Matcher.

(** One attempt at the start of [s]: the captures and what follows the
    match. *)
Definition re_match (r : regex) (s : text) : option (captures * text) :=
  backtrack s r s [] (fun s' caps => Some (caps, s')).

(** [.] without flags: any character but the line feed. *)
Definition any_char (c : ascii) : bool := negb (is_newline c).

(** ** The two patterns of the services *)

(** The numbering pattern, [^(\d+(?:\.\d+)*\s+)(G)$] with [G] a greedy run
    of [.], compiled in [process_paragraph]. *)
Definition numbering_pattern : regex :=
  Cat Bol
   (Cat (Group 1 (Cat (Plus (Class is_digit))
                  (Cat (Star (Cat (Chr ".") (Plus (Class is_digit))))
                       (Plus (Class is_space)))))
        (Cat (Group 2 (Star (Class any_char))) Eol)).

(** The placeholder pattern, [\{\{\s*(\d+)\s*\}\}], compiled in
    [process_fill_paragraph]. *)
Definition placeholder_pattern : regex :=
  Cat (Chr "{") (Cat (Chr "{")
   (Cat (Star (Class is_space))
    (Cat (Group 1 (Plus (Class is_digit)))
     (Cat (Star (Class is_space)) (Cat (Chr "}") (Chr "}")))))).

(** [pattern.match(s)] for the numbering pattern:
    [Some (group 1, group 2)] or [None]. *)
Definition match_numbering (s : text) : option (text * text) :=
  match re_match numbering_pattern s with
  | Some (caps, _) => Some (group 1 caps, group 2 caps)
  | None => None
  end.

(** One attempt of the placeholder pattern at the start of [s]:
    [Some (group 0, group 1, what follows the match)] or [None]. *)
Definition match_placeholder (s : text) : option (text * text * text) :=
  match re_match placeholder_pattern s with
  | Some (caps, rest) => Some (take (length s - length rest) s, group 1 caps, rest)
  | None => None
  end.

(** ** Scanning replacement: [re.sub] and [str.replace]

    Both walk the text from left to right.  Where the matcher [m] succeeds
    the replacement is written and the walk resumes after the match;
    elsewhere one character is copied.  What has been written is never read
    again.  [m] returns the replacement and the text after the match. *)
Fixpoint scan_fuel (fuel : nat) (m : text -> option (text * text)) (s : text) : text :=
  match fuel with
  | O => []
  | S fuel' =>
      match s with
      | [] => []
      | c :: s' =>
          match m s with
          | Some (out, rest) => out ++ scan_fuel fuel' m rest
          | None => c :: scan_fuel fuel' m s'
          end
      end
  end.

Definition scan (m : text -> option (text * text)) (s : text) : text :=
  scan_fuel (length s) m s.

(** [pattern.sub(repl, s)] for the placeholder pattern and a callable
    [repl], given the whole match and group 1.  CPython appends the value
    of [repl] to the result unless it is [None], so [None] writes nothing. *)
Definition sub_matcher (repl : text -> text -> option text) (s : text)
  : option (text * text) :=
  match match_placeholder s with
  | Some (g0, g1, rest) => Some (default [] (repl g0 g1), rest)
  | None => None
  end.

Definition re_sub (repl : text -> text -> option text) (s : text) : text :=
  scan (sub_matcher repl) s.

(** Whether the placeholder pattern matches somewhere in [s]
    ([pattern.search(s) is not None]). *)
Fixpoint has_token (s : text) : bool :=
  match s with
  | [] => false
  | _ :: s' =>
      match match_placeholder s with
      | Some _ => true
      | None => has_token s'
      end
  end.

(** [old in s]. *)
Fixpoint contains (old s : text) : bool :=
  starts_with old s || match s with [] => false | _ :: s' => contains old s' end.

Definition replace_matcher (old new s : text) : option (text * text) :=
  if starts_with old s then Some (new, drop (length old) s) else None.

(** [s.replace(old, new)]; an empty [old] matches between all characters. *)
Definition str_replace (old new s : text) : text :=
  match old with
  | [] => new ++ concat (map (fun c => c :: new) s)
  | _ :: _ => scan (replace_matcher old new) s
  end.

(** ** The document model (python-docx, as far as the services use it) *)

Record RGBColor := { red : Z; green : Z; blue : Z }.

(** [run.font]: each attribute is a value or [None]; [font_size] is a
    [Length], an [int] counting English Metric Units. *)
Record Font := {
  font_name : option text;
  font_size : option Z;
  font_bold : option bool;
  font_italic : option bool;
  font_color_rgb : option RGBColor
}.

Record Run := { run_text : text; run_font : Font }.

Record Paragraph := { runs : list Run }.

Definition paragraph_text (p : Paragraph) : text :=
  concat (map run_text (runs p)).

(** [Pt(points)]: the [Length] of [points] points, [int(points * 12700)]. *)
Definition Pt (points : Z) : Z := points * 12700.

(** The font of a run that [add_run] has just created. *)
Definition default_font : Font :=
  {| font_name := None; font_size := None; font_bold := None;
     font_italic := None; font_color_rgb := None |}.

(** [paragraph.clear()]: no run is left. *)
Definition clear (p : Paragraph) : Paragraph := {| runs := [] |}.

(** [paragraph.add_run(text)], with the font the caller then gives the run. *)
Definition add_run (p : Paragraph) (t : text) (f : Font) : Paragraph :=
  {| runs := runs p ++ [ {| run_text := t; run_font := f |} ] |}.

Record Cell := { cell_paragraphs : list nat }.
Record Row := { cells : list Cell }.
Record Table := { rows : list Row }.

(** A document: the store of its paragraph objects, and the references
    to them in [doc.paragraphs] and in [doc.tables]. *)
Record Document := {
  store : gmap nat Paragraph;
  paragraphs : list nat;
  tables : list Table
}.

(** The object a reference points to.  A reference of python-docx always
    points to a paragraph; a key outside the store reads as a paragraph
    without runs, which both services skip. *)
Definition deref (h : gmap nat Paragraph) (p : nat) : Paragraph :=
  default {| runs := [] |} (h !! p).

(** The paragraphs in the order both services walk them: the body, then
    for every table every row, every cell, every paragraph of the cell. *)
Definition cell_order (c : Cell) : list nat := cell_paragraphs c.
Definition row_order (r : Row) : list nat := concat (map cell_order (cells r)).
Definition table_order (t : Table) : list nat := concat (map row_order (rows t)).
Definition visit_order (d : Document) : list nat :=
  paragraphs d ++ concat (map table_order (tables d)).

(** [sep.join(texts)]. *)
Fixpoint str_join (sep : text) (l : list text) : text :=
  match l with
  | [] => []
  | x :: l' =>
      match l' with
      | [] => x
      | _ :: _ => x ++ sep ++ str_join sep l'
      end
  end.

(** The content of a table cell, its paragraph objects in order.
    [cell.text] reads their texts, joined by line feeds. *)
Definition cell_text (content : list Paragraph) : text :=
  str_join ["010"%char] (map paragraph_text content).

(** ** Where the libraries raise

    [None] stands for the exception a call raises. *)

(** A [for] loop whose body may raise. *)
Fixpoint foldl_exn {A B} (f : A -> B -> option A) (a : A) (l : list B) : option A :=
  match l with
  | [] => Some a
  | x :: l' => a' ← f a x; foldl_exn f a' l'
  end.

Module Python.

(** [sys.int_max_str_digits] as CPython sets it. *)
Definition int_max_str_digits : nat := 4300.

(** [int(s)] on a run of digits: [ValueError] when the run is longer
    than the limit, leading zeros included. *)
Definition int (s : text) : option Z :=
  if (int_max_str_digits <? length s)%nat then None else Some (int_of_text s).

(** [pattern.sub(repl, s)] for the placeholder pattern and a callable
    that may raise: [sub] calls [repl] at every match from left to right,
    and an exception of [repl] leaves [sub]. *)
Fixpoint re_sub_fuel (fuel : nat) (repl : text -> text -> option (option text))
    (s : text) : option text :=
  match fuel with
  | O => Some []
  | S fuel' =>
      match s with
      | [] => Some []
      | c :: s' =>
          match match_placeholder s with
          | Some (g0, g1, rest) =>
              v ← repl g0 g1;
              out ← re_sub_fuel fuel' repl rest;
              Some (default [] v ++ out)
          | None => out ← re_sub_fuel fuel' repl s'; Some (c :: out)
          end
      end
  end.

Definition re_sub (repl : text -> text -> option (option text)) (s : text)
  : option text :=
  re_sub_fuel (length s) repl s.

End Python.

Module Docx.

(** A character lxml takes in the text of an element: no control
    character but the tab, the line feed and the carriage return. *)
Definition xml_char (c : ascii) : bool :=
  (32 <=? code c) || (code c =? 9) || (code c =? 10) || (code c =? 13).

Definition xml_compatible (t : text) : bool := forallb xml_char t.

(** What a run reads as after it was given [t]: python-docx writes a
    line break for a carriage return as for a line feed, and reads a line
    break as a line feed. *)
Definition stored (t : text) : text :=
  map (fun c => if code c =? 13 then "010"%char else c) t.

(** [paragraph.add_run(t)], with the font the caller then gives the run:
    [ValueError] when lxml refuses a character of [t]. *)
Definition add_run (p : Paragraph) (t : text) (f : Font) : option Paragraph :=
  if xml_compatible t then Some (add_run p (stored t) f) else None.

(** The largest value of the size attribute, 2^64 - 1. *)
Definition max_size : Z := 18446744073709551615.

(** [font.size = v]: [ValueError] outside the range of the attribute. *)
Definition set_size (v : Z) : option Z :=
  if (0 <=? v) && (v <=? max_size) then Some v else None.

(** [paragraph.text = t]: [clear()], then [add_run(t)]. *)
Definition set_text (p : Paragraph) (t : text) : option Paragraph :=
  add_run (clear p) t default_font.

(** [cell.text = t]: the content becomes one new paragraph of one run
    that is given [t]. *)
Definition set_cell_text (t : text) : option (list Paragraph) :=
  p ← add_run {| runs := [] |} t default_font; Some [p].

End Docx.

(** ** The data model of the services *)

Record DocumentItem := {
  placeholder_number : Z;
  original_content : text;
  translate_content : option text
}.

Record DocumentEntity := {
  doc_id : text;
  original_filename : text;
  template_filename : text;
  items : list DocumentItem
}.

(** What an endpoint function gives back: a value, or the
    [HTTPException] it raises. *)
Inductive Response (A : Type) :=
| Returned (a : A)
| HTTPException (status_code : Z).
Arguments Returned {A} a.
Arguments HTTPException {A} status_code.

(** [translate_text] is imported from a module that is not among these
    sources; it is the translation capability of the specification, and a
    parameter of the translation stage here.  A call either returns the
    translation or raises; [Raises e] carries [str(e)]. *)
Inductive Outcome :=
| Returns (t : text)
| Raises (e : text).

(** The style dictionary both services capture from the first run. *)
Record Style := {
  style_name : option text;
  style_size : option Z;
  style_bold : option bool;
  style_italic : option bool;
  style_color : option RGBColor
}.

(** Truth value of [style["size"]]: [None] and a zero length are false. *)
Definition size_truthy (o : option Z) : bool :=
  match o with Some n => negb (n =? 0) | None => false end.

(** ** The top-level service, [DocxService.py] *)

Module Root.

Definition CONCURRENCY_LIMIT : Z := 20.

(** The style of the first run, if the paragraph has a run. *)
Definition capture_style (paragraph : Paragraph) : option Style :=
  match runs paragraph with
  | source_run :: _ =>
      let font := run_font source_run in
      Some {| style_name := font_name font;
              style_size := font_size font;
              style_bold := font_bold font;
              style_italic := font_italic font;
              style_color := font_color_rgb font |}
  | [] => None
  end.

(** The font of the new run after the assignments under [if style:]. *)
Definition styled_font (style : option Style) : Font :=
  match style with
  | Some style =>
      {| font_name := style_name style;
         font_size := if size_truthy (style_size style)
                      then Pt <$> style_size style
                      else font_size default_font;
         font_bold := style_bold style;
         font_italic := style_italic style;
         font_color_rgb := match style_color style with
                           | Some c => Some c
                           | None => font_color_rgb default_font
                           end |}
  | None => default_font
  end.

(** Clear the paragraph and write [new_text] in one run that takes the
    captured style: the closing part of both paragraph functions. *)
Definition rewrite_paragraph (paragraph : Paragraph) (new_text : text) : Paragraph :=
  let style := capture_style paragraph in
  add_run (clear paragraph) new_text (styled_font style).

(** [process_paragraph(paragraph, current_num, items)]: the paragraph and
    the list are changed in place, the next number is returned. *)
Definition process_paragraph (paragraph : nat) (current_num : Z)
    (st : gmap nat Paragraph * list DocumentItem)
  : Z * (gmap nat Paragraph * list DocumentItem) :=
  let '(h, items) := st in
  let original_text := strip (paragraph_text (deref h paragraph)) in
  if is_nil original_text then (current_num, st) else
  let '(content, new_text) :=
    match match_numbering original_text with
    | Some (number_part, content) =>
        (content, number_part ++ placeholder current_num)
    | None => (original_text, placeholder current_num)
    end in
  let h := <[paragraph := rewrite_paragraph (deref h paragraph) new_text]> h in
  let items := items ++ [ {| placeholder_number := current_num;
                             original_content := content;
                             translate_content := None |} ] in
  (current_num + 1, (h, items)).

(** One [for paragraph in ...: current_num = process_paragraph(...)]. *)
Definition process_paragraphs (ps : list nat)
    (acc : Z * (gmap nat Paragraph * list DocumentItem))
  : Z * (gmap nat Paragraph * list DocumentItem) :=
  foldl (fun acc paragraph => process_paragraph paragraph acc.1 acc.2) acc ps.

Definition process_tables (ts : list Table)
    (acc : Z * (gmap nat Paragraph * list DocumentItem))
  : Z * (gmap nat Paragraph * list DocumentItem) :=
  foldl (fun acc table =>
    foldl (fun acc row =>
      foldl (fun acc cell => process_paragraphs (cell_paragraphs cell) acc)
            acc (cells row))
      acc (rows table))
    acc ts.

(** The loops of [extract_content]: the template document and the items. *)
Definition extract (doc : Document) : Document * list DocumentItem :=
  let items := [] in
  let current_num := 1 in
  let acc := process_paragraphs (paragraphs doc) (current_num, (store doc, items)) in
  let acc := process_tables (tables doc) acc in
  ({| store := acc.2.1; paragraphs := paragraphs doc; tables := tables doc |},
   acc.2.2).

(** An upload: its file name, if any, and the document python-docx reads
    from it ([None] when [Document(file.file)] raises).  In
    [file.filename or "uploaded.docx"] an empty name gives way to the
    default as [None] does. *)
Record UploadFile := { filename : option text; file : option Document }.

(** [translate_item(item)]; [call] is the outcome of [translate_text] on
    the item's content. *)
Definition translate_item (call : text -> Outcome) (item : DocumentItem) : DocumentItem :=
  match call (original_content item) with
  | Returns t =>
      {| placeholder_number := placeholder_number item;
         original_content := original_content item;
         translate_content := Some t |}
  | Raises e =>
      {| placeholder_number := placeholder_number item;
         original_content := original_content item;
         translate_content := Some (str "[FAILED] " ++ e) |}
  end.

(** [batch_translate(items)] as the state it leaves when [gather]
    returns: every task has run [translate_item] on its own item.
    [translate_text i] is the outcome of the call made for the item at
    position [i]. *)
Definition batch_translate (translate_text : nat -> text -> Outcome)
    (items : list DocumentItem) : list DocumentItem :=
  imap (fun i item => translate_item (translate_text i) item) items.

(** The dictionary comprehension of [fill_template]: a later item with the
    same number replaces an earlier one. *)
Definition build_content_map (items : list DocumentItem) : gmap Z (option text) :=
  foldl (fun m item => <[placeholder_number item := translate_content item]> m)
        ∅ items.

(** [content_map.get(int(m.group(1)), m.group(0))]. *)
Definition lookup_token (content_map : gmap Z (option text)) (g0 g1 : text)
  : option text :=
  match content_map !! int_of_text g1 with
  | Some v => v
  | None => Some g0
  end.

Definition process_fill_paragraph (paragraph : nat)
    (content_map : gmap Z (option text)) (h : gmap nat Paragraph)
  : gmap nat Paragraph :=
  let original_text := strip (paragraph_text (deref h paragraph)) in
  if is_nil original_text then h else
  let new_text := re_sub (lookup_token content_map) original_text in
  <[paragraph := rewrite_paragraph (deref h paragraph) new_text]> h.

Definition fill_paragraphs (ps : list nat) (content_map : gmap Z (option text))
    (h : gmap nat Paragraph) : gmap nat Paragraph :=
  foldl (fun h paragraph => process_fill_paragraph paragraph content_map h) h ps.

Definition fill_tables (ts : list Table) (content_map : gmap Z (option text))
    (h : gmap nat Paragraph) : gmap nat Paragraph :=
  foldl (fun h table =>
    foldl (fun h row =>
      foldl (fun h cell => fill_paragraphs (cell_paragraphs cell) content_map h)
            h (cells row))
      h (rows table))
    h ts.

(** The loops of [fill_template] on the template that was opened. *)
Definition fill (doc : Document) (items : list DocumentItem) : Document :=
  let content_map := build_content_map items in
  let h := fill_paragraphs (paragraphs doc) content_map (store doc) in
  let h := fill_tables (tables doc) content_map h in
  {| store := h; paragraphs := paragraphs doc; tables := tables doc |}.

(** [process_document] on the document of the upload: extraction,
    translation, reassembly of the template that extraction stored. *)
Definition process_document (translate_text : nat -> text -> Outcome)
    (doc : Document) : Document :=
  let '(template, items) := extract doc in
  fill template (batch_translate translate_text items).

End Root.

(** ** The top-level service with the exceptions of the libraries

    The functions of [DocxService.py] again, line by line as in [Root],
    with the calls that can raise: [int] on group 1 of a token,
    [add_run] on the new text, the assignment of the size.  The handlers
    of [extract_content] and [fill_template] turn every exception into
    status 500. *)

Module RootExn.

(** The font of the new run after the assignments under [if style:]. *)
Definition styled_font (style : option Style) : option Font :=
  match style with
  | Some style =>
      size ← (if size_truthy (style_size style)
              then match style_size style with
                   | Some s => v ← Docx.set_size (Pt s); Some (Some v)
                   | None => Some None
                   end
              else Some (font_size default_font));
      Some {| font_name := style_name style;
              font_size := size;
              font_bold := style_bold style;
              font_italic := style_italic style;
              font_color_rgb := match style_color style with
                                | Some c => Some c
                                | None => font_color_rgb default_font
                                end |}
  | None => Some default_font
  end.

Definition rewrite_paragraph (paragraph : Paragraph) (new_text : text)
  : option Paragraph :=
  let style := Root.capture_style paragraph in
  font ← styled_font style;
  Docx.add_run (clear paragraph) new_text font.

Definition process_paragraph (paragraph : nat) (current_num : Z)
    (st : gmap nat Paragraph * list DocumentItem)
  : option (Z * (gmap nat Paragraph * list DocumentItem)) :=
  let '(h, items) := st in
  let original_text := strip (paragraph_text (deref h paragraph)) in
  if is_nil original_text then Some (current_num, st) else
  let '(content, new_text) :=
    match match_numbering original_text with
    | Some (number_part, content) =>
        (content, number_part ++ placeholder current_num)
    | None => (original_text, placeholder current_num)
    end in
  para ← rewrite_paragraph (deref h paragraph) new_text;
  let h := <[paragraph := para]> h in
  let items := items ++ [ {| placeholder_number := current_num;
                             original_content := content;
                             translate_content := None |} ] in
  Some (current_num + 1, (h, items)).

Definition process_paragraphs (ps : list nat)
    (acc : Z * (gmap nat Paragraph * list DocumentItem))
  : option (Z * (gmap nat Paragraph * list DocumentItem)) :=
  foldl_exn (fun acc paragraph => process_paragraph paragraph acc.1 acc.2) acc ps.

Definition process_tables (ts : list Table)
    (acc : Z * (gmap nat Paragraph * list DocumentItem))
  : option (Z * (gmap nat Paragraph * list DocumentItem)) :=
  foldl_exn (fun acc table =>
    foldl_exn (fun acc row =>
      foldl_exn (fun acc cell => process_paragraphs (cell_paragraphs cell) acc)
                acc (cells row))
      acc (rows table))
    acc ts.

(** The loops of [extract_content]. *)
Definition extract (doc : Document) : option (Document * list DocumentItem) :=
  let items := [] in
  let current_num := 1 in
  acc ← process_paragraphs (paragraphs doc) (current_num, (store doc, items));
  acc ← process_tables (tables doc) acc;
  Some ({| store := acc.2.1; paragraphs := paragraphs doc; tables := tables doc |},
        acc.2.2).

(** [extract_content(file)], given the identifier and the clock value it
    draws, and whether [doc.save(template_path)] succeeds.  The template is
    returned beside the entity. *)
Definition extract_content (uuid4 : text) (time : Z) (template_saved : bool)
    (f : Root.UploadFile) : Response (Document * DocumentEntity) :=
  let body : option (Document * DocumentEntity) :=
    let original_filename :=
      match Root.filename f with
      | Some (c :: t) => c :: t
      | _ => str "uploaded.docx"
      end in
    let base_name := str_replace (str ".docx") [] original_filename in
    let template_filename :=
      base_name ++ str "_template_" ++ str_of_int time ++ str ".docx" in
    doc ← Root.file f;
    '(template, items) ← extract doc;
    if template_saved
    then Some (template,
               {| doc_id := uuid4; original_filename := original_filename;
                  template_filename := template_filename; items := items |})
    else None in
  match body with
  | Some r => Returned r
  | None => HTTPException 500
  end.

(** [content_map.get(int(m.group(1)), m.group(0))]. *)
Definition lookup_token (content_map : gmap Z (option text)) (g0 g1 : text)
  : option (option text) :=
  n ← Python.int g1;
  Some (match content_map !! n with
        | Some v => v
        | None => Some g0
        end).

Definition process_fill_paragraph (paragraph : nat)
    (content_map : gmap Z (option text)) (h : gmap nat Paragraph)
  : option (gmap nat Paragraph) :=
  let original_text := strip (paragraph_text (deref h paragraph)) in
  if is_nil original_text then Some h else
  new_text ← Python.re_sub (lookup_token content_map) original_text;
  para ← rewrite_paragraph (deref h paragraph) new_text;
  Some (<[paragraph := para]> h).

Definition fill_paragraphs (ps : list nat) (content_map : gmap Z (option text))
    (h : gmap nat Paragraph) : option (gmap nat Paragraph) :=
  foldl_exn (fun h paragraph => process_fill_paragraph paragraph content_map h) h ps.

Definition fill_tables (ts : list Table) (content_map : gmap Z (option text))
    (h : gmap nat Paragraph) : option (gmap nat Paragraph) :=
  foldl_exn (fun h table =>
    foldl_exn (fun h row =>
      foldl_exn (fun h cell => fill_paragraphs (cell_paragraphs cell) content_map h)
                h (cells row))
      h (rows table))
    h ts.

(** The loops of [fill_template] on the template that was opened. *)
Definition fill (doc : Document) (items : list DocumentItem) : option Document :=
  let content_map := Root.build_content_map items in
  h ← fill_paragraphs (paragraphs doc) content_map (store doc);
  h ← fill_tables (tables doc) content_map h;
  Some {| store := h; paragraphs := paragraphs doc; tables := tables doc |}.

(** [fill_template(doc_entity)]; [template] is the document stored under
    [template_filename], [None] when the file is not there (the 404 raised
    for it is an exception like the others for the handler around the
    body); [product_written] says whether writing the file under
    [PRODUCT_DIR] succeeds. *)
Definition fill_template (template : option Document) (product_written : bool)
    (doc_entity : DocumentEntity) : Response Document :=
  let body : option Document :=
    doc ← template;
    doc ← fill doc (items doc_entity);
    if product_written then Some doc else None in
  match body with
  | Some d => Returned d
  | None => HTTPException 500
  end.

(** [process_document(file)]: the response of the endpoint.
    [batch_translate] leaves the translations in the items of the entity;
    [fill_template] opens the template [extract_content] saved. *)
Definition process_document (translate_text : nat -> text -> Outcome)
    (uuid4 : text) (time : Z) (template_saved product_written : bool)
    (f : Root.UploadFile) : Response Document :=
  match extract_content uuid4 time template_saved f with
  | Returned (template, doc_entity) =>
      fill_template (Some template) product_written
        {| doc_id := doc_id doc_entity;
           original_filename := original_filename doc_entity;
           template_filename := template_filename doc_entity;
           items := Root.batch_translate translate_text (items doc_entity) |}
  | HTTPException status_code => HTTPException status_code
  end.

End RootExn.

(** ** The service under [server/], [server/DocxService.py] *)

Module Server.

Definition CONCURRENCY_LIMIT : Z := 100.

(** [x or d] on a text or [None]: [None] and the empty text give [d]. *)
Definition text_or (x : option text) (d : text) : text :=
  match x with
  | Some (c :: t) => c :: t
  | _ => d
  end.

(** [font.size or Pt(12)]. *)
Definition size_or (x : option Z) (d : Z) : Z :=
  if size_truthy x then default d x else d.

(** [clear_paragraph]: every run is removed from the paragraph element,
    last run first. *)
Definition clear_paragraph (paragraph : Paragraph) : Paragraph :=
  foldl (fun p _ => {| runs := removelast (runs p) |}) paragraph
        (rev (runs paragraph)).

Definition capture_style (paragraph : Paragraph) : option Style :=
  match runs paragraph with
  | run0 :: _ =>
      let font := run_font run0 in
      Some {| style_name := Some (text_or (font_name font) (str "SimSun"));
              style_size := Some (size_or (font_size font) (Pt 12));
              style_bold := font_bold font;
              style_italic := font_italic font;
              style_color := font_color_rgb font |}
  | [] => None
  end.

(** The font of the new run after the assignments under [if style:]
    (the East Asian font of [rFonts] is set to the same name and is not a
    field of its own here). *)
Definition styled_font (style : option Style) : Font :=
  match style with
  | Some style =>
      {| font_name := style_name style;
         font_size := style_size style;
         font_bold := style_bold style;
         font_italic := style_italic style;
         font_color_rgb := match style_color style with
                           | Some c => Some c
                           | None => font_color_rgb default_font
                           end |}
  | None => default_font
  end.

Definition rewrite_paragraph (paragraph : Paragraph) (new_text : text) : Paragraph :=
  let style := capture_style paragraph in
  add_run (clear_paragraph paragraph) new_text (styled_font style).

Definition process_paragraph (paragraph : nat) (current_num : Z)
    (st : gmap nat Paragraph * list DocumentItem)
  : Z * (gmap nat Paragraph * list DocumentItem) :=
  let '(h, items) := st in
  let original_text := strip (paragraph_text (deref h paragraph)) in
  if is_nil original_text then (current_num, st) else
  let '(content, new_text) :=
    match match_numbering original_text with
    | Some (number_part, content) =>
        (content, number_part ++ placeholder current_num)
    | None => (original_text, placeholder current_num)
    end in
  let h := <[paragraph := rewrite_paragraph (deref h paragraph) new_text]> h in
  let items := items ++ [ {| placeholder_number := current_num;
                             original_content := content;
                             translate_content := None |} ] in
  (current_num + 1, (h, items)).

(** The body of [_translate] under the semaphore: the assignment happens
    only when the awaited call returns; [None] stands for the exception
    that leaves the coroutine. *)
Definition translate (call : text -> Outcome) (item : DocumentItem)
  : option DocumentItem :=
  match call (original_content item) with
  | Returns t =>
      Some {| placeholder_number := placeholder_number item;
              original_content := original_content item;
              translate_content := Some t |}
  | Raises _ => None
  end.

(** [batch_translate(items)]: [gather] returns when every coroutine has
    returned, and raises as soon as one of them raises ([None]); there is
    no handler between the call of [translate_text] and [gather]. *)
Fixpoint batch_translate_from (i : nat) (translate_text : nat -> text -> Outcome)
    (items : list DocumentItem) : option (list DocumentItem) :=
  match items with
  | [] => Some []
  | item :: items' =>
      match translate (translate_text i) item,
            batch_translate_from (S i) translate_text items' with
      | Some item', Some rest => Some (item' :: rest)
      | _, _ => None
      end
  end.

Definition batch_translate := batch_translate_from 0.

(** One turn of the item loop of [fill_template] on a text. *)
Definition fill_step (t : text) (item : DocumentItem) : text :=
  let placeholder := placeholder (placeholder_number item) in
  if contains placeholder t
  then str_replace placeholder (text_or (translate_content item) []) t
  else t.

(** The item loop of [fill_template] on the text of one paragraph
    ([paragraph.text]) or of one cell ([cell.text]). *)
Definition fill_text (items : list DocumentItem) (t : text) : text :=
  foldl fill_step t items.

(** The item loop of the first loop of [fill_template] on one body
    paragraph; the assignment to [paragraph.text] can raise, and no
    handler is around it. *)
Definition fill_paragraph (items : list DocumentItem) (paragraph : nat)
    (h : gmap nat Paragraph) : option (gmap nat Paragraph) :=
  foldl_exn (fun h item =>
               let t := paragraph_text (deref h paragraph) in
               let placeholder := placeholder (placeholder_number item) in
               if contains placeholder t
               then para ← Docx.set_text (deref h paragraph)
                             (str_replace placeholder
                                (text_or (translate_content item) []) t);
                    Some (<[paragraph := para]> h)
               else Some h)
            h items.

(** The first loop of [fill_template], over [doc.paragraphs]. *)
Definition fill_paragraphs (items : list DocumentItem) (ps : list nat)
    (h : gmap nat Paragraph) : option (gmap nat Paragraph) :=
  foldl_exn (fun h paragraph => fill_paragraph items paragraph h) h ps.

(** The item loop of the second loop of [fill_template], on the content
    of one cell. *)
Definition fill_cell (items : list DocumentItem) (content : list Paragraph)
  : option (list Paragraph) :=
  foldl_exn (fun content item =>
               let t := cell_text content in
               let placeholder := placeholder (placeholder_number item) in
               if contains placeholder t
               then Docx.set_cell_text
                      (str_replace placeholder
                         (text_or (translate_content item) []) t)
               else Some content)
            content items.

End Server.

(** ** The translation stage as a scheduler

    Both services start one task per item; a task waits at
    [async with semaphore], holds a slot while its call of the translation
    service is in flight, and gives the slot back when the call ends.
    [sem_value] is the counter of [asyncio.Semaphore]: [acquire] proceeds
    only when it is positive and decrements it, [release] increments it. *)

Inductive TaskState := Waiting | InFlight | Finished.

Record Sched := {
  sem_value : Z;
  tasks : list (TaskState * DocumentItem)
}.

Definition is_in_flight (t : TaskState * DocumentItem) : bool :=
  match t.1 with InFlight => true | _ => false end.

(** The number of translation calls in flight. *)
Definition in_flight (s : Sched) : Z :=
  Z.of_nat (length (List.filter is_in_flight (tasks s))).

Section Scheduler.

(** What the end of the call for the item at position [i] leaves in the
    item: [Root.translate_item], or the assignment of the server variant
    when the call returns. *)
Variable finish : nat -> DocumentItem -> DocumentItem.

Definition start (limit : Z) (items : list DocumentItem) : Sched :=
  {| sem_value := limit; tasks := map (fun item => (Waiting, item)) items |}.

Inductive step : Sched -> Sched -> Prop :=
| step_acquire s i item :
    tasks s !! i = Some (Waiting, item) ->
    0 < sem_value s ->
    step s {| sem_value := sem_value s - 1;
              tasks := <[i := (InFlight, item)]> (tasks s) |}
| step_release s i item :
    tasks s !! i = Some (InFlight, item) ->
    step s {| sem_value := sem_value s + 1;
              tasks := <[i := (Finished, finish i item)]> (tasks s) |}.

Inductive reachable (limit : Z) (items : list DocumentItem) : Sched -> Prop :=
| reach_start : reachable limit items (start limit items)
| reach_step s s' : reachable limit items s -> step s s' -> reachable limit items s'.

End Scheduler.

Definition root_finish (translate_text : nat -> text -> Outcome)
    (i : nat) (item : DocumentItem) : DocumentItem :=
  Root.translate_item (translate_text i) item.

Definition server_finish (translate_text : nat -> text -> Outcome)
    (i : nat) (item : DocumentItem) : DocumentItem :=
  default item (Server.translate (translate_text i) item).

(** * Vocabulary of the statements *)

(** ** The path of the matcher

    Both patterns are deterministic: every greedy repetition ranges over
    characters that cannot start what follows it in the pattern, so giving
    back a character never leads to a match.  The functions below walk the
    one path on which the matcher can succeed; they are proved equal to
    the backtracking matcher on the patterns, and serve in the proofs. *)

(** As many groups "dot, digits" as there are.  A group takes at least
    two characters; the length of the text is fuel enough. *)
Fixpoint dotted_groups (fuel : nat) (s : text) : text * text :=
  match fuel with
  | O => ([], s)
  | S fuel' =>
      match s with
      | c :: s' =>
          if Ascii.eqb c "." then
            let '(d, r) := span is_digit s' in
            if is_nil d then ([], s)
            else let '(g, r') := dotted_groups fuel' r in (c :: d ++ g, r')
          else ([], s)
      | [] => ([], s)
      end
  end.

(** Group 2 and [$]: the text up to the first line feed, if nothing or
    only that line feed follows. *)
Definition match_rest_of_line (s : text) : option text :=
  let '(body, r) := span (fun c => negb (is_newline c)) s in
  match r with
  | [] => Some body
  | [_] => Some body
  | _ => None
  end.

Definition match_numbering_det (s : text) : option (text * text) :=
  let '(d, r) := span is_digit s in
  if is_nil d then None else
  let '(g, r1) := dotted_groups (length r) r in
  let '(w, r2) := span is_space r1 in
  if is_nil w then None else
  match match_rest_of_line r2 with
  | Some content => Some (d ++ g ++ w, content)
  | None => None
  end.

Definition match_placeholder_det (s : text) : option (text * text * text) :=
  match s with
  | c1 :: c2 :: r =>
      if is_lbrace c1 && is_lbrace c2 then
        let '(w1, r1) := span is_space r in
        let '(d, r2) := span is_digit r1 in
        if is_nil d then None else
        let '(w2, r3) := span is_space r2 in
        match r3 with
        | c3 :: c4 :: rest =>
            if is_rbrace c3 && is_rbrace c4
            then Some (c1 :: c2 :: w1 ++ d ++ w2 ++ [c3; c4], d, rest)
            else None
        | _ => None
        end
      else None
  | _ => None
  end.

(** What follows a greedy run does not start with a character of the class. *)
Definition stops {A} (f : A -> bool) (l : list A) : Prop :=
  match l with [] => True | x :: _ => f x = false end.

(** The texts the placeholder pattern matches, in the words of the
    pattern: two left braces, blanks, a non-empty run of digits (group 1),
    blanks, two right braces. *)
Definition token_shape (g0 g1 : text) : Prop :=
  exists w1 w2,
    g0 = str "{{" ++ w1 ++ g1 ++ w2 ++ str "}}"
    /\ forallb is_space w1 = true
    /\ forallb is_digit g1 = true /\ g1 <> []
    /\ forallb is_space w2 = true.

(** A matcher that consumes at least one character where it succeeds. *)
Definition consuming (m : text -> option (text * text)) : Prop :=
  forall s out rest, m s = Some (out, rest) -> (length rest < length s)%nat.

(** No left brace occurs in the text. *)
Definition no_lbrace (l : text) : Prop :=
  forallb (fun c => negb (is_lbrace c)) l = true.

(** Two left braces and then a non-empty body without a left brace: the
    form of the token extraction writes and of every text the placeholder
    pattern matches. *)
Definition braced (t : text) : Prop :=
  exists body, t = str "{{" ++ body /\ body <> [] /\ no_lbrace body.

Definition is_dot (c : ascii) : bool := Ascii.eqb c ".".

(** What a greedy run over a class does after it has taken [a]: the rest
    of the pattern is tried on what follows, [b], first, then with one
    character given back, and so on. *)
Fixpoint give_back {R} (k : text -> captures -> option R) (caps : captures)
    (a b : text) : option R :=
  match a with
  | [] => k b caps
  | x :: a' =>
      match give_back k caps a' b with
      | Some r => Some r
      | None => k (x :: a' ++ b) caps
      end
  end.

(** The text a reference reads. *)
Definition text_at (h : gmap nat Paragraph) (p : nat) : text :=
  paragraph_text (deref h p).

(** What extraction leaves in a paragraph it has numbered [m]: an optional
    numbering prefix and the token of [m]. *)
Definition template_text (m : Z) (t : text) : Prop :=
  exists number_part,
    t = number_part ++ placeholder m
    /\ no_lbrace number_part /\ stops is_space number_part.

(** The trimmed text of the paragraph is empty: both services skip it. *)
Definition blank (h : gmap nat Paragraph) (p : nat) : bool :=
  is_nil (strip (text_at h p)).

(** The content extraction records for a trimmed text: what follows the
    numbering prefix, or the whole text. *)
Definition content_of (original_text : text) : text :=
  match match_numbering original_text with
  | Some (_, content) => content
  | None => original_text
  end.

(** The number of visits, in the order of the walk, at which the trimmed
    text of the paragraph is not empty. *)
Definition count_with_text (h : gmap nat Paragraph) (ps : list nat) : Z :=
  Z.of_nat (length (List.filter (fun p => negb (blank h p)) ps)).

(** The same number for a document: the N of the numbering. *)
Definition visits_with_text (d : Document) : Z :=
  count_with_text (store d) (visit_order d).

(** A paragraph of the template: without text, or an optional numbering
    prefix and the token of a number handed out so far. *)
Definition templated (n : Z) (h : gmap nat Paragraph) (q : nat) : Prop :=
  blank h q = true \/ exists m, 1 <= m < n /\ template_text m (text_at h q).

(** Every number below [n] has a translation without a token. *)
Definition clean_map (cm : gmap Z (option text)) (n : Z) : Prop :=
  forall m, 1 <= m < n -> exists t, cm !! m = Some (Some t) /\ has_token t = false.

(** The placeholder pattern matches nowhere in the paragraph. *)
Definition filled (h : gmap nat Paragraph) (q : nat) : Prop :=
  has_token (text_at h q) = false.

(** The call returns, and what it returns holds no token. *)
Definition clean_outcome (o : Outcome) : bool :=
  match o with
  | Returns t => negb (has_token t)
  | Raises _ => false
  end.

(** No call of the translation stage fails, and no translation holds a
    text the placeholder pattern matches. *)
Definition translations_clean (translate_text : nat -> text -> Outcome)
    (its : list DocumentItem) : bool :=
  forallb (fun b => b)
    (imap (fun i item => clean_outcome (translate_text i (original_content item))) its).

(** The placeholder pattern matches somewhere in the document. *)
Definition document_has_token (d : Document) : bool :=
  existsb (fun q => has_token (text_at (store d) q)) (visit_order d).

(** [tok] as a whole is matched by the placeholder pattern; the number
    the code reads in it, [int(m.group(1))]. *)
Definition decode (tok : text) : option Z :=
  match match_placeholder tok with
  | Some (_, g1, []) => Some (int_of_text g1)
  | _ => None
  end.

(** The token as the specification words it: two braces, one space, the
    decimal numeral of a natural number, one space, two braces. *)
Definition strict_token (s : text) : Prop := exists n, 0 <= n /\ s = placeholder n.

(** A non-empty run of digits: an integer of the numbering. *)
Definition digits (d : text) : Prop := forallb is_digit d = true /\ d <> [].

(** A numbering prefix in the words of the specification: integers
    separated by dots, followed by blanks. *)
Definition numbering_prefix (p : text) : Prop :=
  exists d gs w,
    p = d ++ concat (map (fun g => "."%char :: g) gs) ++ w
    /\ digits d /\ Forall digits gs
    /\ forallb is_space w = true /\ w <> [].

(** ** The pipeline, paragraph by paragraph *)

(** The numbering prefix extraction keeps ahead of the token: group 1 of
    the numbering pattern, or nothing. *)
Definition prefix_of (original_text : text) : text :=
  match match_numbering original_text with
  | Some (number_part, _) => number_part
  | None => []
  end.

(** What [translate_item] leaves in an item for an outcome of the call. *)
Definition outcome_text (o : Outcome) : text :=
  match o with
  | Returns t => t
  | Raises e => str "[FAILED] " ++ e
  end.

(** The visits, in the order of the walk, at which the trimmed text of
    the paragraph is not empty. *)
Definition with_text (h : gmap nat Paragraph) (ps : list nat) : list nat :=
  List.filter (fun p => negb (blank h p)) ps.

(** What [process_fill_paragraph] makes of a paragraph. *)
Definition fill_one (cm : gmap Z (option text)) (para : Paragraph) : Paragraph :=
  if is_nil (strip (paragraph_text para)) then para
  else Root.rewrite_paragraph para
         (re_sub (Root.lookup_token cm) (strip (paragraph_text para))).

(** ** The server variant *)

(** The token of some item occurs in the text: the item loop of the
    server variant replaces something. *)
Definition occurs (items : list DocumentItem) (t : text) : bool :=
  existsb (fun item => contains (placeholder (placeholder_number item)) t) items.

(** Every call of the translation stage returns. *)
Definition all_return (translate_text : nat -> text -> Outcome)
    (its : list DocumentItem) : Prop :=
  forall i item, its !! i = Some item ->
                 exists t, translate_text i (original_content item) = Returns t.

(** A paragraph of one run without formatting. *)
Definition unformatted (t : text) : Paragraph :=
  {| runs := [ {| run_text := t; run_font := default_font |} ] |}.

(** ** The scheduler *)

(** The steps a task has ahead of it: its admission and the end of its
    call. *)
Definition steps_left (t : TaskState * DocumentItem) : nat :=
  match t.1 with Waiting => 2 | InFlight => 1 | Finished => 0 end.

(** The steps the translation stage has ahead of it. *)
Definition remaining (s : Sched) : nat := sum_list (map steps_left (tasks s)).

(** Every task has finished: [gather] returns. *)
Definition all_finished (s : Sched) : Prop :=
  Forall (fun t => t.1 = Finished) (tasks s).

(** ** Exceptions *)

(** No carriage return in the text: a run that is given the text reads
    as the text. *)
Definition cr_free (t : text) : bool := forallb (fun c => negb (code c =? 13)) t.

(** A text python-docx takes and gives back as it is. *)
Definition plain (t : text) : bool := Docx.xml_compatible t && cr_free t.

(** The outcome of a call as a run reads it. *)
Definition stored_outcome (o : Outcome) : Outcome :=
  match o with
  | Returns t => Returns (Docx.stored t)
  | Raises e => Raises (Docx.stored e)
  end.

(** [tok] as a whole is matched by the placeholder pattern, and [int]
    gives [n] for its digits. *)
Definition decodes (tok : text) (n : Z) : Prop :=
  exists g1, token_shape tok g1 /\ Python.int g1 = Some n.

(** No token in the text has more digits than [int] takes. *)
Definition within_limit (s : text) : Prop :=
  forall pre g0 g1 rest,
    s = pre ++ g0 ++ rest -> token_shape g0 g1 ->
    (length g1 <= Python.int_max_str_digits)%nat.

(** The size of the first run, if any, is one the top-level service can
    assign after [Pt]. *)
Definition size_fits (para : Paragraph) : bool :=
  match runs para with
  | source_run :: _ =>
      match font_size (run_font source_run) with
      | Some s => (s =? 0) || ((0 <=? Pt s) && (Pt s <=? Docx.max_size))
      | None => true
      end
  | [] => true
  end.

(** No paragraph of the store holds a carriage return. *)
Definition cr_free_store (h : gmap nat Paragraph) : Prop :=
  map_Forall (fun _ para => cr_free (paragraph_text para) = true) h.

(** The translations of a dictionary as runs read them. *)
Definition stored_map (cm : gmap Z (option text)) : gmap Z (option text) :=
  (fun v : option text => Docx.stored <$> v) <$> cm.

(** An item with its translation as a run reads it. *)
Definition stored_item (item : DocumentItem) : DocumentItem :=
  {| placeholder_number := placeholder_number item;
     original_content := original_content item;
     translate_content := Docx.stored <$> translate_content item |}.

(** What the server variant writes for each item is a text python-docx
    takes and gives back as it is. *)
Definition plain_items (its : list DocumentItem) : Prop :=
  Forall (fun item => plain (Server.text_or (translate_content item) []) = true) its.


(** The entity of a document with the given items. *)
Definition entity_of (its : list DocumentItem) : DocumentEntity :=
  {| doc_id := str "id"; original_filename := str "a.docx";
     template_filename := str "a_template_0.docx"; items := its |}.

(** * Sample documents and items *)


(** A store with one paragraph, of one plain run. *)
Definition one_paragraph (t : string) : gmap nat Paragraph :=
  {[ 0%nat := {| runs := [ {| run_text := str t; run_font := default_font |} ] |} ]}.

(** An item with its translation. *)
Definition item_translated (n : Z) (t : string) : DocumentItem :=
  {| placeholder_number := n; original_content := str "Hello";
     translate_content := Some (str t) |}.

(** Arial, 12 pt, bold, red. *)
Definition bold_red_12pt : Font :=
  {| font_name := Some (str "Arial"); font_size := Some (Pt 12);
     font_bold := Some true; font_italic := None;
     font_color_rgb := Some {| red := 255; green := 0; blue := 0 |} |}.

(** A paragraph of two runs of different style. *)
Definition two_runs : Paragraph :=
  {| runs := [ {| run_text := str "Hel"; run_font := bold_red_12pt |};
               {| run_text := str "lo"; run_font := default_font |} ] |}.

(** The text python-docx gives for a line break inside a paragraph. *)
Definition line_feed : text := ["010"%char].

(** A numbered heading with a line break in it. *)
Definition two_lines : gmap nat Paragraph :=
  {[ 0%nat := {| runs := [ {| run_text := str "2.1 Intro" ++ line_feed ++ str "More";
                              run_font := default_font |} ] |} ]}.

(** An item as extraction appends it. *)
Definition item_extracted (n : Z) (t : string) : DocumentItem :=
  {| placeholder_number := n; original_content := str t; translate_content := None |}.

(** A translation service that fails on the second call only. *)
Definition second_call_fails (i : nat) (t : text) : Outcome :=
  if (i =? 1)%nat then Raises (str "timeout") else Returns (str "T:" ++ t).

(** Three items on their way into the translation stage. *)
Definition three_items : list DocumentItem :=
  [item_extracted 1 "one"; item_extracted 2 "two"; item_extracted 3 "three"].

(** One of the three tasks has been admitted. *)
Definition one_in_flight : Sched :=
  {| sem_value := sem_value (start Root.CONCURRENCY_LIMIT three_items) - 1;
     tasks := <[0%nat := (InFlight, item_extracted 1 "one")]>
                (tasks (start Root.CONCURRENCY_LIMIT three_items)) |}.

(** Two of the three tasks have been admitted. *)
Definition two_in_flight : Sched :=
  {| sem_value := sem_value one_in_flight - 1;
     tasks := <[1%nat := (InFlight, item_extracted 2 "two")]> (tasks one_in_flight) |}.

(** A run without formatting of its own. *)
Definition plain_run (t : string) : Run := {| run_text := str t; run_font := default_font |}.

(** A heading in two runs, a blank paragraph, a plain paragraph, and a
    table whose row presents one merged cell twice. *)
Definition sample_document : Document :=
  {| store := {[ 0%nat := {| runs := [ {| run_text := str "2.1 Intro";
                                          run_font := bold_red_12pt |};
                                       plain_run "duction" ] |};
                 1%nat := {| runs := [ plain_run "   " ] |};
                 2%nat := {| runs := [ plain_run " Hello " ] |};
                 3%nat := {| runs := [ plain_run "cell" ] |} ]};
     paragraphs := [0; 1; 2]%nat;
     tables := [ {| rows := [ {| cells := [ {| cell_paragraphs := [3%nat] |};
                                            {| cell_paragraphs := [3%nat] |} ] |} ] |} ] |}.

(** A translation service that answers every call, with the number of the call. *)
Definition numbered_translation (i : nat) (_ : text) : Outcome :=
  Returns (str "texte " ++ str_of_int (Z.of_nat i)).

(** The sample document without the merged cell: no paragraph is met twice. *)
Definition plain_document : Document :=
  {| store := store sample_document;
     paragraphs := [0; 1; 2]%nat;
     tables := [ {| rows := [ {| cells := [ {| cell_paragraphs := [3%nat] |} ] |} ] |} ] |}.


(** The stage on one item: its call is in flight, and then has ended. *)
Definition one_started : Sched :=
  {| sem_value := sem_value (start Root.CONCURRENCY_LIMIT [item_extracted 1 "one"]) - 1;
     tasks := <[0%nat := (InFlight, item_extracted 1 "one")]>
                (tasks (start Root.CONCURRENCY_LIMIT [item_extracted 1 "one"])) |}.

Definition one_finished : Sched :=
  {| sem_value := sem_value one_started + 1;
     tasks := <[0%nat := (Finished,
                          root_finish second_call_fails 0 (item_extracted 1 "one"))]>
                (tasks one_started) |}.

(** A token of [n] digits, all of them [1]. *)
Definition long_token (n : nat) : text :=
  str "{{ " ++ repeat "1"%char n ++ str " }}".

(** A template of one paragraph, of one plain run with the given text. *)
Definition template_of (t : text) : Document :=
  {| store := {[ 0%nat := {| runs := [ {| run_text := t; run_font := default_font |} ] |} ]};
     paragraphs := [0%nat]; tables := [] |}.

(** An upload of a document. *)
Definition upload_of (doc : Document) : Root.UploadFile :=
  {| Root.filename := Some (str "report.docx"); Root.file := Some doc |}.

(** A carriage return. *)
Definition carriage_return : text := ["013"%char].

(** A translation service whose answers hold a carriage return. *)
Definition returns_carriage_return (i : nat) (t : text) : Outcome :=
  Returns (str "a" ++ carriage_return ++ str "b").

(** An item whose translation holds a carriage return, and one whose
    translation holds a form feed. *)
Definition item_carriage_return : DocumentItem :=
  {| placeholder_number := 1; original_content := str "Hello";
     translate_content := Some (str "a" ++ carriage_return ++ str "b") |}.

Definition item_form_feed : DocumentItem :=
  {| placeholder_number := 1; original_content := str "Hello";
     translate_content := Some (str "a" ++ ["012"%char] ++ str "b") |}.

(** * Properties *)

(** ** Lists and character classes *)

Lemma span_eq {A} (f : A -> bool) l : (span f l).1 ++ (span f l).2 = l.
Proof.
  induction l as [|x l IH]; simpl; [done|].
  destruct (f x); [|done]. destruct (span f l) as [a b]; simpl in *. by f_equal.
Qed.

Lemma span_all {A} (f : A -> bool) l : forallb f (span f l).1 = true.
Proof.
  induction l as [|x l IH]; simpl; [done|].
  destruct (f x) eqn:E; [|done]. destruct (span f l) as [a b]; simpl in *.
  by rewrite E.
Qed.

Lemma span_stops {A} (f : A -> bool) l : stops f (span f l).2.
Proof.
  induction l as [|x l IH]; simpl; [done|].
  destruct (f x) eqn:E; [|done]. by destruct (span f l).
Qed.

Lemma span_app {A} (f : A -> bool) a b :
  forallb f a = true -> stops f b -> span f (a ++ b) = (a, b).
Proof.
  induction a as [|x a IH]; simpl; intros Ha Hb.
  - destruct b as [|y b]; simpl in *; [done|]. by rewrite Hb.
  - apply andb_prop in Ha as [Hx Ha]. by rewrite Hx, IH.
Qed.

Lemma span_inv {A} (f : A -> bool) l a b :
  span f l = (a, b) -> l = a ++ b /\ forallb f a = true /\ stops f b.
Proof.
  intros H. pose proof (span_eq f l). pose proof (span_all f l).
  pose proof (span_stops f l). rewrite H in *. simpl in *. done.
Qed.

Lemma stops_app {A} (f : A -> bool) (b c : list A) :
  b <> [] -> stops f b -> stops f (b ++ c).
Proof. by destruct b. Qed.

Lemma is_nil_true {A} (l : list A) : is_nil l = true <-> l = [].
Proof. by destruct l. Qed.

Lemma is_nil_false {A} (l : list A) : is_nil l = false <-> l <> [].
Proof. by destruct l. Qed.

Lemma digit_not_space c : is_digit c = true -> is_space c = false.
Proof. unfold is_digit, is_space. lia. Qed.

Lemma space_not_digit c : is_space c = true -> is_digit c = false.
Proof. unfold is_digit, is_space. lia. Qed.

Lemma is_lbrace_eq c : is_lbrace c = true <-> c = "{"%char.
Proof. apply Ascii.eqb_eq. Qed.

Lemma is_rbrace_eq c : is_rbrace c = true <-> c = "}"%char.
Proof. apply Ascii.eqb_eq. Qed.

Lemma digit_not_lbrace c : is_digit c = true -> is_lbrace c = false.
Proof.
  intros H. destruct (is_lbrace c) eqn:E; [|done].
  apply is_lbrace_eq in E as ->. done.
Qed.

Lemma space_not_lbrace c : is_space c = true -> is_lbrace c = false.
Proof.
  intros H. destruct (is_lbrace c) eqn:E; [|done].
  apply is_lbrace_eq in E as ->. done.
Qed.

Lemma digit_not_rbrace c : is_digit c = true -> is_rbrace c = false.
Proof.
  intros H. destruct (is_rbrace c) eqn:E; [|done].
  apply is_rbrace_eq in E as ->. done.
Qed.

Lemma space_not_rbrace c : is_space c = true -> is_rbrace c = false.
Proof.
  intros H. destruct (is_rbrace c) eqn:E; [|done].
  apply is_rbrace_eq in E as ->. done.
Qed.

Lemma forallb_imp {A} (f g : A -> bool) l :
  (forall x, f x = true -> g x = true) -> forallb f l = true -> forallb g l = true.
Proof.
  intros H. induction l as [|x l IH]; simpl; [done|].
  intros [Hx Hl]%andb_prop. by rewrite (H x Hx), IH.
Qed.

Lemma dotted_groups_inv fuel s g r :
  dotted_groups fuel s = (g, r) ->
  s = g ++ r /\ forallb (fun c => is_digit c || is_dot c) g = true.
Proof.
  revert s g r. induction fuel as [|fuel IH]; intros s g r; simpl.
  - by intros [= <- <-].
  - destruct s as [|c s]; [by intros [= <- <-]|].
    destruct (Ascii.eqb c ".") eqn:Ec; [|by intros [= <- <-]].
    destruct (span is_digit s) as [d r0] eqn:Sd.
    destruct (is_nil d); [by intros [= <- <-]|].
    destruct (dotted_groups fuel r0) as [g' r'] eqn:Eg.
    intros [= <- <-]. apply IH in Eg as [-> Hg].
    apply span_inv in Sd as (-> & Hd & _). split.
    + simpl. by rewrite <- app_assoc.
    + change (forallb (fun c => is_digit c || is_dot c) ([c] ++ d ++ g') = true).
      rewrite !forallb_app, Hg, andb_true_r. apply andb_true_intro. split.
      * simpl. unfold is_dot. by rewrite Ec, orb_true_r.
      * eapply forallb_imp; [|exact Hd]. by intros x ->.
Qed.

(** ** The patterns, by backtracking *)

Section Backtracking.

Context {R : Type}.
Variable whole : text.

Lemma backtrack_cat r1 r2 s caps (k : text -> captures -> option R) :
  backtrack whole (Cat r1 r2) s caps k
  = backtrack whole r1 s caps (fun s' caps' => backtrack whole r2 s' caps' k).
Proof. done. Qed.

Lemma backtrack_class f s caps (k : text -> captures -> option R) :
  backtrack whole (Class f) s caps k
  = match s with
    | x :: s' => if f x then k s' caps else None
    | [] => None
    end.
Proof. done. Qed.

Lemma backtrack_chr c s caps (k : text -> captures -> option R) :
  backtrack whole (Chr c) s caps k
  = match s with
    | x :: s' => if Ascii.eqb x c then k s' caps else None
    | [] => None
    end.
Proof. done. Qed.

Lemma backtrack_group n r s caps (k : text -> captures -> option R) :
  backtrack whole (Group n r) s caps k
  = backtrack whole r s caps
      (fun s' caps' => k s' ((n, take (length s - length s') s) :: caps')).
Proof. done. Qed.

Lemma backtrack_bol s caps (k : text -> captures -> option R) :
  backtrack whole Bol s caps k
  = if (length s =? length whole)%nat then k s caps else None.
Proof. done. Qed.

Lemma backtrack_star r s caps (k : text -> captures -> option R) :
  backtrack whole (Star r) s caps k
  = star_loop (backtrack whole r) k (length s) s caps.
Proof. done. Qed.

Lemma star_loop_class f (k : text -> captures -> option R) fuel a b caps :
  forallb f a = true -> stops f b -> (length (a ++ b) <= fuel)%nat ->
  star_loop (backtrack whole (Class f)) k fuel (a ++ b) caps = give_back k caps a b.
Proof.
  revert fuel. induction a as [|x a IH]; intros fuel Ha Hb Hf.
  - simpl. destruct fuel; [done|]. simpl. destruct b as [|y b]; [done|].
    simpl in Hb. by rewrite Hb.
  - simpl in Ha. apply andb_prop in Ha as [Hx Ha].
    destruct fuel as [|fuel]; [simpl in Hf; lia|].
    simpl. rewrite Hx.
    assert ((length (a ++ b) <? S (length (a ++ b)))%nat = true) as ->
      by (apply Nat.ltb_lt; lia).
    rewrite IH; [done|done|done|simpl in Hf; lia].
Qed.

Lemma give_back_first (k : text -> captures -> option R) caps a b r :
  k b caps = Some r -> give_back k caps a b = Some r.
Proof. intros H. induction a as [|x a IH]; simpl; [done|]. by rewrite IH. Qed.

Lemma give_back_fail (k : text -> captures -> option R) caps a b :
  (forall x t, k (x :: t ++ b) caps = None) -> give_back k caps a b = k b caps.
Proof.
  intros H. induction a as [|x a IH]; simpl; [done|].
  rewrite IH. destruct (k b caps); [done|]. apply H.
Qed.

(** A greedy run whose continuation fails on every text that starts with
    a character of the class takes the longest run. *)
Lemma star_class_det f (k : text -> captures -> option R) s caps :
  (forall x t c, f x = true -> k (x :: t) c = None) ->
  backtrack whole (Star (Class f)) s caps k = k (span f s).2 caps.
Proof.
  intros H. pose proof (span_eq f s) as E. pose proof (span_all f s) as Ha.
  pose proof (span_stops f s) as Hb.
  destruct (span f s) as [a b]. cbn [fst snd] in *. subst s.
  rewrite backtrack_star, star_loop_class by done.
  clear Hb. induction a as [|x a IH]; simpl; [done|].
  simpl in Ha. apply andb_prop in Ha as [Hx Ha]. rewrite IH by done.
  destruct (k b caps); [done|]. by apply H.
Qed.

Lemma plus_class_det f (k : text -> captures -> option R) s caps :
  (forall x t c, f x = true -> k (x :: t) c = None) ->
  backtrack whole (Plus (Class f)) s caps k
  = if is_nil (span f s).1 then None else k (span f s).2 caps.
Proof.
  intros H. unfold Plus. rewrite backtrack_cat, backtrack_class.
  destruct s as [|x s]; [done|]. simpl span.
  destruct (f x); [|done]. rewrite star_class_det by done.
  by destruct (span f s).
Qed.

End Backtracking.

Lemma take_app_sub {A} (a b : list A) :
  take (length (a ++ b) - length b) (a ++ b) = a.
Proof.
  rewrite length_app. replace (length a + length b - length b)%nat with (length a) by lia.
  by rewrite take_app_length.
Qed.

(** The deterministic matcher of the placeholder pattern is the
    backtracking matcher on the pattern. *)
Lemma match_placeholder_backtrack s : match_placeholder s = match_placeholder_det s.
Proof.
  symmetry.
  unfold match_placeholder, re_match, placeholder_pattern, match_placeholder_det.
  rewrite backtrack_cat, backtrack_chr.
  destruct s as [|c1 s]; [done|].
  change (Ascii.eqb c1 "{") with (is_lbrace c1).
  destruct (is_lbrace c1) eqn:E1; [|by destruct s].
  rewrite backtrack_cat, backtrack_chr.
  destruct s as [|c2 r]; [done|].
  change (Ascii.eqb c2 "{") with (is_lbrace c2).
  destruct (is_lbrace c2) eqn:E2; [|done]. cbn [andb].
  rewrite backtrack_cat, star_class_det.
  2:{ intros x t c Hx. rewrite backtrack_cat, backtrack_group.
      unfold Plus. rewrite backtrack_cat, backtrack_class.
      by rewrite (space_not_digit x Hx). }
  pose proof (span_eq is_space r) as Er.
  destruct (span is_space r) as [w1 r1]. cbn [fst snd] in *.
  rewrite backtrack_cat, backtrack_group, plus_class_det.
  2:{ intros x t c Hx. rewrite backtrack_cat, star_class_det.
      - simpl span. rewrite (digit_not_space x Hx). cbn [snd].
        rewrite backtrack_cat, backtrack_chr.
        destruct (Ascii.eqb x "}") eqn:E; [|done].
        apply Ascii.eqb_eq in E. by subst x.
      - intros y u c' Hy. rewrite backtrack_cat, backtrack_chr.
        destruct (Ascii.eqb y "}") eqn:E; [|done].
        apply Ascii.eqb_eq in E. by subst y. }
  pose proof (span_eq is_digit r1) as Er1.
  destruct (span is_digit r1) as [d r2]. cbn [fst snd] in *.
  destruct (is_nil d) eqn:Hd; [done|].
  rewrite backtrack_cat, star_class_det.
  2:{ intros y u c' Hy. rewrite backtrack_cat, backtrack_chr.
      destruct (Ascii.eqb y "}") eqn:E; [|done].
      apply Ascii.eqb_eq in E. by subst y. }
  pose proof (span_eq is_space r2) as Er2.
  destruct (span is_space r2) as [w2 r3]. cbn [fst snd] in *.
  rewrite backtrack_cat, backtrack_chr.
  destruct r3 as [|c3 r3]; [done|].
  change (Ascii.eqb c3 "}") with (is_rbrace c3).
  destruct (is_rbrace c3) eqn:E3; [|by destruct r3].
  rewrite backtrack_chr. destruct r3 as [|c4 rest]; [done|].
  change (Ascii.eqb c4 "}") with (is_rbrace c4).
  destruct (is_rbrace c4) eqn:E4; [|done]. cbn [andb].
  subst r r1 r2.
  replace (c1 :: c2 :: w1 ++ d ++ w2 ++ c3 :: c4 :: rest)
    with ((c1 :: c2 :: w1 ++ d ++ w2 ++ [c3; c4]) ++ rest)
    by (simpl; by rewrite <- !app_assoc).
  rewrite !take_app_sub. unfold group. by simpl.
Qed.

Section BacktrackingNumbering.

Context {R : Type}.
Variable whole : text.

Lemma dotted_groups_other fuel x t :
  Ascii.eqb x "." = false -> dotted_groups fuel (x :: t) = ([], x :: t).
Proof. intros H. destruct fuel; simpl; [done|]. by rewrite H. Qed.

(** The greedy repetition of "dot, digits" takes the groups
    [dotted_groups] takes, when what follows the repetition in the pattern
    fails on a text that starts with a dot or a digit. *)
Lemma star_dotted (k : text -> captures -> option R) fuel s caps :
  (forall x t c, is_digit x = true \/ Ascii.eqb x "." = true -> k (x :: t) c = None) ->
  (length s <= fuel)%nat ->
  star_loop (backtrack whole (Cat (Chr ".") (Plus (Class is_digit)))) k fuel s caps
  = k (dotted_groups fuel s).2 caps.
Proof.
  intros Hk. revert s caps. induction fuel as [|fuel IH]; intros s caps Hf; [done|].
  cbn [star_loop dotted_groups]. rewrite backtrack_cat, backtrack_chr.
  destruct s as [|c s]; [done|].
  destruct (Ascii.eqb c ".") eqn:Ec; [|done].
  rewrite plus_class_det.
  2:{ intros x t c' Hx.
      destruct (length (x :: t) <? length (c :: s))%nat eqn:El; [|done].
      apply Nat.ltb_lt in El. simpl in Hf, El. rewrite IH by (simpl; lia).
      rewrite dotted_groups_other; [by apply Hk; left|].
      destruct (Ascii.eqb x ".") eqn:E; [|done].
      apply Ascii.eqb_eq in E. by subst x. }
  pose proof (span_eq is_digit s) as Es.
  destruct (span is_digit s) as [d r]. cbn [fst snd] in *.
  destruct (is_nil d) eqn:Hd; [done|].
  assert ((length r <? length (c :: s))%nat = true) as ->.
  { apply Nat.ltb_lt. rewrite <- Es, length_cons, length_app. lia. }
  rewrite IH.
  2:{ simpl in Hf. rewrite <- Es, length_app in Hf. lia. }
  destruct (dotted_groups fuel r) as [g r']. cbn [snd].
  destruct (k r' caps) eqn:Ek; [done|]. apply Hk. by right.
Qed.

Lemma span_snd_length {A} (f : A -> bool) (u r : list A) :
  (length (span f r).2 <= length (span f (u ++ r)).2)%nat.
Proof.
  induction u as [|x u IH]; [done|]. simpl.
  destruct (f x).
  - by destruct (span f (u ++ r)).
  - simpl. rewrite length_app. pose proof (span_eq f r) as E.
    apply (f_equal length) in E. rewrite length_app in E. lia.
Qed.

End BacktrackingNumbering.

(** What the tail of the numbering pattern, group 2 and [$], gives. *)
Lemma backtrack_rest_of_line whole s caps :
  backtrack whole (Cat (Group 2 (Star (Class any_char))) Eol) s caps
    (fun s' caps' => Some (caps', s'))
  = match match_rest_of_line s with
    | Some body => Some ((2%nat, body) :: caps, (span any_char s).2)
    | None => None
    end.
Proof.
  rewrite backtrack_cat, backtrack_group, star_class_det.
  2:{ intros x t c Hx. simpl. destruct t; [|done].
      unfold any_char in Hx. by destruct (is_newline x). }
  unfold match_rest_of_line. fold any_char.
  pose proof (span_eq any_char s) as E. pose proof (span_stops any_char s) as Hs.
  destruct (span any_char s) as [body tl]. cbn [fst snd] in *. subst s.
  rewrite take_app_sub. simpl.
  destruct tl as [|c [|c' tl]]; [done| |done].
  simpl in Hs. unfold any_char in Hs. by destruct (is_newline c).
Qed.

(** The deterministic matcher of the numbering pattern is the
    backtracking matcher on the pattern. *)
Lemma match_numbering_backtrack s : match_numbering s = match_numbering_det s.
Proof.
  symmetry.
  unfold match_numbering, re_match, numbering_pattern, match_numbering_det.
  rewrite backtrack_cat, backtrack_bol, Nat.eqb_refl.
  rewrite backtrack_cat, backtrack_group, backtrack_cat.
  set (after := fun (s' : text) (caps' : captures) =>
         backtrack s (Cat (Group 2 (Star (Class any_char))) Eol) s'
           ((1%nat, take (length s - length s') s) :: caps')
           (fun s'' caps'' => Some (caps'', s''))).
  set (spaces := fun (s' : text) (caps' : captures) =>
         backtrack s (Plus (Class is_space)) s' caps' after).
  assert (forall x t c, is_space x = false -> spaces (x :: t) c = None) as Hsp.
  { intros x t c Hx. unfold spaces, Plus.
    by rewrite backtrack_cat, backtrack_class, Hx. }
  rewrite plus_class_det.
  2:{ intros x t c Hx. rewrite backtrack_cat, backtrack_star, star_dotted.
      - rewrite dotted_groups_other.
        + apply Hsp. by apply digit_not_space.
        + destruct (Ascii.eqb x ".") eqn:E; [|done].
          apply Ascii.eqb_eq in E. by subst x.
      - intros y u c' [Hy|Hy]; apply Hsp; [by apply digit_not_space|].
        apply Ascii.eqb_eq in Hy. by subst y.
      - done. }
  pose proof (span_eq is_digit s) as Es.
  destruct (span is_digit s) as [d r]. cbn [fst snd] in *.
  destruct (is_nil d) eqn:Hd; [done|].
  rewrite backtrack_cat, backtrack_star, star_dotted.
  2:{ intros y u c' [Hy|Hy]; apply Hsp; [by apply digit_not_space|].
      apply Ascii.eqb_eq in Hy. by subst y. }
  2:{ done. }
  pose proof (dotted_groups_inv (length r) r) as Eg.
  destruct (dotted_groups (length r) r) as [g r1]. cbn [snd].
  destruct (Eg g r1 eq_refl) as [Er _]. clear Eg.
  unfold Plus. rewrite backtrack_cat, backtrack_class.
  destruct r1 as [|x r1]; [done|]. simpl span.
  destruct (is_space x) eqn:Hx; [|done].
  pose proof (span_eq is_space r1) as Er1.
  pose proof (span_all is_space r1) as Hw. pose proof (span_stops is_space r1) as Hst.
  destruct (span is_space r1) as [w r2]. cbn [fst snd] in *. cbn [is_nil].
  rewrite backtrack_star. rewrite <- Er1 at 1 2.
  rewrite star_loop_class by done.
  assert (forall t, after t [] =
            match match_rest_of_line t with
            | Some body => Some ([(2%nat, body); (1%nat, take (length s - length t) s)],
                                 (span any_char t).2)
            | None => None
            end) as Hafter.
  { intros t. unfold after. apply backtrack_rest_of_line. }
  destruct (match_rest_of_line r2) as [body|] eqn:Em.
  - assert (after r2 [] = Some ([(2%nat, body); (1%nat, take (length s - length r2) s)],
                                 (span any_char r2).2)) as Ha
      by (by rewrite Hafter, Em).
    rewrite (give_back_first after [] w r2 _ Ha).
    unfold group. simpl. subst s r r1.
    replace (d ++ g ++ x :: w ++ r2) with ((d ++ g ++ x :: w) ++ r2)
      by (by rewrite <- !app_assoc).
    by rewrite take_app_sub.
  - rewrite give_back_fail.
    + by rewrite Hafter, Em.
    + intros y t. rewrite Hafter. unfold match_rest_of_line in *. fold any_char in *.
      pose proof (span_snd_length any_char (y :: t) r2) as Hl.
      change ((y :: t) ++ r2) with (y :: t ++ r2) in Hl.
      destruct (span any_char r2) as [b1 t1].
      destruct (span any_char (y :: t ++ r2)) as [b2 t2]. cbn [snd] in Hl.
      destruct t1 as [|? [|? ?]]; [done|done|].
      destruct t2 as [|? [|? ?]]; simpl in Hl; [lia|lia|done].
Qed.

(** ** Decimal numerals *)

Lemma uint_digits d :
  forallb is_digit (list_ascii_of_string (NilEmpty.string_of_uint d)) = true.
Proof. induction d; simpl; auto. Qed.

Lemma str_of_int_digits n : 0 <= n -> forallb is_digit (str_of_int n) = true.
Proof.
  intros Hn. unfold str_of_int. destruct n as [|p|p]; [done| |lia].
  simpl. destruct (Pos.to_uint p); [done|..]; apply uint_digits.
Qed.

Lemma str_of_int_nonempty n : str_of_int n <> [].
Proof.
  unfold str_of_int. destruct n as [|p|p]; [done|..]; simpl.
  - pose proof (DecimalPos.Unsigned.to_uint_nonnil p).
    by destruct (Pos.to_uint p).
  - done.
Qed.

(** [int(str(n)) == n]. *)
Lemma int_of_text_str n : int_of_text (str_of_int n) = n.
Proof.
  unfold int_of_text, str_of_int.
  rewrite string_of_list_ascii_of_string, NilZero.isi.
  - apply DecimalZ.of_to.
  - destruct n; simpl; [done| |done].
    intros [= H]. by apply DecimalPos.Unsigned.to_uint_nonnil in H.
  - destruct n; simpl; [done|done|].
    intros [= H]. by apply DecimalPos.Unsigned.to_uint_nonnil in H.
Qed.

(** [str] of distinct integers are distinct. *)
Lemma str_of_int_inj n m : str_of_int n = str_of_int m -> n = m.
Proof.
  intros H. rewrite <- (int_of_text_str n), <- (int_of_text_str m). by rewrite H.
Qed.

(** ** The text primitives on examples *)

Example ex_strip : strip (str "  a b
 ") = str "a b".
Proof. reflexivity. Qed.

Example ex_placeholder : placeholder 12 = str "{{ 12 }}".
Proof. reflexivity. Qed.

Example ex_numbering :
  match_numbering (str "2.1 Introduction") = Some (str "2.1 ", str "Introduction").
Proof. reflexivity. Qed.

Example ex_numbering_dot : match_numbering (str "1. Title") = None.
Proof. reflexivity. Qed.

Example ex_match_placeholder :
  match_placeholder (str "{{ 07  }}x") = Some (str "{{ 07  }}", str "07", str "x").
Proof. reflexivity. Qed.

Example ex_int : int_of_text (str "007") = 7.
Proof. reflexivity. Qed.

(** ** The placeholder pattern *)

Lemma stops_digit_after (w2 r : text) c :
  forallb is_space w2 = true -> is_digit c = false -> stops is_digit (w2 ++ c :: r).
Proof.
  destruct w2 as [|x w2]; simpl; [done|].
  intros [Hx _]%andb_prop _. by apply space_not_digit.
Qed.

Lemma match_placeholder_intro g0 g1 rest :
  token_shape g0 g1 -> match_placeholder (g0 ++ rest) = Some (g0, g1, rest).
Proof.
  intros (w1 & w2 & -> & Hw1 & Hg1 & Hne & Hw2).
  rewrite match_placeholder_backtrack. unfold match_placeholder_det. simpl.
  rewrite <- !app_assoc.
  rewrite (span_app is_space w1); [|done|].
  2:{ destruct g1 as [|d g1]; [done|]. simpl in *.
      apply andb_prop in Hg1 as [Hd _]. by apply digit_not_space. }
  rewrite (span_app is_digit g1); [|done|].
  2:{ simpl. by apply stops_digit_after. }
  destruct g1 as [|d g1]; [done|]. simpl is_nil. cbv iota.
  rewrite (span_app is_space w2); [|done|done].
  simpl. done.
Qed.

Lemma match_placeholder_elim s g0 g1 rest :
  match_placeholder s = Some (g0, g1, rest) -> s = g0 ++ rest /\ token_shape g0 g1.
Proof.
  rewrite match_placeholder_backtrack. unfold match_placeholder_det.
  destruct s as [|c1 [|c2 r]]; [done|done|].
  destruct (is_lbrace c1) eqn:E1; [|done].
  destruct (is_lbrace c2) eqn:E2; [|done]. simpl.
  apply is_lbrace_eq in E1 as ->. apply is_lbrace_eq in E2 as ->.
  destruct (span is_space r) as [w1 r1] eqn:S1.
  destruct (span is_digit r1) as [d r2] eqn:S2.
  destruct (is_nil d) eqn:Hd; [done|].
  destruct (span is_space r2) as [w2 r3] eqn:S3.
  destruct r3 as [|c3 [|c4 rest']]; [done|done|].
  destruct (is_rbrace c3) eqn:E3; [|done].
  destruct (is_rbrace c4) eqn:E4; [|done]. simpl.
  apply is_rbrace_eq in E3 as ->. apply is_rbrace_eq in E4 as ->.
  intros [= <- <- <-].
  apply span_inv in S1 as (-> & Hw1 & _).
  apply span_inv in S2 as (-> & Hd1 & _).
  apply span_inv in S3 as (-> & Hw2 & _).
  split.
  - simpl. by rewrite <- !app_assoc.
  - exists w1, w2. repeat split; try done. by apply is_nil_false.
Qed.

Lemma match_placeholder_spec s g0 g1 rest :
  match_placeholder s = Some (g0, g1, rest) <-> s = g0 ++ rest /\ token_shape g0 g1.
Proof.
  split; [apply match_placeholder_elim|].
  intros [-> H]. by apply match_placeholder_intro.
Qed.

(** A token written by extraction is matched, and decodes to its number. *)
Lemma placeholder_shape n : 0 <= n -> token_shape (placeholder n) (str_of_int n).
Proof.
  intros Hn. exists (str " "), (str " "). unfold placeholder.
  repeat split; try done.
  - by apply str_of_int_digits.
  - apply str_of_int_nonempty.
Qed.

Lemma match_placeholder_placeholder n rest :
  0 <= n ->
  match_placeholder (placeholder n ++ rest) = Some (placeholder n, str_of_int n, rest).
Proof. intros. by apply match_placeholder_intro, placeholder_shape. Qed.

(** ** The scanning replacement *)

Section Scan.

Variable m : text -> option (text * text).
Hypothesis m_consuming : consuming m.

Lemma scan_fuel_enough n k s :
  (length s <= n)%nat -> (length s <= k)%nat -> scan_fuel n m s = scan_fuel k m s.
Proof.
  revert k s. induction n as [|n IH]; intros k s Hn Hk.
  - destruct s; [|simpl in Hn; lia]. by destruct k.
  - destruct k as [|k]; [destruct s; [done|simpl in Hk; lia]|].
    destruct s as [|c s]; [done|]. simpl.
    destruct (m (c :: s)) as [[out rest]|] eqn:E.
    + apply m_consuming in E. simpl in *. f_equal. apply IH; lia.
    + f_equal. simpl in *. apply IH; lia.
Qed.

Lemma scan_nil : scan m [] = [].
Proof. done. Qed.

(** The walk, one step at a time. *)
Lemma scan_cons c s :
  scan m (c :: s) =
  match m (c :: s) with
  | Some (out, rest) => out ++ scan m rest
  | None => c :: scan m s
  end.
Proof.
  unfold scan. simpl.
  destruct (m (c :: s)) as [[out rest]|] eqn:E; [|done].
  apply m_consuming in E. simpl in E. f_equal. apply scan_fuel_enough; lia.
Qed.

Lemma scan_match s out rest : m s = Some (out, rest) -> scan m s = out ++ scan m rest.
Proof.
  intros E. destruct s as [|c s].
  - apply m_consuming in E. simpl in E. lia.
  - by rewrite scan_cons, E.
Qed.

(** A stretch in which the matcher fails everywhere is copied. *)
Lemma scan_copy u v :
  (forall u1 u2 c, u = u1 ++ c :: u2 -> m (c :: u2 ++ v) = None) ->
  scan m (u ++ v) = u ++ scan m v.
Proof.
  induction u as [|c u IH]; intros H; [done|].
  simpl. rewrite scan_cons, (H [] u c); [|done].
  f_equal. apply IH. intros u1 u2 c' ->. by apply (H (c :: u1)).
Qed.

(** If what follows, [y], can neither complete nor spoil a match that
    starts before it, the walk over [pre ++ y] is the walk over [pre]
    followed by the walk over [y]. *)
Lemma scan_app pre y :
  (forall p out r, m p = Some (out, r) -> m (p ++ y) = Some (out, r ++ y)) ->
  (forall p, p <> [] -> m p = None -> m (p ++ y) = None) ->
  scan m (pre ++ y) = scan m pre ++ scan m y.
Proof.
  intros H1 H2.
  induction pre as [pre IH] using (induction_ltof1 _ (@length ascii)).
  unfold ltof in IH.
  destruct pre as [|c p]; [done|].
  destruct (m (c :: p)) as [[out r]|] eqn:E.
  - rewrite (scan_match (c :: p) out r E), (scan_match _ out (r ++ y) (H1 _ _ _ E)).
    rewrite IH; [by rewrite app_assoc|]. by apply m_consuming in E.
  - pose proof (H2 (c :: p) ltac:(done) E) as E2. simpl in E2.
    rewrite (scan_cons c p), E. simpl. rewrite scan_cons, E2.
    f_equal. apply IH. simpl. lia.
Qed.

End Scan.

Lemma sub_matcher_consuming repl : consuming (sub_matcher repl).
Proof.
  intros s out rest. unfold sub_matcher.
  destruct (match_placeholder s) as [[[g0 g1] r]|] eqn:E; [|done].
  intros [= <- <-]. apply match_placeholder_elim in E as [-> (w1 & w2 & -> & _)].
  rewrite length_app. simpl. lia.
Qed.

Lemma starts_with_spec old s : starts_with old s = true <-> exists r, s = old ++ r.
Proof.
  revert s. induction old as [|a old IH]; intros s; simpl.
  - split; [by exists s|done].
  - destruct s as [|b s]; [split; [done|by intros [r ?]]|].
    destruct (ascii_dec a b) as [->|Hne].
    + rewrite IH. split; intros [r Hr]; exists r; [by rewrite Hr|by injection Hr].
    + split; [done|]. intros [r [= ? ?]]. done.
Qed.

Lemma replace_matcher_consuming old new : old <> [] -> consuming (replace_matcher old new).
Proof.
  intros Hne s out rest. unfold replace_matcher.
  destruct (starts_with old s) eqn:E; [|done].
  intros [= <- <-]. apply starts_with_spec in E as [r ->].
  rewrite drop_app_length. rewrite length_app. destruct old; [done|simpl; lia].
Qed.

(** ** Tokens do not overlap *)

Lemma no_lbrace_app a b : no_lbrace a -> no_lbrace b -> no_lbrace (a ++ b).
Proof. unfold no_lbrace. rewrite forallb_app. by intros -> ->. Qed.

Lemma no_lbrace_spaces w : forallb is_space w = true -> no_lbrace w.
Proof.
  apply forallb_imp. intros c Hc. by rewrite (space_not_lbrace c Hc).
Qed.

Lemma no_lbrace_digits d : forallb is_digit d = true -> no_lbrace d.
Proof.
  apply forallb_imp. intros c Hc. by rewrite (digit_not_lbrace c Hc).
Qed.

Lemma no_lbrace_middle a c b : no_lbrace (a ++ c :: b) -> is_lbrace c = false.
Proof.
  unfold no_lbrace. rewrite forallb_app. simpl.
  intros [_ [Hc _]%andb_prop]%andb_prop. by destruct (is_lbrace c).
Qed.

Lemma str_of_int_no_lbrace n : no_lbrace (str_of_int n).
Proof.
  destruct (Z_lt_le_dec n 0) as [Hn|Hn].
  - unfold str_of_int. destruct n as [|p|p]; [lia|lia|]. simpl.
    unfold no_lbrace. simpl.
    destruct (Pos.to_uint p); [done|..];
      apply (no_lbrace_digits (list_ascii_of_string (NilEmpty.string_of_uint _))),
            uint_digits.
  - by apply no_lbrace_digits, str_of_int_digits.
Qed.

Lemma token_shape_braced g0 g1 : token_shape g0 g1 -> braced g0.
Proof.
  intros (w1 & w2 & -> & Hw1 & Hg1 & Hne & Hw2).
  exists (w1 ++ g1 ++ w2 ++ str "}}"). split; [done|]. split.
  - destruct w1; [|done]. by destruct g1.
  - repeat apply no_lbrace_app; try done;
      [by apply no_lbrace_spaces|by apply no_lbrace_digits|by apply no_lbrace_spaces].
Qed.

Lemma placeholder_braced n : braced (placeholder n).
Proof.
  exists (str " " ++ str_of_int n ++ str " }}"). split; [done|]. split; [done|].
  repeat apply no_lbrace_app; try done. apply str_of_int_no_lbrace.
Qed.

(** A token that begins before the start of another one ends before it. *)
Lemma no_straddle tok p y r :
  braced tok -> p <> [] ->
  p ++ str "{{" ++ y = tok ++ r -> exists r', p = tok ++ r'.
Proof.
  intros (body & -> & Hne & Hb) Hp E.
  apply app_eq_app in E as [l [[-> _]|[E1 E2]]]; [by exists l|].
  destruct l as [|c l]; [exists []; rewrite app_nil_r in E1 |- *; by symmetry|exfalso].
  simpl in E2. injection E2 as <- E2.
  destruct p as [|c1 p]; [done|]. simpl in E1. injection E1 as <- E1.
  destruct p as [|c2 p]; simpl in E1.
  - injection E1 as E1. subst l. destruct body as [|b body]; [done|].
    simpl in E2. injection E2 as <- E2. by simpl in Hb.
  - injection E1 as <- E1. subst body. by apply no_lbrace_middle in Hb.
Qed.

(** ** [re.sub] splits at a token *)

Lemma sub_matcher_extend repl p y out r :
  sub_matcher repl p = Some (out, r) -> sub_matcher repl (p ++ y) = Some (out, r ++ y).
Proof.
  unfold sub_matcher.
  destruct (match_placeholder p) as [[[g0 g1] r0]|] eqn:E; [|done].
  intros [= <- <-]. apply match_placeholder_elim in E as [-> Hs].
  by rewrite <- app_assoc, (match_placeholder_intro g0 g1).
Qed.

Lemma match_placeholder_blocked p y :
  p <> [] -> match_placeholder p = None -> match_placeholder (p ++ str "{{" ++ y) = None.
Proof.
  intros Hp Hn.
  destruct (match_placeholder (p ++ str "{{" ++ y)) as [[[g0 g1] r]|] eqn:E; [|done].
  apply match_placeholder_elim in E as [E Hs].
  apply no_straddle in E as [r' ->]; [|by eapply token_shape_braced|done].
  by rewrite (match_placeholder_intro g0 g1) in Hn.
Qed.

Lemma re_sub_app_braces repl pre y :
  re_sub repl (pre ++ str "{{" ++ y) = re_sub repl pre ++ re_sub repl (str "{{" ++ y).
Proof.
  apply scan_app.
  - apply sub_matcher_consuming.
  - intros p out r. apply sub_matcher_extend.
  - intros p Hp. unfold sub_matcher.
    destruct (match_placeholder p) as [[[g0 g1] r0]|] eqn:E; [done|]. intros _.
    by rewrite match_placeholder_blocked.
Qed.

(** Each token is replaced where it stands, by what [repl] gives for it;
    the text before it and the text after it are scanned on their own. *)
Lemma re_sub_token repl pre g0 g1 post :
  token_shape g0 g1 ->
  re_sub repl (pre ++ g0 ++ post)
  = re_sub repl pre ++ default [] (repl g0 g1) ++ re_sub repl post.
Proof.
  intros Hs. pose proof (token_shape_braced _ _ Hs) as (body & -> & _).
  rewrite <- (app_assoc (str "{{") body post), re_sub_app_braces. f_equal.
  rewrite (app_assoc (str "{{") body post).
  apply scan_match; [apply sub_matcher_consuming|].
  unfold sub_matcher. by rewrite (match_placeholder_intro _ g1).
Qed.

Lemma has_token_cons c s :
  has_token (c :: s)
  = match match_placeholder (c :: s) with Some _ => true | None => has_token s end.
Proof. done. Qed.

(** A text in which the pattern matches nowhere is left as it is. *)
Lemma re_sub_no_token repl s : has_token s = false -> re_sub repl s = s.
Proof.
  induction s as [|c s IH]; [done|]. rewrite has_token_cons.
  destruct (match_placeholder (c :: s)) eqn:E; [done|]. intros H.
  unfold re_sub. rewrite scan_cons; [|apply sub_matcher_consuming].
  unfold sub_matcher at 1. rewrite E. f_equal. by apply IH.
Qed.

(** ** Texts without a token *)

Arguments match_placeholder : simpl never.

Lemma match_placeholder_extend p y g0 g1 r :
  match_placeholder p = Some (g0, g1, r) ->
  match_placeholder (p ++ y) = Some (g0, g1, r ++ y).
Proof.
  intros [-> Hs]%match_placeholder_elim.
  by rewrite <- app_assoc, (match_placeholder_intro g0 g1).
Qed.

Lemma match_placeholder_lbrace c s :
  is_lbrace c = false -> match_placeholder (c :: s) = None.
Proof.
  intros H. rewrite match_placeholder_backtrack. unfold match_placeholder_det.
  destruct s; [done|]. by rewrite H.
Qed.

Lemma has_token_app a b :
  has_token (a ++ b) = false -> has_token a = false /\ has_token b = false.
Proof.
  induction a as [|c a IH]; [done|]. simpl app. rewrite !has_token_cons.
  destruct (match_placeholder (c :: a)) as [[[g0 g1] r]|] eqn:E.
  - apply (match_placeholder_extend _ b) in E. simpl in E. by rewrite E.
  - destruct (match_placeholder (c :: a ++ b)); [done|]. apply IH.
Qed.

Lemma has_token_no_lbrace a b :
  no_lbrace a -> has_token (a ++ b) = has_token b.
Proof.
  induction a as [|c a IH]; [done|]. unfold no_lbrace. intros H.
  simpl in H. apply andb_prop in H as [Hc Ha]. simpl app. rewrite has_token_cons.
  rewrite match_placeholder_lbrace; [by apply IH|]. by destruct (is_lbrace c).
Qed.

Lemma has_token_no_lbrace_nil a : no_lbrace a -> has_token a = false.
Proof. intros H. by rewrite <- (app_nil_r a), has_token_no_lbrace. Qed.

Lemma has_token_intro pre s g0 g1 rest :
  match_placeholder s = Some (g0, g1, rest) -> has_token (pre ++ s) = true.
Proof.
  intros E. induction pre as [|c pre IH].
  - destruct s as [|c s].
    + apply match_placeholder_elim in E as [E (w1 & w2 & -> & _)]. done.
    + simpl app. by rewrite has_token_cons, E.
  - simpl app. rewrite has_token_cons, IH.
    destruct (match_placeholder (c :: pre ++ s)); reflexivity.
Qed.

(** [has_token] says that some stretch of the text is matched by the
    placeholder pattern. *)
Lemma has_token_spec s :
  has_token s = true
  <-> exists pre g0 g1 post, s = pre ++ g0 ++ post /\ token_shape g0 g1.
Proof.
  split.
  - induction s as [|c s IH]; [done|]. rewrite has_token_cons.
    destruct (match_placeholder (c :: s)) as [[[g0 g1] rest]|] eqn:E.
    + intros _. apply match_placeholder_elim in E as [E Hs].
      exists [], g0, g1, rest. done.
    + intros (pre & g0 & g1 & post & -> & Hs)%IH.
      exists (c :: pre), g0, g1, post. done.
  - intros (pre & g0 & g1 & post & -> & Hs).
    eapply has_token_intro. by apply match_placeholder_intro.
Qed.

(** A text without a match of the pattern holds no token of the form
    extraction writes. *)
Lemma has_token_placeholder s n pre post :
  has_token s = false -> 0 <= n -> s <> pre ++ placeholder n ++ post.
Proof.
  intros H Hn ->. rewrite (has_token_intro pre _ _ _ _
                             (match_placeholder_placeholder n post Hn)) in H. done.
Qed.

(** ** [strip] *)

Lemma lstrip_eq s : exists w, s = w ++ lstrip s /\ forallb is_space w = true.
Proof.
  exists (span is_space s).1. split; [symmetry; apply span_eq|apply span_all].
Qed.

Lemma lstrip_stops s : stops is_space (lstrip s).
Proof. apply span_stops. Qed.

Lemma lstrip_id s : stops is_space s -> lstrip s = s.
Proof. unfold lstrip. destruct s as [|c s]; [done|]. simpl. by intros ->. Qed.

Lemma lstrip_spaces w s : forallb is_space w = true -> lstrip (w ++ s) = lstrip s.
Proof.
  induction w as [|c w IH]; [done|]. simpl. intros [Hc Hw]%andb_prop.
  unfold lstrip in *. simpl. rewrite Hc.
  specialize (IH Hw). by destruct (span is_space (w ++ s)).
Qed.

Lemma rstrip_eq s : exists w, s = rstrip s ++ w /\ forallb is_space w = true.
Proof.
  destruct (lstrip_eq (rev s)) as (w & E & Hw). exists (rev w). split.
  - unfold rstrip. rewrite <- rev_app_distr, <- E. by rewrite rev_involutive.
  - rewrite forallb_forall in *. intros c Hc. apply Hw. by apply in_rev.
Qed.

(** The trimmed text is a stretch of the text, between blanks. *)
Lemma strip_eq s :
  exists l r, s = l ++ strip s ++ r
              /\ forallb is_space l = true /\ forallb is_space r = true.
Proof.
  destruct (lstrip_eq s) as (l & E1 & Hl).
  destruct (rstrip_eq (lstrip s)) as (r & E2 & Hr).
  exists l, r. unfold strip. by rewrite <- E2.
Qed.

Lemma strip_nil_spaces s : strip s = [] <-> forallb is_space s = true.
Proof.
  split.
  - intros E. destruct (strip_eq s) as (l & r & Es & Hl & Hr).
    rewrite E in Es. rewrite Es, forallb_app. simpl. by rewrite Hl, Hr.
  - intros H. unfold strip.
    assert (lstrip s = []) as ->; [|done].
    rewrite <- (app_nil_r s), lstrip_spaces; done.
Qed.

(** A text that neither starts nor ends with a blank is its own trimming. *)
Lemma strip_id s : stops is_space s -> stops is_space (rev s) -> strip s = s.
Proof.
  intros H1 H2. unfold strip, rstrip.
  by rewrite (lstrip_id s H1), (lstrip_id _ H2), rev_involutive.
Qed.

Lemma has_token_strip s : has_token s = false -> has_token (strip s) = false.
Proof.
  destruct (strip_eq s) as (l & r & E & _). rewrite E at 1.
  intros [_ [H _]%has_token_app]%has_token_app. done.
Qed.

Lemma has_token_blank s : strip s = [] -> has_token s = false.
Proof.
  intros H%strip_nil_spaces. by apply has_token_no_lbrace_nil, no_lbrace_spaces.
Qed.

(** ** The numbering pattern *)

(** Group 1 starts with a digit, and consists of digits, dots and blanks. *)
Lemma match_numbering_inv s number_part content :
  match_numbering s = Some (number_part, content) ->
  (exists c t, number_part = c :: t /\ is_digit c = true)
  /\ no_lbrace number_part
  /\ exists tail, s = number_part ++ content ++ tail.
Proof.
  rewrite match_numbering_backtrack. unfold match_numbering_det.
  destruct (span is_digit s) as [d r] eqn:Sd.
  destruct d as [|c d]; [done|]. simpl is_nil. cbv iota.
  destruct (dotted_groups (length r) r) as [g r1] eqn:Eg.
  destruct (span is_space r1) as [w r2] eqn:Sw.
  destruct (is_nil w); [done|].
  unfold match_rest_of_line.
  destruct (span (fun c => negb (is_newline c)) r2) as [body tl] eqn:Sb.
  apply span_inv in Sd as (-> & Hd & _).
  apply dotted_groups_inv in Eg as [-> Hg].
  apply span_inv in Sw as (-> & Hw & _).
  apply span_inv in Sb as (-> & _ & _).
  assert (no_lbrace ((c :: d) ++ g ++ w)) as Hnl.
  { repeat apply no_lbrace_app.
    - by apply no_lbrace_digits.
    - eapply forallb_imp; [|exact Hg]. intros x Hx.
      destruct (is_lbrace x) eqn:E; [|done]. apply is_lbrace_eq in E as ->. done.
    - by apply no_lbrace_spaces. }
  simpl in Hd. apply andb_prop in Hd as [Hc _].
  destruct tl as [|n [|n' tl]]; [| |done]; intros [= <- <-].
  - split; [by exists c, (d ++ g ++ w)|]. split; [done|].
    exists []. simpl. f_equal. by rewrite <- !app_assoc.
  - split; [by exists c, (d ++ g ++ w)|]. split; [done|].
    exists [n]. simpl. f_equal. by rewrite <- !app_assoc.
Qed.

(** ** The store *)

Lemma deref_insert (h : gmap nat Paragraph) p x : deref (<[p := x]> h) p = x.
Proof. unfold deref. by rewrite lookup_insert_eq. Qed.

Lemma deref_insert_ne (h : gmap nat Paragraph) p q x :
  p <> q -> deref (<[p := x]> h) q = deref h q.
Proof. intros. unfold deref. by rewrite lookup_insert_ne. Qed.

Lemma foldl_concat {A B} (f : A -> B -> A) (a : A) (ls : list (list B)) :
  foldl f a (concat ls) = foldl (fun a l => foldl f a l) a ls.
Proof.
  revert a. induction ls as [|l ls IH]; intros a; simpl; [done|].
  by rewrite foldl_app, IH.
Qed.

(** ** Rewriting a paragraph (top-level service) *)

Lemma root_rewrite_runs para t :
  runs (Root.rewrite_paragraph para t)
  = [ {| run_text := t; run_font := Root.styled_font (Root.capture_style para) |} ].
Proof. done. Qed.

Lemma root_rewrite_text para t : paragraph_text (Root.rewrite_paragraph para t) = t.
Proof. unfold paragraph_text. simpl. apply app_nil_r. Qed.

(** ** Template texts *)

Lemma placeholder_last n : exists t, rev (placeholder n) = "}"%char :: t.
Proof.
  unfold placeholder. rewrite !rev_app_distr. simpl. eauto.
Qed.

Lemma template_text_strip m t : template_text m t -> strip t = t.
Proof.
  intros (np & -> & _ & Hs). apply strip_id.
  - destruct np; [done|]. done.
  - rewrite rev_app_distr. destruct (placeholder_last m) as [t ->]. done.
Qed.

Lemma template_text_nonempty m t : template_text m t -> t <> [].
Proof. intros (np & -> & _). unfold placeholder. by destruct np. Qed.

(** Reassembly of a template text: the prefix stays, the token gives way
    to what [repl] returns for it. *)
Lemma re_sub_template repl m t :
  0 <= m -> template_text m t ->
  exists number_part,
    t = number_part ++ placeholder m /\ no_lbrace number_part
    /\ re_sub repl t
       = number_part ++ default [] (repl (placeholder m) (str_of_int m)).
Proof.
  intros Hm (np & -> & Hnl & _). exists np. split; [done|]. split; [done|].
  rewrite <- (app_nil_r (placeholder m)) at 1.
  rewrite (re_sub_token repl np (placeholder m) (str_of_int m) []);
    [|by apply placeholder_shape].
  rewrite (re_sub_no_token repl np); [|by apply has_token_no_lbrace_nil].
  by rewrite app_nil_r.
Qed.

(** ** One paragraph of extraction *)

Lemma root_process_paragraph_blank p k h its :
  blank h p = true -> Root.process_paragraph p k (h, its) = (k, (h, its)).
Proof.
  unfold blank, text_at, Root.process_paragraph. by intros ->.
Qed.

Lemma root_process_paragraph_text p k h its :
  blank h p = false ->
  exists content new_text,
    Root.process_paragraph p k (h, its)
    = (k + 1,
       (<[p := Root.rewrite_paragraph (deref h p) new_text]> h,
        its ++ [ {| placeholder_number := k; original_content := content;
                    translate_content := None |} ]))
    /\ template_text k new_text.
Proof.
  unfold blank, text_at, Root.process_paragraph. intros ->.
  destruct (match_numbering (strip (paragraph_text (deref h p))))
    as [[np content]|] eqn:E.
  - exists content, (np ++ placeholder k). split; [done|].
    apply match_numbering_inv in E as ((c & t & -> & Hc) & Hnl & _).
    exists (c :: t). split; [done|]. split; [done|].
    simpl. by apply digit_not_space.
  - exists (strip (paragraph_text (deref h p))), (placeholder k). split; [done|].
    by exists [].
Qed.

(** ** Numbering (top-level service) *)

Lemma root_process_paragraph_result p k h its :
  Root.process_paragraph p k (h, its)
  = if blank h p then (k, (h, its))
    else (k + 1,
          ((Root.process_paragraph p k (h, its)).2.1,
           its ++ [ {| placeholder_number := k;
                       original_content := content_of (strip (text_at h p));
                       translate_content := None |} ])).
Proof.
  unfold blank, text_at, content_of, Root.process_paragraph.
  destruct (is_nil (strip (paragraph_text (deref h p)))); [done|].
  by destruct (match_numbering (strip (paragraph_text (deref h p)))) as [[??]|].
Qed.

(** A paragraph with text still has text after extraction has visited
    any paragraph, and one without text stays without. *)
Lemma root_process_paragraph_keeps_blank p k h its q :
  blank (Root.process_paragraph p k (h, its)).2.1 q = blank h q.
Proof.
  destruct (blank h p) eqn:Hb.
  - by rewrite root_process_paragraph_blank.
  - destruct (root_process_paragraph_text p k h its Hb) as (c & t & -> & Ht).
    simpl. destruct (decide (p = q)) as [<-|Hne].
    + rewrite Hb. unfold blank, text_at. rewrite deref_insert, root_rewrite_text.
      rewrite (template_text_strip _ _ Ht). apply is_nil_false.
      by eapply template_text_nonempty.
    + unfold blank, text_at. by rewrite deref_insert_ne.
Qed.

Lemma count_with_text_ext h h' ps :
  (forall q, blank h' q = blank h q) -> count_with_text h' ps = count_with_text h ps.
Proof.
  intros H. unfold count_with_text. do 2 f_equal.
  apply List.filter_ext. intros q. by rewrite H.
Qed.

Lemma count_with_text_cons h p ps :
  count_with_text h (p :: ps)
  = (if blank h p then 0 else 1) + count_with_text h ps.
Proof. unfold count_with_text. simpl. destruct (blank h p); simpl; lia. Qed.

Lemma count_with_text_nonneg h ps : 0 <= count_with_text h ps.
Proof. unfold count_with_text. lia. Qed.

Lemma root_process_paragraphs_cons p ps acc :
  Root.process_paragraphs (p :: ps) acc
  = Root.process_paragraphs ps (Root.process_paragraph p acc.1 acc.2).
Proof. done. Qed.

(** The loop hands out the numbers from [k] on, one per visit with text. *)
Lemma root_process_paragraphs_numbers ps k h its :
  let r := Root.process_paragraphs ps (k, (h, its)) in
  r.1 = k + count_with_text h ps
  /\ map placeholder_number r.2.2
     = map placeholder_number its ++ seqZ k (count_with_text h ps)
  /\ forall q, blank r.2.1 q = blank h q.
Proof.
  revert k h its. induction ps as [|p ps IH]; intros k h its.
  - simpl. unfold count_with_text. simpl. rewrite seqZ_nil by lia.
    by rewrite Z.add_0_r, app_nil_r.
  - rewrite root_process_paragraphs_cons. cbn [fst snd].
    pose proof (root_process_paragraph_keeps_blank p k h its) as Hk.
    rewrite root_process_paragraph_result in Hk |- *.
    rewrite count_with_text_cons.
    destruct (blank h p) eqn:Hb.
    + apply IH.
    + cbn [fst snd] in Hk.
      match goal with |- context [Root.process_paragraphs ps (_, (?h1, ?i1))] =>
        destruct (IH (k + 1) h1 i1) as (E1 & E2 & E3) end.
      rewrite (count_with_text_ext h _ ps Hk) in E1, E2.
      pose proof (count_with_text_nonneg h ps).
      cbn zeta. split; [lia|]. split.
      * rewrite E2, map_app, <- app_assoc. simpl. f_equal.
        rewrite (seqZ_cons k) by lia. do 2 f_equal; lia.
      * intros q. by rewrite E3, Hk.
Qed.

Lemma foldl_map {A B C} (f : A -> C -> A) (g : B -> C) a l :
  foldl f a (map g l) = foldl (fun a x => f a (g x)) a l.
Proof. revert a. induction l; intros; simpl; auto. Qed.

Lemma foldl_pointwise {A B} (f g : A -> B -> A) a l :
  (forall a x, f a x = g a x) -> foldl f a l = foldl g a l.
Proof. intros H. revert a. induction l; intros; simpl; [done|]. by rewrite H. Qed.

(** The nested loops over the tables walk [concat (map table_order ts)]. *)
Lemma root_process_tables_flat ts acc :
  Root.process_tables ts acc
  = Root.process_paragraphs (concat (map table_order ts)) acc.
Proof.
  unfold Root.process_tables, Root.process_paragraphs, table_order, row_order,
    cell_order.
  rewrite foldl_concat, foldl_map. apply foldl_pointwise. intros a t.
  rewrite foldl_concat, foldl_map. apply foldl_pointwise. intros a' r.
  by rewrite foldl_concat, foldl_map.
Qed.

Lemma root_extract_flat doc :
  Root.extract doc
  = let r := Root.process_paragraphs (visit_order doc) (1, (store doc, [])) in
    ({| store := r.2.1; paragraphs := paragraphs doc; tables := tables doc |},
     r.2.2).
Proof.
  unfold Root.extract, visit_order. rewrite root_process_tables_flat.
  unfold Root.process_paragraphs. by rewrite foldl_app.
Qed.

Lemma root_extract_numbers doc :
  map placeholder_number (Root.extract doc).2 = seqZ 1 (visits_with_text doc).
Proof.
  rewrite root_extract_flat. cbn [snd].
  destruct (root_process_paragraphs_numbers (visit_order doc) 1 (store doc) [])
    as (_ & E & _).
  simpl in E. unfold visits_with_text. by rewrite E.
Qed.

(** C1. The placeholder numbers extraction assigns are 1, 2, ..., N in
    the order of the walk, without gap or repetition, where N is the
    number of paragraphs visited whose trimmed text is not empty; and
    [process_paragraph] returns [current_num + 1] and appends exactly one
    item, numbered [current_num], exactly when the trimmed text is not
    empty, and returns [current_num] and appends nothing otherwise. *)
Theorem C1_placeholder_numbers :
  (forall doc,
     map placeholder_number (Root.extract doc).2 = seqZ 1 (visits_with_text doc)
     /\ NoDup (map placeholder_number (Root.extract doc).2))
  /\ (forall p k h its,
        let r := Root.process_paragraph p k (h, its) in
        r.1 = (if blank h p then k else k + 1)
        /\ r.2.2
           = (if blank h p then its
              else its ++ [ {| placeholder_number := k;
                               original_content := content_of (strip (text_at h p));
                               translate_content := None |} ])).
Proof.
  split.
  - intros doc. rewrite root_extract_numbers. split; [done|]. apply NoDup_seqZ.
  - intros p k h its. cbn zeta. rewrite root_process_paragraph_result.
    by destruct (blank h p).
Qed.

(** ** The template extraction leaves *)

Lemma templated_mono n n' h q : n <= n' -> templated n h q -> templated n' h q.
Proof.
  intros Hn [Hb|(m & Hm & Ht)]; [by left|right]. exists m. split; [lia|done].
Qed.

Lemma root_process_paragraph_next p k h its :
  k <= (Root.process_paragraph p k (h, its)).1 <= k + 1.
Proof.
  rewrite root_process_paragraph_result. destruct (blank h p); simpl; lia.
Qed.

Lemma root_process_paragraph_templated p k h its q :
  1 <= k ->
  let r := Root.process_paragraph p k (h, its) in
  (templated k h q -> templated r.1 r.2.1 q) /\ (q = p -> templated r.1 r.2.1 q).
Proof.
  intros Hk. cbn zeta. destruct (blank h p) eqn:Hb.
  - rewrite root_process_paragraph_blank by done. simpl.
    split; [done|]. intros ->. by left.
  - destruct (root_process_paragraph_text p k h its Hb) as (c & t & -> & Ht).
    simpl. assert (templated (k + 1) (<[p:=Root.rewrite_paragraph (deref h p) t]> h) p).
    { right. exists k. split; [lia|]. unfold text_at.
      by rewrite deref_insert, root_rewrite_text. }
    split; [|by intros ->]. intros Hq.
    destruct (decide (p = q)) as [<-|Hne]; [done|].
    apply (templated_mono k); [lia|].
    unfold templated, blank, text_at in *. by rewrite deref_insert_ne.
Qed.

Lemma root_process_paragraphs_templated ps k h its q :
  1 <= k ->
  let r := Root.process_paragraphs ps (k, (h, its)) in
  (templated k h q -> templated r.1 r.2.1 q) /\ (In q ps -> templated r.1 r.2.1 q).
Proof.
  revert k h its. induction ps as [|p ps IH]; intros k h its Hk; [done|].
  cbn zeta. rewrite root_process_paragraphs_cons. cbn [fst snd].
  pose proof (root_process_paragraph_next p k h its) as Hn.
  destruct (root_process_paragraph_templated p k h its q Hk) as [H1 H2].
  destruct (Root.process_paragraph p k (h, its)) as [k1 [h1 its1]].
  cbn [fst snd] in *. destruct (IH k1 h1 its1 ltac:(lia)) as [H3 H4].
  split; [by intros ?%H1%H3|]. intros [->|Hin]; [by apply H3, H2|by apply H4].
Qed.

(** After extraction every paragraph of the document is a paragraph of
    the template, with a number among those of the items. *)
Lemma root_extract_templated doc q :
  In q (visit_order doc) ->
  templated (1 + visits_with_text doc) (store (Root.extract doc).1) q.
Proof.
  intros Hq. rewrite root_extract_flat. cbn zeta. cbn [fst store].
  destruct (root_process_paragraphs_numbers (visit_order doc) 1 (store doc) [])
    as (E & _).
  destruct (root_process_paragraphs_templated (visit_order doc) 1 (store doc) [] q)
    as [_ H]; [lia|].
  unfold visits_with_text. rewrite <- E. by apply H.
Qed.

(** ** The translation stage (top-level service) *)

Lemma root_batch_translate_lookup translate_text (its : list DocumentItem) i :
  Root.batch_translate translate_text its !! i
  = Root.translate_item (translate_text i) <$> its !! i.
Proof.
  unfold Root.batch_translate. rewrite list_lookup_imap. by destruct (its !! i).
Qed.

Lemma root_translate_item_number call item :
  placeholder_number (Root.translate_item call item) = placeholder_number item.
Proof. unfold Root.translate_item. by destruct (call _). Qed.

Lemma root_translate_item_content call item :
  original_content (Root.translate_item call item) = original_content item.
Proof. unfold Root.translate_item. by destruct (call _). Qed.

Lemma root_batch_translate_length translate_text (its : list DocumentItem) :
  length (Root.batch_translate translate_text its) = length its.
Proof. unfold Root.batch_translate. apply length_imap. Qed.

Lemma root_batch_translate_numbers translate_text (its : list DocumentItem) :
  map placeholder_number (Root.batch_translate translate_text its)
  = map placeholder_number its.
Proof.
  apply list_eq. intros i. rewrite !list_lookup_fmap, root_batch_translate_lookup.
  destruct (its !! i); simpl; [|done]. by rewrite root_translate_item_number.
Qed.

(** ** The content map *)

Lemma build_content_map_snoc its item :
  Root.build_content_map (its ++ [item])
  = <[placeholder_number item := translate_content item]> (Root.build_content_map its).
Proof. unfold Root.build_content_map. by rewrite foldl_app. Qed.

(** The map holds, under a number, the translation of an item that has
    this number, and nothing under a number no item has. *)
Lemma build_content_map_lookup its k :
  match Root.build_content_map its !! k with
  | Some v => exists item, In item its /\ placeholder_number item = k
                           /\ translate_content item = v
  | None => forall item, In item its -> placeholder_number item <> k
  end.
Proof.
  induction its as [|item its IH] using rev_ind.
  - unfold Root.build_content_map. simpl. rewrite lookup_empty. by intros ??.
  - rewrite build_content_map_snoc.
    destruct (decide (placeholder_number item = k)) as [E|E].
    + rewrite E, lookup_insert_eq. exists item. rewrite in_app_iff. simpl. auto.
    + rewrite lookup_insert_ne by done.
      destruct (Root.build_content_map its !! k) as [v|].
      * destruct IH as (it & Hin & Hk & Hv). exists it. rewrite in_app_iff. auto.
      * intros it [Hin|[<-|[]]]%in_app_iff; [by apply IH|done].
Qed.

(** ** One paragraph of reassembly (top-level service) *)

Lemma root_fill_paragraph_blank p cm h :
  blank h p = true -> Root.process_fill_paragraph p cm h = h.
Proof. unfold blank, text_at, Root.process_fill_paragraph. by intros ->. Qed.

Lemma root_fill_paragraph_text p cm h :
  blank h p = false ->
  Root.process_fill_paragraph p cm h
  = <[p := Root.rewrite_paragraph (deref h p)
             (re_sub (Root.lookup_token cm) (strip (text_at h p)))]> h.
Proof. unfold blank, text_at, Root.process_fill_paragraph. by intros ->. Qed.

Lemma root_fill_paragraph_other p cm h q :
  p <> q -> deref (Root.process_fill_paragraph p cm h) q = deref h q.
Proof.
  intros Hne. destruct (blank h p) eqn:Hb.
  - by rewrite root_fill_paragraph_blank.
  - by rewrite root_fill_paragraph_text, deref_insert_ne.
Qed.

Lemma root_fill_paragraph_filled p cm h q :
  filled h q -> filled (Root.process_fill_paragraph p cm h) q.
Proof.
  unfold filled. intros Hq. destruct (decide (p = q)) as [<-|Hne].
  - destruct (blank h p) eqn:Hb; [by rewrite root_fill_paragraph_blank|].
    rewrite root_fill_paragraph_text by done. unfold text_at at 1.
    rewrite deref_insert, root_rewrite_text.
    rewrite re_sub_no_token; by apply has_token_strip.
  - unfold text_at. by rewrite root_fill_paragraph_other.
Qed.

Lemma root_fill_paragraph_templated p cm n h :
  clean_map cm n -> templated n h p -> filled (Root.process_fill_paragraph p cm h) p.
Proof.
  intros Hcm [Hb|(m & Hm & Ht)].
  - rewrite root_fill_paragraph_blank by done. unfold filled.
    apply has_token_blank. by apply is_nil_true.
  - assert (blank h p = false) as Hb.
    { unfold blank. rewrite (template_text_strip _ _ Ht). apply is_nil_false.
      by eapply template_text_nonempty. }
    rewrite root_fill_paragraph_text by done. unfold filled, text_at at 1.
    rewrite deref_insert, root_rewrite_text, (template_text_strip _ _ Ht).
    destruct (re_sub_template (Root.lookup_token cm) m _ ltac:(lia) Ht)
      as (np & _ & Hnl & ->).
    unfold Root.lookup_token. rewrite int_of_text_str.
    destruct (Hcm m Hm) as (t & -> & Hclean). simpl.
    by rewrite has_token_no_lbrace.
Qed.

Lemma root_fill_paragraphs_cons p ps cm h :
  Root.fill_paragraphs (p :: ps) cm h
  = Root.fill_paragraphs ps cm (Root.process_fill_paragraph p cm h).
Proof. done. Qed.

Lemma root_fill_paragraphs_filled ps cm h q :
  filled h q -> filled (Root.fill_paragraphs ps cm h) q.
Proof.
  revert h. induction ps as [|p ps IH]; intros h Hq; [done|].
  rewrite root_fill_paragraphs_cons. by apply IH, root_fill_paragraph_filled.
Qed.

Lemma root_fill_paragraphs_templated ps cm n h q :
  clean_map cm n -> templated n h q \/ filled h q -> In q ps ->
  filled (Root.fill_paragraphs ps cm h) q.
Proof.
  intros Hcm. revert h. induction ps as [|p ps IH]; intros h Hq Hin; [done|].
  rewrite root_fill_paragraphs_cons.
  destruct (decide (p = q)) as [<-|Hne].
  - apply root_fill_paragraphs_filled. destruct Hq as [Hq|Hq].
    + by eapply root_fill_paragraph_templated.
    + by apply root_fill_paragraph_filled.
  - destruct Hin as [?|Hin]; [done|]. apply IH; [|done].
    destruct Hq as [Hq|Hq]; [left|right; by apply root_fill_paragraph_filled].
    unfold templated, blank, text_at in *. by rewrite root_fill_paragraph_other.
Qed.

Lemma root_fill_tables_flat ts cm h :
  Root.fill_tables ts cm h
  = Root.fill_paragraphs (concat (map table_order ts)) cm h.
Proof.
  unfold Root.fill_tables, Root.fill_paragraphs, table_order, row_order,
    cell_order.
  rewrite foldl_concat, foldl_map. apply foldl_pointwise. intros a t.
  rewrite foldl_concat, foldl_map. apply foldl_pointwise. intros a' r.
  by rewrite foldl_concat, foldl_map.
Qed.

Lemma root_fill_flat doc its :
  Root.fill doc its
  = {| store := Root.fill_paragraphs (visit_order doc)
                  (Root.build_content_map its) (store doc);
       paragraphs := paragraphs doc; tables := tables doc |}.
Proof.
  unfold Root.fill, visit_order. rewrite root_fill_tables_flat.
  unfold Root.fill_paragraphs. by rewrite foldl_app.
Qed.

(** ** Round trip (top-level service) *)

Lemma translations_clean_lookup translate_text (its : list DocumentItem) i item :
  translations_clean translate_text its = true ->
  its !! i = Some item ->
  clean_outcome (translate_text i (original_content item)) = true.
Proof.
  unfold translations_clean. rewrite forallb_forall. intros H Hi. apply H.
  apply list_elem_of_In, list_elem_of_lookup. exists i.
  by rewrite list_lookup_imap, Hi.
Qed.

Lemma root_batch_translate_clean translate_text its item :
  translations_clean translate_text its = true ->
  In item (Root.batch_translate translate_text its) ->
  exists t, translate_content item = Some t /\ has_token t = false.
Proof.
  intros Hc [i Hi]%list_elem_of_In%list_elem_of_lookup.
  rewrite root_batch_translate_lookup in Hi.
  destruct (its !! i) as [it|] eqn:E; [|done]. injection Hi as <-.
  pose proof (translations_clean_lookup _ _ _ _ Hc E) as Ho.
  unfold Root.translate_item. destruct (translate_text i (original_content it)); [|done].
  simpl in *. eexists. split; [done|]. by destruct (has_token t).
Qed.

Lemma root_clean_map translate_text its n :
  map placeholder_number its = seqZ 1 n ->
  translations_clean translate_text its = true ->
  clean_map (Root.build_content_map (Root.batch_translate translate_text its)) (1 + n).
Proof.
  intros Hnum Hc m Hm.
  pose proof (build_content_map_lookup (Root.batch_translate translate_text its) m) as H.
  destruct (Root.build_content_map (Root.batch_translate translate_text its) !! m)
    as [v|].
  - destruct H as (item & Hin & _ & <-).
    destruct (root_batch_translate_clean _ _ _ Hc Hin) as (t & -> & Ht). eauto.
  - exfalso. assert (m ∈ seqZ 1 n) as Hel by (apply elem_of_seqZ; lia).
    rewrite <- Hnum, <- (root_batch_translate_numbers translate_text) in Hel.
    apply list_elem_of_fmap in Hel as (item & -> & Hin%list_elem_of_In).
    by apply (H item).
Qed.

(** C3. Round trip: when every call of the translation stage returns and
    no translation holds a text the placeholder pattern matches, the
    document the pipeline produces holds no such text in any paragraph,
    and so no token "{{ n }}": reassembly has replaced every token
    extraction wrote. *)
Theorem C3_round_trip translate_text doc :
  translations_clean translate_text (Root.extract doc).2 = true ->
  document_has_token (Root.process_document translate_text doc) = false
  /\ (forall q n pre post,
        In q (visit_order doc) -> 0 <= n ->
        text_at (store (Root.process_document translate_text doc)) q
        <> pre ++ placeholder n ++ post).
Proof.
  intros Hc.
  enough (forall q, In q (visit_order doc) ->
            has_token (text_at (store (Root.process_document translate_text doc)) q)
            = false) as Hall.
  { split.
    - unfold document_has_token. apply not_true_is_false.
      intros (q & Hq & Htok)%existsb_exists. rewrite Hall in Htok; [done|].
      revert Hq. unfold Root.process_document.
      pose proof (root_extract_flat doc) as E.
      destruct (Root.extract doc) as [template its]. injection E as -> _.
      by rewrite root_fill_flat.
    - intros q n pre post Hq Hn. apply has_token_placeholder; [by apply Hall|done]. }
  intros q Hq. unfold Root.process_document.
  pose proof (root_extract_templated doc) as Ht.
  pose proof (root_extract_numbers doc) as Hn.
  destruct (Root.extract doc) as [template its] eqn:E. cbn [fst snd] in *.
  assert (visit_order template = visit_order doc) as Hv.
  { rewrite root_extract_flat in E. by injection E as <- _. }
  rewrite root_fill_flat. cbn [store].
  apply (root_fill_paragraphs_templated (visit_order template) _
           (1 + visits_with_text doc) (store template) q).
  - by apply root_clean_map.
  - left. by apply Ht.
  - by rewrite Hv.
Qed.

(** ** [str.replace] around a token *)

Lemma braced_nonempty t : braced t -> t <> [].
Proof. by intros (body & -> & _). Qed.

Lemma str_replace_scan old new s :
  old <> [] -> str_replace old new s = scan (replace_matcher old new) s.
Proof. by destruct old. Qed.

Lemma replace_matcher_extend old new p y out r :
  replace_matcher old new p = Some (out, r) ->
  replace_matcher old new (p ++ y) = Some (out, r ++ y).
Proof.
  unfold replace_matcher. destruct (starts_with old p) eqn:E; [|done].
  intros [= <- <-]. apply starts_with_spec in E as [r ->].
  rewrite <- app_assoc, !drop_app_length.
  assert (starts_with old (old ++ r ++ y) = true) as ->; [|done].
  apply starts_with_spec. eauto.
Qed.

Lemma replace_matcher_blocked old new p y :
  braced old -> p <> [] ->
  replace_matcher old new p = None ->
  replace_matcher old new (p ++ str "{{" ++ y) = None.
Proof.
  intros Hold Hp. unfold replace_matcher.
  destruct (starts_with old p) eqn:E; [done|]. intros _.
  destruct (starts_with old (p ++ str "{{" ++ y)) eqn:E'; [|done].
  apply starts_with_spec in E' as [r E'].
  apply no_straddle in E' as [r' ->]; [|done|done].
  assert (starts_with old (old ++ r') = true) as E''; [|by rewrite E'' in E].
  apply starts_with_spec. eauto.
Qed.

Lemma str_replace_app_braces old new pre y :
  braced old ->
  str_replace old new (pre ++ str "{{" ++ y)
  = str_replace old new pre ++ str_replace old new (str "{{" ++ y).
Proof.
  intros Hold. pose proof (braced_nonempty _ Hold) as Hne.
  rewrite !str_replace_scan by done. apply scan_app.
  - by apply replace_matcher_consuming.
  - intros p out r. apply replace_matcher_extend.
  - intros p Hp. by apply replace_matcher_blocked.
Qed.

(** Where the token of the item stands, the replacement is written. *)
Lemma str_replace_token old new pre post :
  braced old ->
  str_replace old new (pre ++ old ++ post)
  = str_replace old new pre ++ new ++ str_replace old new post.
Proof.
  intros Hold. pose proof (braced_nonempty _ Hold) as Hne.
  destruct Hold as (body & E & Hb). pose proof Hne as Hne'.
  rewrite E at 2. rewrite <- (app_assoc (str "{{") body post).
  rewrite str_replace_app_braces by (by exists body).
  f_equal. rewrite (app_assoc (str "{{") body post), <- E.
  rewrite !str_replace_scan by done.
  rewrite (scan_match _ (replace_matcher_consuming old new Hne) (old ++ post) new post);
    [done|].
  unfold replace_matcher. rewrite drop_app_length.
  assert (starts_with old (old ++ post) = true) as ->; [|done].
  apply starts_with_spec. eauto.
Qed.

Lemma starts_with_lbrace old c s :
  braced old -> is_lbrace c = false -> starts_with old (c :: s) = false.
Proof.
  intros (body & -> & _) Hc.
  change (str "{{" ++ body) with ("{"%char :: "{"%char :: body).
  cbn [starts_with]. destruct (ascii_dec "{" c) as [<-|]; done.
Qed.

(** Where another token stands, it is copied. *)
Lemma str_replace_other old new pre tok post :
  braced old -> braced tok -> starts_with old (tok ++ post) = false ->
  str_replace old new (pre ++ tok ++ post)
  = str_replace old new pre ++ tok ++ str_replace old new post.
Proof.
  intros Hold (body & -> & Hbne & Hb) Hns.
  pose proof (braced_nonempty _ Hold) as Hne.
  rewrite <- (app_assoc (str "{{") body post).
  rewrite str_replace_app_braces by done. f_equal.
  rewrite !str_replace_scan by done.
  pose proof (replace_matcher_consuming old new Hne) as Hc.
  rewrite <- (app_assoc (str "{{") body post) in Hns.
  simpl. rewrite scan_cons by done.
  unfold replace_matcher at 1. simpl in Hns. rewrite Hns. f_equal.
  rewrite scan_cons by done. unfold replace_matcher at 1.
  assert (starts_with old ("{"%char :: body ++ post) = false) as ->.
  { destruct Hold as (b' & -> & _). destruct body as [|c body]; [done|].
    change (str "{{" ++ b') with ("{"%char :: "{"%char :: b').
    cbn [starts_with app]. unfold no_lbrace in Hb. cbn [forallb] in Hb.
    apply andb_prop in Hb as [Hc' _].
    destruct (ascii_dec "{" "{"); [|done].
    destruct (ascii_dec "{" c) as [<-|]; done. }
  f_equal. apply scan_copy; [done|].
  intros u1 u2 c ->. unfold replace_matcher.
  rewrite starts_with_lbrace; [done|done|]. by apply no_lbrace_middle in Hb.
Qed.

Lemma contains_spec old s :
  contains old s = false -> forall a b, s = a ++ b -> starts_with old b = false.
Proof.
  induction s as [|c s IH]; simpl.
  - rewrite orb_false_r. intros H a b E. symmetry in E.
    apply app_eq_nil in E as [-> ->]. done.
  - intros [H1 H2]%orb_false_elim a b E. destruct a as [|c' a].
    + simpl in E. by subst b.
    + injection E as <- E. by apply (IH H2 a).
Qed.

(** Without an occurrence nothing is replaced. *)
Lemma str_replace_absent old new s :
  old <> [] -> contains old s = false -> str_replace old new s = s.
Proof.
  intros Hne H. rewrite str_replace_scan by done.
  rewrite <- (app_nil_r s) at 1.
  rewrite scan_copy; [by rewrite app_nil_r|by apply replace_matcher_consuming|].
  intros u1 u2 c ->. unfold replace_matcher. rewrite app_nil_r.
  by rewrite (contains_spec _ _ H u1 (c :: u2)).
Qed.

(** The guard of the item loop makes no difference to its result. *)
Lemma server_fill_step_replace t item :
  Server.fill_step t item
  = str_replace (placeholder (placeholder_number item))
      (Server.text_or (translate_content item) []) t.
Proof.
  unfold Server.fill_step.
  destruct (contains (placeholder (placeholder_number item)) t) eqn:E; [done|].
  symmetry. apply str_replace_absent; [|done].
  apply braced_nonempty, placeholder_braced.
Qed.

(** ** Decoding a token *)

Lemma decode_shape tok n :
  decode tok = Some n -> exists g1, token_shape tok g1 /\ int_of_text g1 = n.
Proof.
  unfold decode.
  destruct (match_placeholder tok) as [[[g0 g1] [|??]]|] eqn:E; [|done|done].
  intros [= <-]. apply match_placeholder_elim in E as [E Hs].
  rewrite app_nil_r in E. subst g0. eauto.
Qed.

Lemma decode_placeholder n : 0 <= n -> decode (placeholder n) = Some n.
Proof.
  intros Hn. unfold decode.
  rewrite <- (app_nil_r (placeholder n)), match_placeholder_placeholder by done.
  by rewrite int_of_text_str.
Qed.

Lemma str_of_int_neg k : k < 0 -> exists t, str_of_int k = "-"%char :: t.
Proof. destruct k; [lia|lia|]. intros _. unfold str_of_int. simpl. eauto. Qed.

(** The token of an item is not a prefix of a token that decodes to
    another number. *)
Lemma placeholder_not_prefix k tok g1 post :
  token_shape tok g1 -> int_of_text g1 <> k ->
  starts_with (placeholder k) (tok ++ post) = false.
Proof.
  intros Hs Hk. destruct (starts_with _ _) eqn:E; [exfalso|done].
  apply starts_with_spec in E as [r E].
  destruct (Z_lt_le_dec k 0) as [Hneg|Hpos].
  - destruct Hs as (w1 & w2 & -> & Hw1 & Hg1 & Hne & _).
    destruct (str_of_int_neg k Hneg) as [t Ht].
    unfold placeholder in E. rewrite Ht in E. simpl in E.
    injection E as E.
    destruct w1 as [|c w1]; simpl in E.
    + destruct g1 as [|c g1]; [done|]. injection E as -> _. done.
    + injection E as -> E. simpl in Hw1.
      destruct w1 as [|c w1]; simpl in E.
      * destruct g1 as [|c g1]; [done|]. injection E as -> _. done.
      * injection E as -> _. done.
  - pose proof (match_placeholder_intro tok g1 post Hs) as E1.
    rewrite E, match_placeholder_placeholder in E1 by done.
    injection E1 as _ <- _. by rewrite int_of_text_str in Hk.
Qed.

(** ** A token in a paragraph of the template (top-level service) *)

Lemma root_fill_token p cm h pre tok post n :
  strip (text_at h p) = pre ++ tok ++ post ->
  decode tok = Some n ->
  text_at (Root.process_fill_paragraph p cm h) p
  = re_sub (Root.lookup_token cm) pre
    ++ match cm !! n with Some v => default [] v | None => tok end
    ++ re_sub (Root.lookup_token cm) post.
Proof.
  intros Ht (g1 & Hs & Hn)%decode_shape.
  assert (blank h p = false) as Hb.
  { unfold blank. rewrite Ht. apply is_nil_false.
    destruct Hs as (w1 & w2 & -> & _). by destruct pre. }
  rewrite root_fill_paragraph_text by done. unfold text_at at 1.
  rewrite deref_insert, root_rewrite_text, Ht.
  rewrite (re_sub_token _ pre tok g1 post Hs). do 2 f_equal.
  unfold Root.lookup_token. rewrite Hn. by destruct (cm !! n).
Qed.

(** ** A token the item loop of the server variant does not know *)

Lemma server_fill_text_cons t item items :
  Server.fill_text (item :: items) t = Server.fill_text items (Server.fill_step t item).
Proof. done. Qed.

Lemma server_fill_text_other items pre tok post n :
  decode tok = Some n ->
  existsb (fun item => placeholder_number item =? n) items = false ->
  Server.fill_text items (pre ++ tok ++ post)
  = Server.fill_text items pre ++ tok ++ Server.fill_text items post.
Proof.
  intros (g1 & Hs & Hn)%decode_shape. revert pre post.
  induction items as [|item items IH]; intros pre post Hex; [done|].
  simpl in Hex. apply orb_false_elim in Hex as [Hi Hex].
  rewrite !server_fill_text_cons, !server_fill_step_replace.
  rewrite str_replace_other.
  - by apply IH.
  - apply placeholder_braced.
  - by eapply token_shape_braced.
  - eapply placeholder_not_prefix; [done|]. lia.
Qed.

Lemma build_content_map_unknown items n :
  existsb (fun item => placeholder_number item =? n) items = false ->
  Root.build_content_map items !! n = None.
Proof.
  intros Hex. pose proof (build_content_map_lookup items n) as H.
  destruct (Root.build_content_map items !! n) as [v|]; [exfalso|done].
  destruct H as (item & Hin & Hn & _).
  assert (existsb (fun item => placeholder_number item =? n) items = true) as E.
  { apply existsb_exists. exists item. split; [done|lia]. }
  by rewrite E in Hex.
Qed.

Lemma NoDup_map_In_inj {A B} (f : A -> B) (l : list A) a b :
  NoDup (map f l) -> In a l -> In b l -> f a = f b -> a = b.
Proof.
  induction l as [|x l IH]; simpl; [done|].
  intros [Hx Hl]%NoDup_cons [<-|Ha] [<-|Hb] E; [done| | |by apply IH].
  - exfalso. apply Hx. rewrite E. by apply list_elem_of_In, in_map.
  - exfalso. apply Hx. rewrite <- E. by apply list_elem_of_In, in_map.
Qed.

Lemma build_content_map_item items item :
  NoDup (map placeholder_number items) -> In item items ->
  Root.build_content_map items !! placeholder_number item
  = Some (translate_content item).
Proof.
  intros Hnd Hin.
  pose proof (build_content_map_lookup items (placeholder_number item)) as H.
  destruct (Root.build_content_map items !! placeholder_number item) as [v|].
  - destruct H as (item' & Hin' & Hn & <-).
    by rewrite (NoDup_map_In_inj _ _ _ _ Hnd Hin' Hin Hn).
  - by destruct (H item Hin).
Qed.

(** ** Decoding: the shape of a token *)

(** The claim C5 as stated fails: the text "{{5}}" is decoded, as 5, and
    replaced by the translation of item 5, though it is not of the shape
    extraction writes. *)
Lemma C5_counterexample :
  decode (str "{{5}}") = Some 5
  /\ ~ strict_token (str "{{5}}")
  /\ text_at (Root.process_fill_paragraph 0
                (Root.build_content_map [item_translated 5 "cinq"])
                (one_paragraph "{{5}}")) 0
     = str "cinq".
Proof.
  split; [reflexivity|]. split; [|reflexivity].
  intros (n & _ & E). unfold placeholder in E. simpl in E.
  injection E as E. destruct (str_of_int n); simpl in E; discriminate.
Qed.

(** C5, amended. The placeholder pattern matches at the start of a text
    exactly when the text starts with two left braces, any number of
    blanks, one or more digits, any number of blanks and two right
    braces; the digits are read as a decimal numeral, leading zeros
    included.  The token extraction writes is of this shape and decodes
    to its number; so do "{{5}}" and "{{  5 }}"; "{{ x }}" and "{{ }}"
    are not decoded. *)
Theorem C5_decoding_shape :
  (forall s g0 g1 rest,
     match_placeholder s = Some (g0, g1, rest)
     <-> s = g0 ++ rest /\ token_shape g0 g1)
  /\ (forall n, 0 <= n -> decode (placeholder n) = Some n)
  /\ decode (str "{{5}}") = Some 5
  /\ decode (str "{{  5 }}") = Some 5
  /\ decode (str "{{ 007 }}") = Some 7
  /\ decode (str "{{ x }}") = None
  /\ has_token (str "a {{ x }} {{ }} {5} { { 5 } }") = false.
Proof.
  split; [apply match_placeholder_spec|].
  split; [apply decode_placeholder|]. repeat split; reflexivity.
Qed.

Lemma C5_decoding_shape_witness :
  decode (placeholder 12) = Some 12
  /\ match_placeholder (str "{{ 12 }} rest") = Some (str "{{ 12 }}", str "12", str " rest").
Proof.
  destruct C5_decoding_shape as (H1 & H2 & _). split.
  - apply H2. lia.
  - apply H1. split; [reflexivity|].
    exists (str " "), (str " "). repeat split; done.
Defined.

(** ** Style *)

(** The captured style of the first run, as the new run of the top-level
    service carries it: every attribute but the size. *)
Lemma root_rewrite_style para source_run rest t :
  runs para = source_run :: rest ->
  exists f,
    runs (Root.rewrite_paragraph para t) = [ {| run_text := t; run_font := f |} ]
    /\ font_name f = font_name (run_font source_run)
    /\ font_bold f = font_bold (run_font source_run)
    /\ font_italic f = font_italic (run_font source_run)
    /\ font_color_rgb f = font_color_rgb (run_font source_run)
    /\ font_size f
       = (if size_truthy (font_size (run_font source_run))
          then Pt <$> font_size (run_font source_run) else None).
Proof.
  intros E. eexists. split; [apply root_rewrite_runs|].
  unfold Root.capture_style. rewrite E. simpl.
  repeat split. by destruct (font_color_rgb (run_font source_run)).
Qed.

(** C7 fails in the top-level service: the one run that replaces the runs
    of the paragraph takes the name, bold, italic and color of the first
    run, but its size is the captured length times 12700 (the captured
    [Length] is passed to [Pt] as if it counted points). *)
Theorem C7_root_size_scaled para source_run rest t s :
  runs para = source_run :: rest ->
  font_size (run_font source_run) = Some s ->
  s <> 0 ->
  runs (Root.rewrite_paragraph para t)
  = [ {| run_text := t;
         run_font := {| font_name := font_name (run_font source_run);
                        font_size := Some (s * 12700);
                        font_bold := font_bold (run_font source_run);
                        font_italic := font_italic (run_font source_run);
                        font_color_rgb := font_color_rgb (run_font source_run) |} |} ]
  /\ Some (s * 12700) <> font_size (run_font source_run).
Proof.
  intros E Hs Hnz. split.
  - rewrite root_rewrite_runs. unfold Root.capture_style. rewrite E. simpl.
    rewrite Hs. simpl. assert ((s =? 0) = false) as -> by lia. simpl.
    do 3 f_equal. by destruct (font_color_rgb (run_font source_run)).
  - rewrite Hs. intros [= H]. lia.
Qed.

(** A first run of 12 pt gives a run of 152400 pt. *)
Lemma C7_root_size_scaled_witness :
  map (fun r => font_size (run_font r)) (runs (Root.rewrite_paragraph two_runs (str "{{ 1 }}")))
  = [Some (Pt 152400)]
  /\ Pt 152400 <> Pt 12.
Proof.
  destruct (C7_root_size_scaled two_runs
              {| run_text := str "Hel"; run_font := bold_red_12pt |}
              [ {| run_text := str "lo"; run_font := default_font |} ]
              (str "{{ 1 }}") (Pt 12)) as [H _].
  - reflexivity.
  - reflexivity.
  - unfold Pt. lia.
  - split; [by rewrite H|]. unfold Pt. lia.
Defined.

Lemma server_clear_paragraph_runs para : runs (Server.clear_paragraph para) = [].
Proof.
  destruct para as [l]. unfold Server.clear_paragraph. simpl.
  induction l as [|x l IH] using rev_ind; [done|].
  rewrite rev_app_distr. simpl. by rewrite removelast_last.
Qed.

(** The server variant gives the new run the captured style as it is:
    the size is assigned without [Pt]. *)
Lemma server_rewrite_style para run0 rest t style :
  runs para = run0 :: rest ->
  Server.capture_style para = Some style ->
  runs (Server.rewrite_paragraph para t)
  = [ {| run_text := t;
         run_font := {| font_name := style_name style;
                        font_size := style_size style;
                        font_bold := style_bold style;
                        font_italic := style_italic style;
                        font_color_rgb := style_color style |} |} ].
Proof.
  intros E Hst. unfold Server.rewrite_paragraph, add_run.
  rewrite server_clear_paragraph_runs, Hst. simpl.
  do 3 f_equal. by destruct (style_color style).
Qed.

Example server_rewrite_12pt :
  map (fun r => font_size (run_font r))
      (runs (Server.rewrite_paragraph two_runs (str "{{ 1 }}")))
  = [Some (Pt 12)].
Proof. reflexivity. Qed.

(** ** The numbering prefix *)

Lemma dotted_groups_intro gs tl fuel :
  Forall digits gs -> (length gs <= fuel)%nat ->
  stops is_digit tl -> stops is_dot tl ->
  dotted_groups fuel (concat (map (fun g => "."%char :: g) gs) ++ tl)
  = (concat (map (fun g => "."%char :: g) gs), tl).
Proof.
  intros Hgs. revert fuel. induction Hgs as [|g gs [Hg Hne] Hgs IH];
    intros fuel Hf Hd Hdot.
  - simpl. destruct fuel; [done|]. simpl. destruct tl as [|c tl]; [done|].
    simpl in Hdot. unfold is_dot in Hdot. by rewrite Hdot.
  - destruct fuel as [|fuel]; [simpl in Hf; lia|].
    simpl. rewrite <- app_assoc, (span_app is_digit g); [|done|].
    + destruct g; [done|]. simpl is_nil. cbv iota.
      rewrite IH; [|simpl in Hf; lia|done|done]. done.
    + destruct gs; [done|]. done.
Qed.

(** The pattern splits a text that starts with a numbering prefix and
    goes on without a line feed. *)
Lemma match_numbering_intro p rest :
  numbering_prefix p -> stops is_space rest ->
  forallb (fun c => negb (is_newline c)) rest = true ->
  match_numbering (p ++ rest) = Some (p, rest).
Proof.
  intros (d & gs & w & -> & [Hd Hdne] & Hgs & Hw & Hwne) Hrest Hnl.
  rewrite match_numbering_backtrack. unfold match_numbering_det. rewrite <- !app_assoc.
  assert (exists c w', w = c :: w' /\ is_space c = true) as (c & w' & -> & Hc).
  { destruct w as [|c w]; [done|]. simpl in Hw.
    apply andb_prop in Hw as [Hc _]. eauto. }
  rewrite (span_app is_digit d); [|done|].
  2:{ destruct gs; simpl; [by apply space_not_digit|done]. }
  destruct d as [|d0 d]; [done|]. simpl is_nil. cbv iota.
  rewrite dotted_groups_intro; [|done| | |].
  - rewrite (span_app is_space (c :: w') rest) by done.
    simpl is_nil. cbv iota. unfold match_rest_of_line.
    rewrite <- (app_nil_r rest) at 1.
    by rewrite (span_app _ rest []).
  - rewrite !length_app.
    enough (length gs <= length (concat (map (fun g => "."%char :: g) gs)))%nat by lia.
    clear. induction gs; simpl; [done|]. rewrite length_app. lia.
  - simpl. by apply space_not_digit.
  - simpl. unfold is_dot. destruct (Ascii.eqb c ".") eqn:E; [|done].
    apply Ascii.eqb_eq in E. by subst c.
Qed.

(** The prefix is kept, and the remainder recorded, when the remainder
    has no line feed. *)
Lemma root_process_paragraph_prefix p k h its number_part content :
  strip (text_at h p) = number_part ++ content ->
  numbering_prefix number_part -> stops is_space content ->
  forallb (fun c => negb (is_newline c)) content = true ->
  let r := Root.process_paragraph p k (h, its) in
  text_at r.2.1 p = number_part ++ placeholder k
  /\ r.2.2 = its ++ [ {| placeholder_number := k; original_content := content;
                         translate_content := None |} ].
Proof.
  intros Ht Hp Hc Hnl. cbn zeta.
  pose proof (match_numbering_intro _ _ Hp Hc Hnl) as Hm.
  unfold Root.process_paragraph. fold (text_at h p). rewrite Ht, Hm.
  destruct Hp as (d & gs & w & -> & [_ Hd] & _).
  destruct d as [|d0 d]; [done|]. simpl is_nil. cbv iota. cbn [fst snd].
  split; [|done]. unfold text_at. by rewrite deref_insert, root_rewrite_text.
Qed.

(** Without a match of the pattern the whole trimmed text is recorded. *)
Lemma root_process_paragraph_no_prefix p k h its :
  blank h p = false ->
  match_numbering (strip (text_at h p)) = None ->
  let r := Root.process_paragraph p k (h, its) in
  text_at r.2.1 p = placeholder k
  /\ r.2.2 = its ++ [ {| placeholder_number := k;
                         original_content := strip (text_at h p);
                         translate_content := None |} ].
Proof.
  intros Hb Hm. cbn zeta. unfold Root.process_paragraph.
  unfold blank in Hb. fold (text_at h p). rewrite Hb, Hm. cbn [fst snd].
  split; [|done]. unfold text_at at 1. by rewrite deref_insert, root_rewrite_text.
Qed.

(** The example of the specification. *)
Example root_process_paragraph_2_1 :
  let r := Root.process_paragraph 0 1 (one_paragraph "2.1 Introduction", []) in
  text_at r.2.1 0 = str "2.1 {{ 1 }}"
  /\ map original_content r.2.2 = [str "Introduction"].
Proof. split; reflexivity. Qed.

(** C8 fails on a paragraph with a line break after the numbering prefix:
    the text starts with the prefix "2.1 ", yet the pattern does not
    match, the prefix is not kept ahead of the token, and the whole text,
    prefix included, is recorded as the content. *)
Theorem C8_prefix_lost_on_line_break :
  let r := Root.process_paragraph 0 1 (two_lines, []) in
  numbering_prefix (str "2.1 ")
  /\ strip (text_at two_lines 0) = str "2.1 " ++ str "Intro" ++ line_feed ++ str "More"
  /\ text_at r.2.1 0 = str "{{ 1 }}"
  /\ map original_content r.2.2
     = [str "2.1 Intro" ++ line_feed ++ str "More"].
Proof.
  cbn zeta. split; [|repeat split; reflexivity].
  exists (str "2"), [str "1"], (str " "). repeat split; try done.
  repeat constructor; done.
Qed.

(** ** Failure of one call *)

Lemma server_batch_translate_from_raises translate_text its k i item e :
  its !! i = Some item ->
  translate_text (k + i)%nat (original_content item) = Raises e ->
  Server.batch_translate_from k translate_text its = None.
Proof.
  revert k i. induction its as [|x its IH]; intros k i Hi He; [done|].
  destruct i as [|i]; simpl in *.
  - injection Hi as ->. rewrite Nat.add_0_r in He.
    unfold Server.translate. by rewrite He.
  - rewrite (IH (S k) i); [by destruct (Server.translate _ _)|done|].
    by replace (S k + i)%nat with (k + S i)%nat by lia.
Qed.

(** The top-level service: the item of the failing call takes the marker,
    every item whose call returns takes what the call returns. *)
Lemma root_failure_isolated translate_text (its : list DocumentItem) i item e :
  its !! i = Some item ->
  translate_text i (original_content item) = Raises e ->
  Root.batch_translate translate_text its !! i
  = Some {| placeholder_number := placeholder_number item;
            original_content := original_content item;
            translate_content := Some (str "[FAILED] " ++ e) |}
  /\ (forall j item_j t,
        its !! j = Some item_j ->
        translate_text j (original_content item_j) = Returns t ->
        Root.batch_translate translate_text its !! j
        = Some {| placeholder_number := placeholder_number item_j;
                  original_content := original_content item_j;
                  translate_content := Some t |}).
Proof.
  intros Hi He. split.
  - rewrite root_batch_translate_lookup, Hi. simpl.
    unfold Root.translate_item. by rewrite He.
  - intros j item_j t Hj Ht. rewrite root_batch_translate_lookup, Hj. simpl.
    unfold Root.translate_item. by rewrite Ht.
Qed.

(** C2 holds in the top-level service and fails in the server variant:
    when the call for one item raises, the top-level service writes the
    marker "[FAILED] ..." into that item and translates every other item,
    while [batch_translate] of the server variant raises: no marker is
    written, and the batch is aborted. *)
Theorem C2_server_failure_aborts translate_text (its : list DocumentItem) i item e :
  its !! i = Some item ->
  translate_text i (original_content item) = Raises e ->
  Server.batch_translate translate_text its = None
  /\ translate_content <$> Root.batch_translate translate_text its !! i
     = Some (Some (str "[FAILED] " ++ e)).
Proof.
  intros Hi He. split.
  - by apply (server_batch_translate_from_raises translate_text its 0 i item e).
  - destruct (root_failure_isolated translate_text its i item e Hi He) as [-> _]. done.
Qed.

Lemma C2_server_failure_aborts_witness :
  Server.batch_translate second_call_fails
    [item_extracted 1 "one"; item_extracted 2 "two"; item_extracted 3 "three"]
  = None
  /\ map translate_content
       (Root.batch_translate second_call_fails
          [item_extracted 1 "one"; item_extracted 2 "two"; item_extracted 3 "three"])
     = [Some (str "T:one"); Some (str "[FAILED] timeout"); Some (str "T:three")].
Proof.
  split; [|reflexivity].
  apply (C2_server_failure_aborts second_call_fails _ 1%nat (item_extracted 2 "two")
           (str "timeout")); reflexivity.
Defined.

(** ** The bound on calls in flight *)

Lemma in_flight_insert (l : list (TaskState * DocumentItem)) i x y :
  l !! i = Some x ->
  (length (List.filter is_in_flight (<[i := y]> l))
   + (if is_in_flight x then 1 else 0)
   = length (List.filter is_in_flight l)
     + (if is_in_flight y then 1 else 0))%nat.
Proof.
  revert i. induction l as [|a l IH]; intros i Hi; [done|].
  destruct i as [|i]; simpl in *.
  - injection Hi as ->. destruct (is_in_flight x), (is_in_flight y); simpl; lia.
  - specialize (IH i Hi). destruct (is_in_flight a); simpl; lia.
Qed.

Section Bound.

Variable finish : nat -> DocumentItem -> DocumentItem.
Variable limit : Z.
Hypothesis limit_nonneg : 0 <= limit.

Lemma in_flight_start its : in_flight (start limit its) = 0.
Proof.
  unfold in_flight, start. simpl. induction its; simpl; [done|]. done.
Qed.

Lemma step_acquire_in_flight s s' :
  step finish s s' ->
  (0 < sem_value s /\ sem_value s' = sem_value s - 1
   /\ in_flight s' = in_flight s + 1)
  \/ (sem_value s' = sem_value s + 1 /\ in_flight s' = in_flight s - 1).
Proof.
  intros [s0 i item Hi Hpos|s0 i item Hi]; [left|right]; unfold in_flight;
    cbn [sem_value tasks].
  - pose proof (in_flight_insert _ i _ (InFlight, item) Hi) as H.
    change (is_in_flight (Waiting, item)) with false in H.
    change (is_in_flight (InFlight, item)) with true in H. cbv iota in H. lia.
  - pose proof (in_flight_insert _ i _ (Finished, finish i item) Hi) as H.
    change (is_in_flight (InFlight, item)) with true in H.
    change (is_in_flight (Finished, finish i item)) with false in H.
    cbv iota in H. lia.
Qed.

(** The slots taken and the slots free add up to the limit. *)
Lemma reachable_slots its s :
  reachable finish limit its s ->
  sem_value s + in_flight s = limit /\ 0 <= sem_value s.
Proof.
  induction 1 as [|s s' _ [IH1 IH2] Hstep].
  - rewrite in_flight_start. simpl. lia.
  - apply step_acquire_in_flight in Hstep. lia.
Qed.

Lemma reachable_bound its s :
  reachable finish limit its s ->
  in_flight s <= limit
  /\ (in_flight s = limit -> forall s', step finish s s' -> in_flight s' = limit - 1).
Proof.
  intros Hr. destruct (reachable_slots its s Hr) as [H1 H2]. split; [lia|].
  intros Hfull s' Hstep. apply step_acquire_in_flight in Hstep. lia.
Qed.

End Bound.

(** C9. In both services, in every state the translation stage can
    reach, whatever the number of items, at most [CONCURRENCY_LIMIT] calls
    are in flight; and when that many are in flight no task is admitted:
    the only step is the end of a call. *)
Theorem C9_concurrency_bound translate_text its s :
  (reachable (root_finish translate_text) Root.CONCURRENCY_LIMIT its s ->
   in_flight s <= Root.CONCURRENCY_LIMIT
   /\ (in_flight s = Root.CONCURRENCY_LIMIT ->
       forall s', step (root_finish translate_text) s s' ->
                  in_flight s' = Root.CONCURRENCY_LIMIT - 1))
  /\ (reachable (server_finish translate_text) Server.CONCURRENCY_LIMIT its s ->
      in_flight s <= Server.CONCURRENCY_LIMIT
      /\ (in_flight s = Server.CONCURRENCY_LIMIT ->
          forall s', step (server_finish translate_text) s s' ->
                     in_flight s' = Server.CONCURRENCY_LIMIT - 1)).
Proof.
  split; intros Hr; eapply reachable_bound; try exact Hr; done.
Qed.

Lemma C9_concurrency_bound_witness :
  in_flight two_in_flight = 2 /\ in_flight two_in_flight <= Root.CONCURRENCY_LIMIT.
Proof.
  split; [reflexivity|].
  apply (proj1 (C9_concurrency_bound second_call_fails three_items two_in_flight)).
  apply (reach_step _ _ _ one_in_flight).
  - apply (reach_step _ _ _ (start Root.CONCURRENCY_LIMIT three_items));
      [apply reach_start|].
    apply (step_acquire _ (start Root.CONCURRENCY_LIMIT three_items) 0%nat
             (item_extracted 1 "one")); [reflexivity|]. vm_compute. reflexivity.
  - apply (step_acquire _ one_in_flight 1%nat (item_extracted 2 "two"));
      [reflexivity|]. vm_compute. reflexivity.
Defined.

(** ** The scheduler and [batch_translate] *)

Lemma reachable_tasks finish limit its s :
  reachable finish limit its s ->
  forall i,
    tasks s !! i
    = (fun item => (Waiting, item)) <$> its !! i
    \/ tasks s !! i = (fun item => (InFlight, item)) <$> its !! i
    \/ tasks s !! i = (fun item => (Finished, finish i item)) <$> its !! i.
Proof.
  induction 1 as [|s s' _ IH Hstep]; intros j.
  - left. unfold start. simpl. apply list_lookup_fmap.
  - destruct Hstep as [s i item Hi _|s i item Hi]; simpl.
    + destruct (decide (i = j)) as [<-|Hne].
      * right. left. rewrite list_lookup_insert_eq by (by eapply lookup_lt_Some).
        destruct (IH i) as [E|[E|E]]; rewrite Hi in E;
          destruct (its !! i); simpl in E; by simplify_eq.
      * rewrite list_lookup_insert_ne by done. apply IH.
    + destruct (decide (i = j)) as [<-|Hne].
      * right. right. rewrite list_lookup_insert_eq by (by eapply lookup_lt_Some).
        destruct (IH i) as [E|[E|E]]; rewrite Hi in E;
          destruct (its !! i); simpl in E; by simplify_eq.
      * rewrite list_lookup_insert_ne by done. apply IH.
Qed.

(** When every task has finished, the items are those [batch_translate]
    of the top-level service computes, whatever the order of the steps. *)
Lemma reachable_finished translate_text limit its s :
  reachable (root_finish translate_text) limit its s ->
  Forall (fun t => t.1 = Finished) (tasks s) ->
  map snd (tasks s) = Root.batch_translate translate_text its.
Proof.
  intros Hr Hall. apply list_eq. intros i.
  rewrite list_lookup_fmap, root_batch_translate_lookup.
  destruct (reachable_tasks _ _ _ _ Hr i) as [E|[E|E]]; rewrite E;
    destruct (its !! i) as [item|] eqn:Ei; simpl; try done.
  - rewrite Forall_lookup in Hall. by specialize (Hall i _ E).
  - rewrite Forall_lookup in Hall. by specialize (Hall i _ E).
Qed.

(** ** The pipeline on a document *)

Example sample_extract :
  let '(template, its) := Root.extract sample_document in
  map (text_at (store template)) (visit_order template)
  = [str "2.1 {{ 1 }}"; str "   "; str "{{ 2 }}"; str "{{ 4 }}"; str "{{ 4 }}"]
  /\ map placeholder_number its = [1; 2; 3; 4]
  /\ map original_content its
     = [str "Introduction"; str "Hello"; str "cell"; str "{{ 3 }}"].
Proof. repeat split; reflexivity. Qed.

Lemma C3_round_trip_witness :
  document_has_token (Root.process_document numbered_translation sample_document) = false
  /\ map (text_at (store (Root.process_document numbered_translation sample_document)))
         (visit_order sample_document)
     = [str "2.1 texte 0"; str "   "; str "texte 1"; str "texte 3"; str "texte 3"].
Proof.
  split; [|reflexivity].
  apply (proj1 (C3_round_trip numbered_translation sample_document eq_refl)).
Defined.

(** ** The patterns on examples *)

Example ex_numbering_deep :
  match_numbering (str "2.3.10	  Scope of work")
  = Some (str "2.3.10	  ", str "Scope of work").
Proof. reflexivity. Qed.

Example ex_numbering_no_blank : match_numbering (str "2.1Introduction") = None.
Proof. reflexivity. Qed.

Example ex_numbering_double_dot : match_numbering (str "2..1 Introduction") = None.
Proof. reflexivity. Qed.

Example ex_numbering_line_feed_in_prefix :
  match_numbering (str "1" ++ line_feed ++ str "Title") = Some (str "1" ++ line_feed, str "Title").
Proof. reflexivity. Qed.

Example ex_numbering_second_line :
  match_numbering (str "1 Title" ++ line_feed ++ str "Subtitle") = None.
Proof. reflexivity. Qed.

Example ex_placeholder_tab :
  match_placeholder (str "{{	3}} and more") = Some (str "{{	3}}", str "3", str " and more").
Proof. reflexivity. Qed.

Example ex_placeholder_three_braces : match_placeholder (str "{{{ 3 }}") = None.
Proof. reflexivity. Qed.

Example ex_re_sub :
  re_sub (fun _ g1 => Some (str "<" ++ g1 ++ str ">")) (str "{{{ 3 }}} {{4}} {{ x }} {{ 5 }")
  = str "{<3>} <4> {{ x }} {{ 5 }".
Proof. reflexivity. Qed.

Example ex_str_replace :
  str_replace (str "{{ 1 }}") (str "un") (str "{{ 1 }}{{ 1 }} {{ 11 }} {{1}}")
  = str "unun {{ 11 }} {{1}}".
Proof. reflexivity. Qed.

(** ** The endpoints and the two variants of extraction *)

Lemma server_rewrite_text para t : paragraph_text (Server.rewrite_paragraph para t) = t.
Proof.
  unfold Server.rewrite_paragraph, add_run, paragraph_text. simpl.
  rewrite server_clear_paragraph_runs. simpl. apply app_nil_r.
Qed.

(** The server variant numbers a paragraph, records its content and
    writes its text as the top-level service does; the two differ in the
    font of the run they write. *)
Lemma server_process_paragraph_root p k h its :
  let r := Server.process_paragraph p k (h, its) in
  let r' := Root.process_paragraph p k (h, its) in
  r.1 = r'.1 /\ r.2.2 = r'.2.2 /\ text_at r.2.1 p = text_at r'.2.1 p.
Proof.
  cbn zeta. unfold Server.process_paragraph, Root.process_paragraph.
  destruct (is_nil (strip (paragraph_text (deref h p)))); [done|].
  destruct (match_numbering (strip (paragraph_text (deref h p)))) as [[np c]|];
    cbn [fst snd]; repeat split; unfold text_at;
    by rewrite !deref_insert, server_rewrite_text, root_rewrite_text.
Qed.

(** * Further properties of the services *)

(** ** Extraction, visit by visit *)

Lemma root_process_paragraph_full p k h its :
  blank h p = false ->
  Root.process_paragraph p k (h, its)
  = (k + 1,
     (<[p := Root.rewrite_paragraph (deref h p)
               (prefix_of (strip (text_at h p)) ++ placeholder k)]> h,
      its ++ [ {| placeholder_number := k;
                  original_content := content_of (strip (text_at h p));
                  translate_content := None |} ])).
Proof.
  unfold blank, text_at, prefix_of, content_of, Root.process_paragraph. intros ->.
  by destruct (match_numbering (strip (paragraph_text (deref h p)))) as [[??]|].
Qed.

Lemma blank_missing (h : gmap nat Paragraph) p : h !! p = None -> blank h p = true.
Proof. intros E. unfold blank, text_at, deref. by rewrite E. Qed.

Lemma with_text_cons h p ps :
  with_text h (p :: ps) = if blank h p then with_text h ps else p :: with_text h ps.
Proof. unfold with_text. simpl. by destruct (blank h p). Qed.

Lemma with_text_ext h h' ps :
  (forall q, blank h' q = blank h q) -> with_text h' ps = with_text h ps.
Proof. intros H. unfold with_text. apply List.filter_ext. intros q. by rewrite H. Qed.

Lemma with_text_In h ps q : In q (with_text h ps) <-> In q ps /\ blank h q = false.
Proof.
  unfold with_text. by rewrite filter_In, negb_true_iff.
Qed.

(** A paragraph the walk does not meet with text keeps its object as it
    is. *)
Lemma root_process_paragraphs_frame ps k h its q :
  ~ In q (with_text h ps) ->
  (Root.process_paragraphs ps (k, (h, its))).2.1 !! q = h !! q.
Proof.
  revert k h its. induction ps as [|p ps IH]; intros k h its Hq; [done|].
  rewrite root_process_paragraphs_cons. cbn [fst snd].
  rewrite with_text_cons in Hq. destruct (blank h p) eqn:Hb.
  - rewrite root_process_paragraph_blank by done. by apply IH.
  - rewrite root_process_paragraph_full by done.
    rewrite IH.
    + apply lookup_insert_ne. intros ->. apply Hq. by left.
    + rewrite (with_text_ext h).
      * intros Hin. apply Hq. by right.
      * intros q'. pose proof (root_process_paragraph_keeps_blank p k h its q') as E.
        by rewrite root_process_paragraph_full in E.
Qed.

Lemma root_process_paragraphs_dom ps k h its :
  dom (Root.process_paragraphs ps (k, (h, its))).2.1 = dom h.
Proof.
  revert k h its. induction ps as [|p ps IH]; intros k h its; [done|].
  rewrite root_process_paragraphs_cons. cbn [fst snd].
  destruct (blank h p) eqn:Hb.
  - rewrite root_process_paragraph_blank by done. apply IH.
  - rewrite root_process_paragraph_full by done. rewrite IH.
    rewrite dom_insert_L. destruct (h !! p) eqn:E.
    + apply elem_of_dom_2 in E.
      by apply subseteq_union_1_L, singleton_subseteq_l.
    + apply blank_missing in E. congruence.
Qed.

(** When no paragraph is met twice: the items, in order, hold what
    follows the prefix in the texts met, and each paragraph met with
    text holds its prefix and the token of its rank. *)
Lemma root_process_paragraphs_spec ps k h its :
  NoDup ps ->
  let r := Root.process_paragraphs ps (k, (h, its)) in
  r.2.2
  = its ++ imap (fun j q => {| placeholder_number := k + Z.of_nat j;
                               original_content := content_of (strip (text_at h q));
                               translate_content := None |})
                (with_text h ps)
  /\ (forall j q,
        with_text h ps !! j = Some q ->
        deref r.2.1 q
        = Root.rewrite_paragraph (deref h q)
            (prefix_of (strip (text_at h q)) ++ placeholder (k + Z.of_nat j))).
Proof.
  intros Hnd. revert k h its.
  induction Hnd as [|p ps Hp Hnd IH]; intros k h its; cbn zeta.
  - split; [by rewrite app_nil_r|done].
  - rewrite root_process_paragraphs_cons. cbn [fst snd].
    rewrite with_text_cons. destruct (blank h p) eqn:Hb.
    + rewrite root_process_paragraph_blank by done. apply IH.
    + rewrite root_process_paragraph_full by done.
      set (h1 := <[p := _]> h). set (its1 := its ++ _).
      assert (forall q, blank h1 q = blank h q) as Hk.
      { intros q. pose proof (root_process_paragraph_keeps_blank p k h its q) as E.
        by rewrite root_process_paragraph_full in E. }
      assert (forall q, In q ps -> deref h1 q = deref h q) as Hd.
      { intros q Hq. apply deref_insert_ne. intros ->.
        by apply Hp, list_elem_of_In. }
      destruct (IH (k + 1) h1 its1) as [E1 E2].
      rewrite (with_text_ext h h1 ps Hk) in E1, E2. split.
      * rewrite E1. unfold its1. rewrite <- app_assoc. f_equal. simpl. f_equal.
        { by rewrite Z.add_0_r. }
        apply imap_ext. intros j q Hj. simpl.
        assert (In q ps) as Hq.
        { apply list_elem_of_lookup_2 in Hj. apply list_elem_of_In, with_text_In in Hj. tauto. }
        unfold text_at. rewrite (Hd q Hq). f_equal. lia.
      * intros [|j] q Hj; simpl in Hj.
        -- injection Hj as <-.
           unfold deref at 1. rewrite root_process_paragraphs_frame.
           ++ unfold h1. rewrite lookup_insert_eq. simpl. by rewrite Z.add_0_r.
           ++ intros [Hin _]%with_text_In. by apply Hp, list_elem_of_In.
        -- assert (In q ps) as Hq.
           { apply list_elem_of_lookup_2 in Hj. apply list_elem_of_In, with_text_In in Hj. tauto. }
           rewrite (E2 j q Hj). unfold text_at. rewrite (Hd q Hq).
           do 3 f_equal. lia.
Qed.

(** ** Reassembly, visit by visit *)

Lemma root_fill_paragraph_fill_one p cm h :
  deref (Root.process_fill_paragraph p cm h) p = fill_one cm (deref h p).
Proof.
  unfold fill_one. fold (text_at h p). fold (blank h p).
  destruct (blank h p) eqn:Hb.
  - by rewrite root_fill_paragraph_blank.
  - by rewrite root_fill_paragraph_text, deref_insert.
Qed.

Lemma root_fill_paragraph_lookup_ne p cm (h : gmap nat Paragraph) q :
  p <> q -> Root.process_fill_paragraph p cm h !! q = h !! q.
Proof.
  intros Hne. destruct (blank h p) eqn:Hb.
  - by rewrite root_fill_paragraph_blank.
  - by rewrite root_fill_paragraph_text, lookup_insert_ne.
Qed.

(** A paragraph reassembly does not meet with text keeps its object. *)
Lemma root_fill_paragraphs_frame ps cm h q :
  ~ In q (with_text h ps) -> Root.fill_paragraphs ps cm h !! q = h !! q.
Proof.
  revert h. induction ps as [|p ps IH]; intros h Hq; [done|].
  rewrite root_fill_paragraphs_cons. rewrite with_text_cons in Hq.
  destruct (blank h p) eqn:Hb.
  - rewrite root_fill_paragraph_blank by done. by apply IH.
  - assert (p <> q) as Hne by (intros ->; apply Hq; by left).
    rewrite IH; [by apply root_fill_paragraph_lookup_ne|].
    intros [Hin Hbq]%with_text_In. apply Hq. right. apply with_text_In.
    split; [done|]. unfold blank, text_at, deref in *.
    by rewrite root_fill_paragraph_lookup_ne in Hbq.
Qed.

Lemma root_fill_paragraphs_notin ps cm h q :
  ~ In q ps -> Root.fill_paragraphs ps cm h !! q = h !! q.
Proof.
  intros Hq. apply root_fill_paragraphs_frame. by intros [? _]%with_text_In.
Qed.

Lemma root_fill_paragraphs_dom ps cm h :
  dom (Root.fill_paragraphs ps cm h) = dom h.
Proof.
  revert h. induction ps as [|p ps IH]; intros h; [done|].
  rewrite root_fill_paragraphs_cons, IH. destruct (blank h p) eqn:Hb.
  - by rewrite root_fill_paragraph_blank.
  - rewrite root_fill_paragraph_text by done. rewrite dom_insert_L.
    destruct (h !! p) eqn:E.
    + apply elem_of_dom_2 in E.
      by apply subseteq_union_1_L, singleton_subseteq_l.
    + apply blank_missing in E. congruence.
Qed.

(** When no paragraph is met twice, each paragraph met is rewritten once,
    from the text it had in the template. *)
Lemma root_fill_paragraphs_spec ps cm h q :
  NoDup ps -> In q ps ->
  deref (Root.fill_paragraphs ps cm h) q = fill_one cm (deref h q).
Proof.
  intros Hnd. revert h. induction Hnd as [|p ps Hp Hnd IH]; intros h Hq; [done|].
  rewrite root_fill_paragraphs_cons. destruct Hq as [->|Hq].
  - unfold deref at 1. rewrite root_fill_paragraphs_notin.
    + apply root_fill_paragraph_fill_one.
    + intros Hin. by apply Hp, list_elem_of_In.
  - rewrite IH by done. f_equal. unfold deref.
    rewrite root_fill_paragraph_lookup_ne; [done|].
    intros ->. by apply Hp, list_elem_of_In.
Qed.

(** ** The pipeline, paragraph by paragraph *)

Lemma prefix_of_template s k : template_text k (prefix_of s ++ placeholder k).
Proof.
  exists (prefix_of s). split; [done|]. unfold prefix_of.
  destruct (match_numbering s) as [[np c]|] eqn:E; [|done].
  apply match_numbering_inv in E as ((c0 & t & -> & Hc) & Hnl & _).
  split; [done|]. simpl. by apply digit_not_space.
Qed.

Lemma root_translate_item_outcome call item :
  translate_content (Root.translate_item call item)
  = Some (outcome_text (call (original_content item))).
Proof. unfold Root.translate_item, outcome_text. by destruct (call _). Qed.

(** The paragraph object after extraction, translation and reassembly,
    when no paragraph is met twice: it has been rewritten twice, first
    with its token, then with what the call for its item gave. *)
Lemma root_pipeline_object translate_text doc j q :
  NoDup (visit_order doc) ->
  with_text (store doc) (visit_order doc) !! j = Some q ->
  let s := strip (text_at (store doc) q) in
  deref (store (Root.process_document translate_text doc)) q
  = Root.rewrite_paragraph
      (Root.rewrite_paragraph (deref (store doc) q)
         (prefix_of s ++ placeholder (1 + Z.of_nat j)))
      (prefix_of s ++ outcome_text (translate_text j (content_of s))).
Proof.
  intros Hnd Hj s. unfold Root.process_document.
  pose proof (root_extract_numbers doc) as Hnum.
  rewrite root_extract_flat in Hnum |- *. cbn zeta in *.
  destruct (root_process_paragraphs_spec (visit_order doc) 1 (store doc) [] Hnd)
    as [Hits Hst].
  destruct (Root.process_paragraphs (visit_order doc) (1, (store doc, [])))
    as [k1 [ht its]]. cbn [fst snd] in *.
  rewrite root_fill_flat. cbn [store]. unfold visit_order at 1. cbn [paragraphs tables].
  fold (visit_order doc).
  assert (In q (visit_order doc)) as Hq.
  { apply list_elem_of_lookup_2 in Hj. apply list_elem_of_In, with_text_In in Hj. tauto. }
  rewrite root_fill_paragraphs_spec by done.
  rewrite (Hst j q Hj). unfold fill_one. fold s.
  set (m := 1 + Z.of_nat j).
  pose proof (prefix_of_template s m) as Ht.
  rewrite !root_rewrite_text, (template_text_strip _ _ Ht).
  rewrite (proj2 (is_nil_false _) (template_text_nonempty _ _ Ht)).
  destruct (re_sub_template
              (Root.lookup_token
                 (Root.build_content_map (Root.batch_translate translate_text its)))
              m _ ltac:(lia) Ht) as (np & Enp & _ & ->).
  apply app_inv_tail in Enp. rewrite <- Enp. do 2 f_equal.
  unfold Root.lookup_token. rewrite int_of_text_str.
  set (item := {| placeholder_number := m; original_content := content_of s;
                  translate_content := None |}).
  assert (its !! j = Some item) as Hitem.
  { rewrite Hits. simpl. rewrite list_lookup_imap, Hj. done. }
  assert (Root.batch_translate translate_text its !! j
          = Some (Root.translate_item (translate_text j) item)) as Hb.
  { by rewrite root_batch_translate_lookup, Hitem. }
  assert (Root.build_content_map (Root.batch_translate translate_text its) !! m
          = Some (translate_content (Root.translate_item (translate_text j) item)))
    as Hl.
  { pose proof (build_content_map_item
                  (Root.batch_translate translate_text its)
                  (Root.translate_item (translate_text j) item)) as H.
    rewrite root_translate_item_number in H. apply H.
    - rewrite root_batch_translate_numbers, Hnum. apply NoDup_seqZ.
    - apply list_elem_of_In. by apply list_elem_of_lookup_2 in Hb. }
  by rewrite Hl, root_translate_item_outcome.
Qed.

(** ** Trimmed texts and the numbering pattern *)

Lemma strip_stops_rev s : stops is_space (rev (strip s)).
Proof. unfold strip, rstrip. rewrite rev_involutive. apply lstrip_stops. Qed.

Lemma strip_stops s : stops is_space (strip s).
Proof.
  destruct (rstrip_eq (lstrip s)) as (w & E & _).
  change (rstrip (lstrip s)) with (strip s) in E.
  pose proof (lstrip_stops s) as H. rewrite E in H.
  by destruct (strip s).
Qed.

Lemma newline_space c : is_newline c = true -> is_space c = true.
Proof. unfold is_newline. by intros ->%Ascii.eqb_eq. Qed.

Lemma stops_rev_snoc {A} (f : A -> bool) (l : list A) x :
  stops f (rev (l ++ [x])) -> f x = false.
Proof. by rewrite rev_app_distr. Qed.

Lemma stops_rev_app {A} (f : A -> bool) (a b : list A) :
  b <> [] -> stops f (rev (a ++ b)) -> stops f (rev b).
Proof.
  intros Hb. rewrite rev_app_distr. destruct (rev b) eqn:E; [|done].
  apply (f_equal (@rev A)) in E. rewrite rev_involutive in E. done.
Qed.

Lemma stops_rev_spaces (w : text) : w <> [] -> forallb is_space w = true -> ~ stops is_space (rev w).
Proof.
  intros Hne Hw H. destruct (rev w) as [|y t] eqn:E.
  - apply (f_equal (@rev ascii)) in E. rewrite rev_involutive in E. done.
  - simpl in H. rewrite forallb_forall in Hw.
    rewrite Hw in H; [done|]. apply in_rev. rewrite E. by left.
Qed.

Lemma dotted_groups_shape fuel s g r :
  dotted_groups fuel s = (g, r) ->
  exists gs, g = concat (map (fun g => "."%char :: g) gs) /\ Forall digits gs.
Proof.
  revert s g r. induction fuel as [|fuel IH]; intros s g r; simpl.
  - intros [= <- <-]. by exists [].
  - destruct s as [|c s]; [intros [= <- <-]; by exists []|].
    destruct (Ascii.eqb c ".") eqn:Ec; [|intros [= <- <-]; by exists []].
    destruct (span is_digit s) as [d r0] eqn:Sd.
    destruct (is_nil d) eqn:Ed; [intros [= <- <-]; by exists []|].
    destruct (dotted_groups fuel r0) as [g' r'] eqn:Eg. intros [= <- <-].
    apply IH in Eg as (gs & -> & Hgs). apply span_inv in Sd as (_ & Hd & _).
    apply Ascii.eqb_eq in Ec as ->.
    exists (d :: gs). split; [done|]. constructor; [|done].
    split; [done|]. by apply is_nil_false.
Qed.

(** What a match of the numbering pattern says about the text. *)
Lemma match_numbering_elim s number_part content :
  match_numbering s = Some (number_part, content) ->
  numbering_prefix number_part
  /\ stops is_space content
  /\ forallb (fun c => negb (is_newline c)) content = true
  /\ (s = number_part ++ content
      \/ exists c, s = number_part ++ content ++ [c] /\ is_newline c = true).
Proof.
  rewrite match_numbering_backtrack. unfold match_numbering_det.
  destruct (span is_digit s) as [d r] eqn:Sd.
  destruct (is_nil d) eqn:Ed; [done|].
  destruct (dotted_groups (length r) r) as [g r1] eqn:Eg.
  destruct (span is_space r1) as [w r2] eqn:Sw.
  destruct (is_nil w) eqn:Ew; [done|].
  unfold match_rest_of_line.
  destruct (span (fun c => negb (is_newline c)) r2) as [body tl] eqn:Sb.
  apply span_inv in Sd as (-> & Hd & _).
  pose proof (dotted_groups_shape _ _ _ _ Eg) as (gs & Egs & Hgs).
  apply dotted_groups_inv in Eg as [-> _].
  apply span_inv in Sw as (-> & Hw & Hr2).
  apply span_inv in Sb as (-> & Hbody & Htl).
  assert (numbering_prefix (d ++ g ++ w)) as Hnp.
  { exists d, gs, w. rewrite <- Egs. repeat split; try done.
    - by apply is_nil_false.
    - by apply is_nil_false. }
  destruct tl as [|n [|n' tl]]; [| |done]; intros [= <- <-].
  - rewrite app_nil_r in *. repeat split; try done. left. by rewrite <- !app_assoc.
  - simpl in Htl. apply negb_false_iff in Htl.
    repeat split; try done.
    + destruct body; [|done]. simpl in Hr2. by rewrite (newline_space _ Htl) in Hr2.
    + right. exists n. split; [|done]. by rewrite <- !app_assoc.
Qed.

(** On a text that does not end in a blank the numbering pattern splits
    without loss, and the content is a trimmed text that is not empty. *)
Lemma numbering_split_trimmed s number_part content :
  stops is_space (rev s) ->
  match_numbering s = Some (number_part, content) ->
  s = number_part ++ content /\ content <> [] /\ strip content = content.
Proof.
  intros Hs (Hnp & Hc & _ & [E | (c & E & Hnl)])%match_numbering_elim.
  - assert (content <> []) as Hne.
    { intros ->. rewrite app_nil_r in E. subst s.
      destruct Hnp as (d & gs & w & -> & _ & _ & Hw & Hwne).
      rewrite app_assoc in Hs. apply stops_rev_app in Hs; [|done].
      by apply stops_rev_spaces in Hs. }
    split; [done|]. split; [done|]. apply strip_id; [done|].
    subst s. by apply stops_rev_app in Hs.
  - subst s. rewrite app_assoc in Hs. apply stops_rev_snoc in Hs.
    by rewrite (newline_space _ Hnl) in Hs.
Qed.

Lemma prefix_content_trimmed s :
  s <> [] -> stops is_space s -> stops is_space (rev s) ->
  prefix_of s ++ content_of s = s
  /\ content_of s <> [] /\ strip (content_of s) = content_of s.
Proof.
  intros Hne H1 H2. unfold prefix_of, content_of.
  destruct (match_numbering s) as [[np c]|] eqn:E.
  - apply numbering_split_trimmed in E as (-> & ? & ?); done.
  - split; [done|]. split; [done|]. by apply strip_id.
Qed.

Lemma prefix_content_strip x :
  strip x <> [] ->
  prefix_of (strip x) ++ content_of (strip x) = strip x
  /\ content_of (strip x) <> []
  /\ strip (content_of (strip x)) = content_of (strip x).
Proof.
  intros H. apply prefix_content_trimmed; [done|apply strip_stops|apply strip_stops_rev].
Qed.

(** ** The top-level pipeline as a whole *)




(** X3.  A paragraph the walk never meets with text, because it is
    blank or because it is in neither the body nor a table cell, is the
    same object after the pipeline. *)
Theorem root_pipeline_frame translate_text doc q :
  ~ In q (with_text (store doc) (visit_order doc)) ->
  store (Root.process_document translate_text doc) !! q = store doc !! q.
Proof.
  intros Hq. unfold Root.process_document.
  rewrite root_extract_flat. cbn zeta.
  pose proof (root_process_paragraphs_numbers (visit_order doc) 1 (store doc) [])
    as (_ & _ & Hblank).
  pose proof (root_process_paragraphs_frame (visit_order doc) 1 (store doc) [] q Hq)
    as Hframe.
  destruct (Root.process_paragraphs (visit_order doc) (1, (store doc, [])))
    as [k1 [ht its]]. cbn [fst snd] in *.
  rewrite root_fill_flat. cbn [store]. unfold visit_order at 1. cbn [paragraphs tables].
  fold (visit_order doc).
  rewrite root_fill_paragraphs_frame; [done|].
  by rewrite (with_text_ext (store doc) ht).
Qed.

Lemma root_pipeline_frame_witness :
  store (Root.process_document numbered_translation sample_document) !! 1%nat
  = Some {| runs := [ plain_run "   " ] |}.
Proof.
  rewrite (root_pipeline_frame numbered_translation sample_document 1); [reflexivity|].
  vm_compute. intros [H|[H|[H|[H|[]]]]]; discriminate H.
Defined.

(** ** Formatting through the top-level pipeline *)

Lemma root_rewrite_twice para source_run rest t1 t2 :
  runs para = source_run :: rest ->
  runs (Root.rewrite_paragraph (Root.rewrite_paragraph para t1) t2)
  = [ {| run_text := t2;
         run_font :=
           {| font_name := font_name (run_font source_run);
              font_size := if size_truthy (font_size (run_font source_run))
                           then (fun s => Pt (Pt s)) <$> font_size (run_font source_run)
                           else None;
              font_bold := font_bold (run_font source_run);
              font_italic := font_italic (run_font source_run);
              font_color_rgb := font_color_rgb (run_font source_run) |} |} ].
Proof.
  intros E. unfold Root.rewrite_paragraph, Root.capture_style, add_run, clear.
  rewrite E. simpl.
  destruct source_run as [t [name [s|] bold italic [c|]]]; simpl; try done.
  all: destruct (s =? 0) eqn:Es; simpl; [done|].
  all: apply Z.eqb_neq in Es; unfold Pt.
  all: destruct (s * 12700 =? 0) eqn:Es'; [apply Z.eqb_eq in Es'; lia|done].
Qed.

(** ** What extraction hands to the translation stage *)

Lemma root_process_paragraphs_app a b acc :
  Root.process_paragraphs (a ++ b) acc
  = Root.process_paragraphs b (Root.process_paragraphs a acc).
Proof. unfold Root.process_paragraphs. apply foldl_app. Qed.

Lemma root_process_paragraphs_contents (P : DocumentItem -> Prop) ps k h its :
  (forall n x, strip x <> [] ->
               P {| placeholder_number := n; original_content := content_of (strip x);
                    translate_content := None |}) ->
  Forall P its -> Forall P (Root.process_paragraphs ps (k, (h, its))).2.2.
Proof.
  intros HP. revert k h its. induction ps as [|p ps IH]; intros k h its Hits; [done|].
  rewrite root_process_paragraphs_cons. cbn [fst snd].
  destruct (blank h p) eqn:Hb.
  - rewrite root_process_paragraph_blank by done. by apply IH.
  - rewrite root_process_paragraph_full by done. apply IH.
    apply Forall_app. split; [done|]. constructor; [|done].
    apply HP. unfold blank in Hb. by apply is_nil_false.
Qed.

(** X6.  No item of extraction has an empty content or a content with
    blanks at either end, and none has a translation yet: what goes to the
    translation service is a trimmed text that is not empty. *)
Theorem root_extract_contents doc :
  Forall (fun item => original_content item <> []
                      /\ strip (original_content item) = original_content item
                      /\ translate_content item = None)
         (Root.extract doc).2.
Proof.
  rewrite root_extract_flat. cbn zeta. cbn [snd].
  apply root_process_paragraphs_contents; [|done].
  intros n x Hx. simpl. destruct (prefix_content_strip x Hx) as (_ & ? & ?). done.
Qed.



(** ** A paragraph met twice *)

Lemma digit_not_newline c : is_digit c = true -> negb (is_newline c) = true.
Proof.
  intros H. destruct (is_newline c) eqn:E; [|done].
  apply Ascii.eqb_eq in E. by subst c.
Qed.

Lemma placeholder_no_newline k :
  0 <= k -> forallb (fun c => negb (is_newline c)) (placeholder k) = true.
Proof.
  intros Hk. unfold placeholder. rewrite !forallb_app.
  rewrite (forallb_imp is_digit _ _ digit_not_newline (str_of_int_digits k Hk)).
  done.
Qed.

Lemma prefix_of_cases s : prefix_of s = [] \/ numbering_prefix (prefix_of s).
Proof.
  unfold prefix_of. destruct (match_numbering s) as [[np c]|] eqn:E; [|by left].
  right. by apply match_numbering_elim in E as [? _].
Qed.

Lemma split_template number_part k :
  0 <= k -> number_part = [] \/ numbering_prefix number_part ->
  content_of (number_part ++ placeholder k) = placeholder k
  /\ prefix_of (number_part ++ placeholder k) = number_part.
Proof.
  intros Hk [-> | Hnp]; unfold content_of, prefix_of.
  - assert (match_numbering (placeholder k) = None) as E
      by (by rewrite match_numbering_backtrack).
    simpl. by rewrite E.
  - rewrite match_numbering_intro; [done|done|done|by apply placeholder_no_newline].
Qed.

(** A template text is split again into the same prefix and its token. *)
Lemma content_of_template s k :
  0 <= k ->
  content_of (prefix_of s ++ placeholder k) = placeholder k
  /\ prefix_of (prefix_of s ++ placeholder k) = prefix_of s.
Proof. intros Hk. apply split_template; [done|apply prefix_of_cases]. Qed.

Lemma root_process_paragraphs_grow ps k h its :
  exists more, (Root.process_paragraphs ps (k, (h, its))).2.2 = its ++ more.
Proof.
  revert k h its. induction ps as [|p ps IH]; intros k h its.
  - exists []. by rewrite app_nil_r.
  - rewrite root_process_paragraphs_cons. cbn [fst snd].
    destruct (blank h p) eqn:Hb.
    + rewrite root_process_paragraph_blank by done. apply IH.
    + rewrite root_process_paragraph_full by done.
      edestruct IH as [more E]. rewrite E. eexists. by rewrite <- app_assoc.
Qed.

Lemma root_process_paragraphs_twice a q b c k h its :
  0 <= k -> ~ In q b -> blank h q = false ->
  exists m, k <= m
    /\ In (placeholder m)
          (map original_content
             (Root.process_paragraphs (a ++ q :: b ++ q :: c) (k, (h, its))).2.2).
Proof.
  intros Hk Hq Hb.
  rewrite root_process_paragraphs_app.
  pose proof (root_process_paragraphs_numbers a k h its) as (Hk1 & _ & Hbl).
  pose proof (count_with_text_nonneg h a) as Hcount.
  destruct (Root.process_paragraphs a (k, (h, its))) as [k1 [h1 its1]].
  cbn [fst snd] in *.
  rewrite root_process_paragraphs_cons. cbn [fst snd].
  rewrite root_process_paragraph_full by (by rewrite Hbl).
  rewrite root_process_paragraphs_app.
  set (t := prefix_of (strip (text_at h1 q)) ++ placeholder k1).
  set (h2 := <[q := Root.rewrite_paragraph (deref h1 q) t]> h1).
  set (its2 := its1 ++ _).
  pose proof (root_process_paragraphs_frame b (k1 + 1) h2 its2 q) as Hfr.
  destruct (Root.process_paragraphs b (k1 + 1, (h2, its2))) as [k3 [h3 its3]].
  cbn [fst snd] in *.
  assert (text_at h3 q = t) as Ht.
  { unfold text_at, deref. rewrite Hfr by (by intros [? _]%with_text_In).
    unfold h2. rewrite lookup_insert_eq. simpl. apply root_rewrite_text. }
  assert (0 <= k1) as Hk1' by lia.
  pose proof (prefix_of_template (strip (text_at h1 q)) k1) as Htt. fold t in Htt.
  rewrite root_process_paragraphs_cons. cbn [fst snd].
  rewrite root_process_paragraph_full.
  2:{ unfold blank. rewrite Ht, (template_text_strip _ _ Htt).
      apply is_nil_false, (template_text_nonempty _ _ Htt). }
  rewrite Ht, (template_text_strip _ _ Htt).
  destruct (content_of_template (strip (text_at h1 q)) k1 Hk1') as [Ec _].
  fold t in Ec. rewrite Ec.
  edestruct root_process_paragraphs_grow as [more E]. rewrite E.
  exists k1. split; [lia|]. rewrite !map_app. simpl.
  apply in_or_app. left. apply in_or_app. right. by left.
Qed.

(** X8.  A paragraph with text that the walk meets twice, as the
    paragraph of a merged table cell is, gives an item whose content is
    not text of the document but a token extraction wrote at the earlier
    visit: a token is sent to the translation service. *)
Theorem root_extract_merged_cell doc l1 q l2 l3 :
  visit_order doc = l1 ++ q :: l2 ++ q :: l3 ->
  blank (store doc) q = false ->
  exists k, 1 <= k /\ In (placeholder k) (map original_content (Root.extract doc).2).
Proof.
  intros E Hb.
  assert (exists a b c, visit_order doc = a ++ q :: b ++ q :: c /\ ~ In q b)
    as (a & b & c & E' & Hq).
  { destruct (decide (q ∈ l2)) as [Hin|Hnin].
    - apply list_elem_of_split_r in Hin as (u & v & -> & Hv).
      exists (l1 ++ q :: u), v, l3. split.
      + rewrite E. by rewrite <- !app_assoc.
      + by rewrite <- list_elem_of_In.
    - exists l1, l2, l3. split; [done|]. by rewrite <- list_elem_of_In. }
  rewrite root_extract_flat. cbn zeta. cbn [snd]. rewrite E'.
  apply root_process_paragraphs_twice; [lia|done|done].
Qed.

Lemma root_extract_merged_cell_witness :
  exists k, 1 <= k
    /\ In (placeholder k) (map original_content (Root.extract sample_document).2).
Proof.
  apply (root_extract_merged_cell sample_document [0; 1; 2]%nat 3%nat [] []);
    reflexivity.
Defined.

(** ** The translation stage and the dictionary of reassembly *)

Lemma root_translate_item_again call call' item :
  Root.translate_item call (Root.translate_item call' item)
  = Root.translate_item call item.
Proof.
  unfold Root.translate_item.
  destruct (call' (original_content item)); simpl;
    by destruct (call (original_content item)).
Qed.

(** X9.  The translation stage reads nothing of an item but its
    content: run over items that went through it already, it leaves what
    it leaves on the untouched items; earlier translations and failure
    markers are overwritten. *)
Theorem root_batch_translate_again translate_text translate_text' its :
  Root.batch_translate translate_text (Root.batch_translate translate_text' its)
  = Root.batch_translate translate_text its.
Proof.
  apply list_eq. intros i. rewrite !root_batch_translate_lookup.
  destruct (its !! i) as [item|]; [|done]. simpl.
  by rewrite root_translate_item_again.
Qed.

(** X10.  The dictionary of reassembly gives for a number the
    translation of the last item that has the number, and nothing for a
    number no item has. *)
Theorem build_content_map_last its k :
  Root.build_content_map its !! k
  = translate_content
      <$> last (List.filter (fun item => placeholder_number item =? k) its).
Proof.
  induction its as [|item its IH] using rev_ind; [done|].
  rewrite build_content_map_snoc, List.filter_app. simpl.
  destruct (placeholder_number item =? k) eqn:E.
  - apply Z.eqb_eq in E. subst k. by rewrite lookup_insert_eq, last_snoc.
  - apply Z.eqb_neq in E. rewrite lookup_insert_ne by done. by rewrite app_nil_r.
Qed.

(** ** The numbering pattern on trimmed texts *)

(** X12.  On a text that does not end in a blank, as every trimmed text,
    the numbering pattern matches exactly when the text is a numbering
    prefix followed by a rest that starts with no blank and holds no line
    feed; prefix and rest are then the two groups. *)
Theorem match_numbering_trimmed s number_part content :
  stops is_space (rev s) ->
  match_numbering s = Some (number_part, content)
  <-> s = number_part ++ content
      /\ numbering_prefix number_part
      /\ stops is_space content
      /\ forallb (fun c => negb (is_newline c)) content = true.
Proof.
  intros Hs. split.
  - intros E. destruct (numbering_split_trimmed _ _ _ Hs E) as (-> & _ & _).
    apply match_numbering_elim in E as (? & ? & ? & _). done.
  - intros (-> & Hnp & Hc & Hnl). by apply match_numbering_intro.
Qed.

Lemma match_numbering_trimmed_witness :
  str "2.1 Intro" = str "2.1 " ++ str "Intro" /\ numbering_prefix (str "2.1 ").
Proof.
  assert (match_numbering (str "2.1 Intro") = Some (str "2.1 ", str "Intro")) as E
    by reflexivity.
  apply (match_numbering_trimmed (str "2.1 Intro") (str "2.1 ") (str "Intro")) in E.
  - tauto.
  - vm_compute. reflexivity.
Defined.

(** * The service under [server/] *)

(** ** Extraction *)

Lemma text_at_insert (h : gmap nat Paragraph) p q x :
  text_at (<[p := x]> h) q = if decide (p = q) then paragraph_text x else text_at h q.
Proof.
  unfold text_at. destruct (decide (p = q)) as [->|Hne].
  - by rewrite deref_insert.
  - by rewrite deref_insert_ne.
Qed.

(** ** Formatting in the server variant *)

Lemma server_clear_paragraph_eq para : Server.clear_paragraph para = clear para.
Proof.
  pose proof (server_clear_paragraph_runs para) as H.
  destruct (Server.clear_paragraph para) as [l]. simpl in H. by subst l.
Qed.

(** X14.  [clear_paragraph], which removes the runs one by one from the
    last to the first, leaves what [paragraph.clear()] leaves, a paragraph
    without runs; so the two services rewrite a paragraph alike but for
    the style they give the new run. *)
Theorem server_clear_paragraph_clear para t :
  Server.clear_paragraph para = clear para
  /\ Server.rewrite_paragraph para t
     = add_run (clear para) t (Server.styled_font (Server.capture_style para))
  /\ Root.rewrite_paragraph para t
     = add_run (clear para) t (Root.styled_font (Root.capture_style para)).
Proof.
  split; [apply server_clear_paragraph_eq|]. split; [|done].
  unfold Server.rewrite_paragraph. by rewrite server_clear_paragraph_eq.
Qed.

Lemma size_or_truthy x d : d <> 0 -> size_truthy (Some (Server.size_or x d)) = true.
Proof.
  intros Hd. unfold Server.size_or. destruct x as [s|]; simpl.
  - destruct (s =? 0) eqn:E; simpl.
    + by apply negb_true_iff, Z.eqb_neq.
    + by rewrite E.
  - by apply negb_true_iff, Z.eqb_neq.
Qed.

Lemma size_or_again x d : d <> 0 -> Server.size_or (Some (Server.size_or x d)) d = Server.size_or x d.
Proof.
  intros Hd. unfold Server.size_or at 1. by rewrite size_or_truthy.
Qed.

Lemma text_or_again x d : d <> [] -> Server.text_or (Some (Server.text_or x d)) d = Server.text_or x d.
Proof.
  intros Hd. destruct x as [[|c t]|]; simpl; by destruct d.
Qed.

(** X15.  In the server variant a second rewrite of a paragraph keeps
    the font of the first: the style captured from the rewritten run is
    the style that was written into it, size included. *)
Theorem server_rewrite_again para run0 rest t1 t2 :
  runs para = run0 :: rest ->
  Server.rewrite_paragraph (Server.rewrite_paragraph para t1) t2
  = Server.rewrite_paragraph para t2.
Proof.
  intros E. unfold Server.rewrite_paragraph, Server.capture_style.
  rewrite !server_clear_paragraph_eq, E.
  cbn -[Server.text_or Server.size_or Pt str].
  rewrite text_or_again, size_or_again by done.
  by destruct (font_color_rgb (run_font run0)).
Qed.

Lemma server_rewrite_again_witness :
  Server.rewrite_paragraph (Server.rewrite_paragraph two_runs (str "{{ 1 }}")) (str "{{ 2 }}")
  = Server.rewrite_paragraph two_runs (str "{{ 2 }}").
Proof.
  apply (server_rewrite_again two_runs
           {| run_text := str "Hel"; run_font := bold_red_12pt |}
           [ {| run_text := str "lo"; run_font := default_font |} ]).
  reflexivity.
Defined.

(** ** The translation stage of the server variant *)

Lemma server_translate_root call item item' :
  Server.translate call item = Some item'
  <-> (exists t, call (original_content item) = Returns t)
      /\ item' = Root.translate_item call item.
Proof.
  unfold Server.translate, Root.translate_item.
  destruct (call (original_content item)) as [t|e]; split.
  - intros [= <-]. eauto.
  - by intros [_ ->].
  - done.
  - by intros [[t [=]] _].
Qed.

Lemma server_batch_translate_from_spec k translate_text its l :
  Server.batch_translate_from k translate_text its = Some l
  <-> (forall i item, its !! i = Some item ->
         exists t, translate_text (k + i)%nat (original_content item) = Returns t)
      /\ l = imap (fun i item => Root.translate_item (translate_text (k + i)%nat) item) its.
Proof.
  revert k l. induction its as [|item its IH]; intros k l; simpl.
  - split; [by intros [= <-]|by intros [_ ->]].
  - destruct (Server.translate (translate_text k) item) as [item'|] eqn:E.
    + apply server_translate_root in E as [Hret ->].
      destruct (Server.batch_translate_from (S k) translate_text its) as [rest|] eqn:Er.
      * apply IH in Er as [Hall ->]. split.
        -- intros [= <-]. split.
           ++ intros [|i] it Hi; simpl in Hi.
              ** injection Hi as <-. by rewrite Nat.add_0_r.
              ** rewrite Nat.add_succ_r. by apply Hall.
           ++ rewrite Nat.add_0_r. f_equal. apply imap_ext. intros i it _. simpl.
              by rewrite Nat.add_succ_r.
        -- intros [_ ->]. rewrite Nat.add_0_r. do 2 f_equal.
           apply imap_ext. intros i it _. simpl. by rewrite Nat.add_succ_r.
      * split; [done|]. intros [Hall _].
        assert (exists rest, Server.batch_translate_from (S k) translate_text its = Some rest)
          as [rest Hrest]; [|congruence].
        eexists. apply IH. split; [|done]. intros i it Hi.
        specialize (Hall (S i) it Hi). by rewrite Nat.add_succ_r in Hall.
    + split; [done|]. intros [Hall _].
      destruct (Hall 0%nat item eq_refl) as [t Ht]. rewrite Nat.add_0_r in Ht.
      unfold Server.translate in E. by rewrite Ht in E.
Qed.

(** X16.  The translation stage of the server variant completes exactly
    when every call returns, and then leaves the items as the stage of the
    top-level service leaves them. *)
Theorem server_batch_translate_root translate_text its l :
  Server.batch_translate translate_text its = Some l
  <-> all_return translate_text its /\ l = Root.batch_translate translate_text its.
Proof. apply (server_batch_translate_from_spec 0). Qed.

(** ** Reassembly in the server variant *)

Lemma server_fill_text_absent its t : occurs its t = false -> Server.fill_text its t = t.
Proof.
  induction its as [|item its IH]; [done|]. intros H.
  cbn [occurs existsb] in H. apply orb_false_elim in H as [H1 H2].
  rewrite server_fill_text_cons. unfold Server.fill_step. rewrite H1. by apply IH.
Qed.

Lemma str_replace_no_lbrace old new s :
  braced old -> no_lbrace s -> str_replace old new s = s.
Proof.
  intros Hold Hs. rewrite str_replace_scan by (by apply braced_nonempty).
  rewrite <- (app_nil_r s) at 1.
  rewrite scan_copy;
    [by rewrite app_nil_r|by apply replace_matcher_consuming, braced_nonempty|].
  intros u1 u2 c ->. unfold replace_matcher.
  rewrite starts_with_lbrace; [done|done|]. by apply no_lbrace_middle in Hs.
Qed.

(** X20.  The item loop of the server variant scans again what it has
    written: when the translation of one item is the token of a later
    item, the later item's translation takes its place. *)
Theorem server_fill_text_rescans item_a item_b tb pre post :
  translate_content item_a = Some (placeholder (placeholder_number item_b)) ->
  translate_content item_b = Some tb ->
  no_lbrace pre -> no_lbrace post ->
  Server.fill_text [item_a; item_b] (pre ++ placeholder (placeholder_number item_a) ++ post)
  = pre ++ tb ++ post.
Proof.
  intros Ha Hb Hpre Hpost. rewrite !server_fill_text_cons. unfold Server.fill_text.
  cbn [foldl]. rewrite !server_fill_step_replace, Ha, Hb.
  set (a := placeholder_number item_a). set (b := placeholder_number item_b).
  assert (Server.text_or (Some (placeholder b)) [] = placeholder b) as -> by done.
  assert (Server.text_or (Some tb) [] = tb) as -> by (by destruct tb).
  rewrite (str_replace_token (placeholder a)) by apply placeholder_braced.
  rewrite !(str_replace_no_lbrace (placeholder a)) by (done || apply placeholder_braced).
  rewrite (str_replace_token (placeholder b)) by apply placeholder_braced.
  by rewrite !(str_replace_no_lbrace (placeholder b)) by (done || apply placeholder_braced).
Qed.

Lemma server_fill_text_rescans_witness :
  Server.fill_text [item_translated 1 "{{ 3 }}"; item_translated 3 "X"] (str "a {{ 1 }}.")
  = str "a X.".
Proof.
  apply (server_fill_text_rescans (item_translated 1 "{{ 3 }}") (item_translated 3 "X")
           (str "X") (str "a ") (str ".")); reflexivity.
Defined.

Lemma server_fill_text_no_lbrace its t : no_lbrace t -> Server.fill_text its t = t.
Proof.
  intros Ht. induction its as [|item its IH]; [done|].
  rewrite server_fill_text_cons, server_fill_step_replace.
  by rewrite str_replace_no_lbrace by (done || apply placeholder_braced).
Qed.

Lemma server_fill_text_skip its k number_part :
  0 <= k -> no_lbrace number_part ->
  Forall (fun item => placeholder_number item <> k) its ->
  Server.fill_text its (number_part ++ placeholder k) = number_part ++ placeholder k.
Proof.
  intros Hk Hnp. induction 1 as [|item its Hne _ IH]; [done|].
  rewrite server_fill_text_cons, server_fill_step_replace.
  rewrite <- (app_nil_r (placeholder k)) at 1.
  rewrite str_replace_other.
  - rewrite str_replace_no_lbrace by (done || apply placeholder_braced).
    rewrite (str_replace_no_lbrace _ _ []) by (done || apply placeholder_braced).
    by rewrite app_nil_r.
  - apply placeholder_braced.
  - apply placeholder_braced.
  - apply (placeholder_not_prefix _ _ (str_of_int k)); [by apply placeholder_shape|].
    by rewrite int_of_text_str.
Qed.

(** X21.  The item loop of the server variant on a text as extraction
    leaves it, a prefix and one token: when the numbers of the items are
    all different and the translation of the token's item holds no left
    brace, the loop puts that translation, or nothing when there is none,
    in the place of the token and changes nothing else. *)
Theorem server_fill_text_template its item number_part :
  NoDup (map placeholder_number its) ->
  In item its ->
  0 <= placeholder_number item ->
  no_lbrace number_part ->
  no_lbrace (Server.text_or (translate_content item) []) ->
  Server.fill_text its (number_part ++ placeholder (placeholder_number item))
  = number_part ++ Server.text_or (translate_content item) [].
Proof.
  intros Hnd Hin Hk Hnp Ht.
  apply list_elem_of_In, list_elem_of_split in Hin as (l1 & l2 & ->).
  rewrite map_app, map_cons in Hnd.
  apply NoDup_app in Hnd as (_ & Hl1 & Hl2). apply NoDup_cons in Hl2 as [Hl2 _].
  unfold Server.fill_text. rewrite foldl_app. cbn [foldl].
  fold (Server.fill_text l1 (number_part ++ placeholder (placeholder_number item))).
  rewrite server_fill_text_skip; [|done|done|].
  - rewrite server_fill_step_replace.
    pose proof (str_replace_token (placeholder (placeholder_number item))
                  (Server.text_or (translate_content item) []) number_part []
                  (placeholder_braced _)) as E.
    rewrite app_nil_r in E. rewrite E.
    rewrite str_replace_no_lbrace by (done || apply placeholder_braced).
    rewrite (str_replace_no_lbrace _ _ []) by (done || apply placeholder_braced).
    rewrite app_nil_r.
    apply (server_fill_text_no_lbrace l2). by apply no_lbrace_app.
  - apply Forall_forall. intros x Hx E. apply (Hl1 (placeholder_number x)).
    + apply list_elem_of_In, in_map. by apply list_elem_of_In.
    + rewrite E. by left.
Qed.

Lemma server_fill_text_template_witness :
  Server.fill_text [item_translated 1 "Bonjour"; item_translated 2 "Monde"]
    (str "2.1 {{ 2 }}")
  = str "2.1 Monde".
Proof.
  apply (server_fill_text_template
           [item_translated 1 "Bonjour"; item_translated 2 "Monde"]
           (item_translated 2 "Monde") (str "2.1 ")).
  - apply (@bool_decide_unpack _ (NoDup_dec _)). vm_compute. reflexivity.
  - right. by left.
  - vm_compute. discriminate.
  - reflexivity.
  - reflexivity.
Defined.

(** * The translation stage as a scheduler *)

Lemma steps_left_insert (l : list (TaskState * DocumentItem)) i x y :
  l !! i = Some x ->
  (sum_list (map steps_left (<[i := y]> l)) + steps_left x
   = sum_list (map steps_left l) + steps_left y)%nat.
Proof.
  revert i. induction l as [|a l IH]; intros i Hi; [done|].
  destruct i as [|i]; simpl in *.
  - injection Hi as ->. lia.
  - specialize (IH i Hi). lia.
Qed.

(** Every step takes one step off what is ahead: no task goes back. *)
Lemma step_remaining finish s s' : step finish s s' -> remaining s = S (remaining s').
Proof.
  intros [s0 i item Hi Hpos|s0 i item Hi]; unfold remaining; cbn [tasks].
  - pose proof (steps_left_insert _ i _ (InFlight, item) Hi) as H.
    change (steps_left (Waiting, item)) with 2%nat in H.
    change (steps_left (InFlight, item)) with 1%nat in H. lia.
  - pose proof (steps_left_insert _ i _ (Finished, finish i item) Hi) as H.
    change (steps_left (InFlight, item)) with 1%nat in H.
    change (steps_left (Finished, finish i item)) with 0%nat in H. lia.
Qed.

Lemma sum_steps_left_cons t (l : list (TaskState * DocumentItem)) :
  sum_list (map steps_left (t :: l)) = (steps_left t + sum_list (map steps_left l))%nat.
Proof. done. Qed.

Lemma remaining_zero s : remaining s = 0%nat <-> all_finished s.
Proof.
  unfold remaining, all_finished. induction (tasks s) as [|[st item] l IH].
  - split; [constructor|done].
  - rewrite sum_steps_left_cons. split.
    + intros H. destruct st.
      * change (steps_left (Waiting, item)) with 2%nat in H. lia.
      * change (steps_left (InFlight, item)) with 1%nat in H. lia.
      * constructor; [done|]. apply IH.
        change (steps_left (Finished, item)) with 0%nat in H. lia.
    + intros H. inversion H as [|? ? H1 H2]; subst. simpl in H1. subst st.
      change (steps_left (Finished, item)) with 0%nat. apply IH in H2. lia.
Qed.

Lemma not_finished_task (l : list (TaskState * DocumentItem)) :
  ~ Forall (fun t => t.1 = Finished) l ->
  exists i st item, l !! i = Some (st, item) /\ st <> Finished.
Proof.
  induction l as [|[st item] l IH]; intros H.
  - destruct H. constructor.
  - destruct st.
    + by exists 0%nat, Waiting, item.
    + by exists 0%nat, InFlight, item.
    + destruct IH as (i & st & item' & Hi & Hst).
      * intros Hl. apply H. by constructor.
      * by exists (S i), st, item'.
Qed.

Lemma in_flight_task s :
  0 < in_flight s -> exists i item, tasks s !! i = Some (InFlight, item).
Proof.
  unfold in_flight. intros H.
  destruct (List.filter is_in_flight (tasks s)) as [|[st item] l] eqn:E; [simpl in H; lia|].
  assert (In (st, item) (List.filter is_in_flight (tasks s))) as Hin
    by (rewrite E; by left).
  apply filter_In in Hin as [Hin Hst].
  apply list_elem_of_In, list_elem_of_lookup_1 in Hin as [i Hi].
  exists i, item. destruct st; done.
Qed.

Lemma in_flight_finished s : all_finished s -> in_flight s = 0.
Proof.
  unfold all_finished, in_flight. induction 1 as [|[st item] l H _ IH]; [done|].
  simpl in H. subst st. simpl. done.
Qed.

Lemma reachable_rtc finish limit its s s' :
  reachable finish limit its s -> rtc (step finish) s s' -> reachable finish limit its s'.
Proof.
  intros Hr Hsteps. induction Hsteps as [|s s1 s2 Hstep _ IH]; [done|].
  apply IH. by eapply reach_step.
Qed.

Lemma reachable_progress finish limit its s :
  0 < limit -> reachable finish limit its s -> ~ all_finished s ->
  exists s', step finish s s'.
Proof.
  intros Hlimit Hr Hnot.
  destruct (not_finished_task _ Hnot) as (i & st & item & Hi & Hst).
  assert (forall j item', tasks s !! j = Some (InFlight, item') -> exists s', step finish s s')
    as Hrelease.
  { intros j item' Hj. eexists. by eapply step_release. }
  destruct st; [|by eapply Hrelease|done].
  destruct (decide (0 < sem_value s)) as [Hpos|Hfull].
  - eexists. by eapply step_acquire.
  - destruct (reachable_slots finish limit ltac:(lia) its s Hr) as [Hsum Hsem].
    destruct (in_flight_task s) as (j & item' & Hj); [lia|]. by eapply Hrelease.
Qed.

(** The items at the end of any run, and the semaphore. *)
Lemma reachable_final finish limit its s :
  0 <= limit -> reachable finish limit its s -> all_finished s ->
  map snd (tasks s) = imap finish its /\ sem_value s = limit.
Proof.
  intros Hlimit Hr Hall. split.
  - apply list_eq. intros i. rewrite list_lookup_fmap, list_lookup_imap.
    destruct (reachable_tasks _ _ _ _ Hr i) as [E|[E|E]]; rewrite E;
      destruct (its !! i) as [item|] eqn:Ei; simpl; try done.
    + unfold all_finished in Hall. rewrite Forall_lookup in Hall.
      by specialize (Hall i _ E).
    + unfold all_finished in Hall. rewrite Forall_lookup in Hall.
      by specialize (Hall i _ E).
  - destruct (reachable_slots finish limit Hlimit its s Hr) as [Hsum _].
    rewrite (in_flight_finished s Hall) in Hsum. lia.
Qed.

Lemma two_in_flight_reachable finish :
  reachable finish Root.CONCURRENCY_LIMIT three_items two_in_flight.
Proof.
  apply (reach_step _ _ _ one_in_flight).
  - apply (reach_step _ _ _ (start Root.CONCURRENCY_LIMIT three_items));
      [apply reach_start|].
    apply (step_acquire _ (start Root.CONCURRENCY_LIMIT three_items) 0%nat
             (item_extracted 1 "one")); [reflexivity|]. vm_compute. reflexivity.
  - apply (step_acquire _ one_in_flight 1%nat (item_extracted 2 "two"));
      [reflexivity|]. vm_compute. reflexivity.
Defined.

(** X22.  The translation stage cannot get stuck: with a limit of at
    least one, in every state it can reach in which some task has not
    finished, some task can take a step. *)
Theorem scheduler_progress finish limit its s :
  0 < limit -> reachable finish limit its s -> ~ all_finished s ->
  exists s', step finish s s'.
Proof. apply reachable_progress. Qed.

Lemma scheduler_progress_witness :
  exists s', step (root_finish second_call_fails) two_in_flight s'.
Proof.
  apply (scheduler_progress (root_finish second_call_fails) Root.CONCURRENCY_LIMIT
           three_items two_in_flight).
  - vm_compute. reflexivity.
  - apply two_in_flight_reachable.
  - intros H. apply remaining_zero in H. vm_compute in H. discriminate H.
Defined.

(** X23.  The translation stage ends after two steps for each item:
    in a state it can reach at most that many steps are ahead, none when
    and only when every task has finished, and every step, in whatever
    order the tasks take them, leaves one step less. *)
Theorem scheduler_step_count finish limit its s :
  reachable finish limit its s ->
  (remaining s <= 2 * length its)%nat
  /\ (remaining s = 0%nat <-> all_finished s)
  /\ (forall s', step finish s s' -> remaining s = S (remaining s')).
Proof.
  intros Hr. split; [|split; [apply remaining_zero|apply step_remaining]].
  induction Hr as [|s s' _ IH Hstep].
  - unfold remaining, start. cbn [tasks]. induction its as [|item its IH]; [done|].
    rewrite map_cons, sum_steps_left_cons.
    change (steps_left (Waiting, item)) with 2%nat. simpl in *. lia.
  - apply step_remaining in Hstep. lia.
Qed.

Lemma scheduler_step_count_witness :
  (remaining two_in_flight <= 6)%nat
  /\ forall s', step (root_finish second_call_fails) two_in_flight s' ->
                remaining s' = 3%nat.
Proof.
  destruct (scheduler_step_count (root_finish second_call_fails) Root.CONCURRENCY_LIMIT
              three_items two_in_flight (two_in_flight_reachable _))
    as (Hbound & _ & Hstep).
  split; [exact Hbound|]. intros s' Hs'. apply Hstep in Hs'.
  change (remaining two_in_flight) with 4%nat in Hs'. congruence.
Defined.

(** X24.  From every state the translation stage can reach, with a
    limit of at least one, the stage can run to its end; there every slot
    of the semaphore is free again and every item is what the end of its
    own call left, whatever the order of the steps. *)
Theorem scheduler_completes finish limit its s :
  0 < limit -> reachable finish limit its s ->
  exists s', rtc (step finish) s s'
             /\ all_finished s'
             /\ map snd (tasks s') = imap finish its
             /\ sem_value s' = limit.
Proof.
  intros Hlimit Hr.
  assert (exists s', rtc (step finish) s s' /\ all_finished s') as (s' & Hsteps & Hall).
  { remember (remaining s) as n eqn:En. revert s Hr En.
    induction n as [|n IH]; intros s Hr En.
    - exists s. split; [done|]. by apply remaining_zero.
    - destruct (reachable_progress finish limit its s Hlimit Hr) as [s1 Hstep].
      { intros Hall%remaining_zero. lia. }
      destruct (IH s1) as (s' & Hsteps & Hall).
      + by eapply reach_step.
      + apply step_remaining in Hstep. lia.
      + exists s'. split; [by eapply rtc_l|done]. }
  exists s'. split; [done|]. split; [done|].
  apply reachable_final; [lia| |done]. by eapply reachable_rtc.
Qed.

Lemma scheduler_completes_witness :
  exists s', rtc (step (root_finish second_call_fails)) two_in_flight s'
             /\ all_finished s'
             /\ map (fun t => translate_content t.2) (tasks s')
                = [Some (str "T:one"); Some (str "[FAILED] timeout"); Some (str "T:three")].
Proof.
  destruct (scheduler_completes (root_finish second_call_fails) Root.CONCURRENCY_LIMIT
              three_items two_in_flight) as (s' & Hsteps & Hall & Hitems & _).
  - vm_compute. reflexivity.
  - apply two_in_flight_reachable.
  - exists s'. split; [done|]. split; [done|].
    rewrite <- (List.map_map snd translate_content), Hitems. reflexivity.
Defined.

(** X25.  At the end of every run of the translation stage the items
    are those the functions [batch_translate] give: in the top-level
    service always, in the server variant when no call has raised. *)
Theorem scheduler_final_items translate_text limit its s :
  0 <= limit -> all_finished s ->
  (reachable (root_finish translate_text) limit its s ->
   map snd (tasks s) = Root.batch_translate translate_text its)
  /\ (reachable (server_finish translate_text) limit its s ->
      forall l, Server.batch_translate translate_text its = Some l ->
                map snd (tasks s) = l).
Proof.
  intros Hlimit Hall. split.
  - intros Hr. by apply (reachable_final _ limit its s Hlimit Hr).
  - intros Hr l [Hret ->]%(server_batch_translate_from_spec 0).
    rewrite (proj1 (reachable_final _ limit its s Hlimit Hr Hall)).
    apply imap_ext. intros i item Hi. unfold server_finish.
    destruct (Hret i item Hi) as [t Ht]. cbn [Nat.add] in *.
    unfold Server.translate, Root.translate_item. by rewrite Ht.
Qed.

Lemma scheduler_final_items_witness :
  map snd (tasks one_finished)
  = Root.batch_translate second_call_fails [item_extracted 1 "one"].
Proof.
  assert (0 <= Root.CONCURRENCY_LIMIT) as Hlimit by (vm_compute; discriminate).
  assert (all_finished one_finished) as Hall by (by repeat constructor).
  apply (proj1 (scheduler_final_items second_call_fails Root.CONCURRENCY_LIMIT
                  [item_extracted 1 "one"] one_finished Hlimit Hall)).
  apply (reach_step _ _ _ one_started).
  - apply (reach_step _ _ _ (start Root.CONCURRENCY_LIMIT [item_extracted 1 "one"]));
      [apply reach_start|].
    apply (step_acquire _ (start Root.CONCURRENCY_LIMIT [item_extracted 1 "one"]) 0%nat
             (item_extracted 1 "one")); [reflexivity|]. vm_compute. reflexivity.
  - apply (step_release _ one_started 0%nat (item_extracted 1 "one")). reflexivity.
Defined.

(** * Further behaviour of the top-level service *)

(** ** Reassembly of a paragraph without token *)



(** ** The names [extract_content] gives *)

Lemma starts_with_refl old : starts_with old old = true.
Proof. apply starts_with_spec. exists []. by rewrite app_nil_r. Qed.

Lemma str_replace_suffix c0 old' stem :
  forallb (fun c => negb (Ascii.eqb c c0)) stem = true ->
  str_replace (c0 :: old') [] (stem ++ c0 :: old') = stem.
Proof.
  intros Hstem. rewrite str_replace_scan by done.
  assert (consuming (replace_matcher (c0 :: old') [])) as Hm
    by (by apply replace_matcher_consuming).
  rewrite (scan_copy _ Hm).
  - rewrite (scan_match _ Hm _ [] []).
    + by rewrite scan_nil, app_nil_r.
    + unfold replace_matcher. by rewrite starts_with_refl, drop_all.
  - intros u1 u2 c ->. unfold replace_matcher. simpl.
    rewrite forallb_app in Hstem. apply andb_prop in Hstem as [_ Hc].
    simpl in Hc. apply andb_prop in Hc as [Hc _].
    destruct (ascii_dec c0 c) as [->|]; [|done].
    by rewrite Ascii.eqb_refl in Hc.
Qed.

(** * The services with the exceptions of the libraries *)

(** ** The operations that can raise *)

Lemma python_int_some g1 n :
  Python.int g1 = Some n
  <-> (length g1 <= Python.int_max_str_digits)%nat /\ n = int_of_text g1.
Proof.
  unfold Python.int. destruct (Python.int_max_str_digits <? length g1)%nat eqn:E.
  - apply Nat.ltb_lt in E. split; [done|]. intros [H _]. lia.
  - apply Nat.ltb_ge in E. split; [by intros [= <-]|by intros [_ ->]].
Qed.

Lemma stored_app a b : Docx.stored (a ++ b) = Docx.stored a ++ Docx.stored b.
Proof. apply map_app. Qed.

Lemma cr_free_stored t : cr_free (Docx.stored t) = true.
Proof.
  unfold cr_free, Docx.stored. induction t as [|c t IH]; [done|]. simpl.
  rewrite IH, andb_true_r. destruct (code c =? 13) eqn:E; [done|by rewrite E].
Qed.

Lemma stored_cr_free t : cr_free t = true -> Docx.stored t = t.
Proof.
  unfold cr_free, Docx.stored. induction t as [|c t IH]; [done|]. simpl.
  intros [Hc Ht]%andb_prop. apply negb_true_iff in Hc. rewrite Hc. f_equal. by apply IH.
Qed.

Lemma stored_stored t : Docx.stored (Docx.stored t) = Docx.stored t.
Proof. apply stored_cr_free, cr_free_stored. Qed.

Lemma cr_free_app a b : cr_free (a ++ b) = cr_free a && cr_free b.
Proof. apply forallb_app. Qed.

Lemma plain_stored t : plain t = true -> Docx.stored t = t.
Proof. unfold plain. intros [_ H]%andb_prop. by apply stored_cr_free. Qed.

Lemma docx_add_run_some p t f p' :
  Docx.add_run p t f = Some p'
  <-> Docx.xml_compatible t = true /\ p' = add_run p (Docx.stored t) f.
Proof.
  unfold Docx.add_run. destruct (Docx.xml_compatible t).
  - split; [by intros [= <-]|by intros [_ ->]].
  - split; [done|by intros [? _]].
Qed.

Lemma docx_add_run_plain p t f :
  plain t = true -> Docx.add_run p t f = Some (add_run p t f).
Proof.
  intros H. apply docx_add_run_some. rewrite (plain_stored t H).
  unfold plain in H. by apply andb_prop in H as [-> _].
Qed.

(** The font the top-level service gives the new run, when the assignment
    of the size does not raise, is the font of [Root]. *)
Lemma rootexn_styled_font para :
  RootExn.styled_font (Root.capture_style para)
  = if size_fits para then Some (Root.styled_font (Root.capture_style para)) else None.
Proof.
  unfold size_fits, Root.capture_style, RootExn.styled_font, Root.styled_font.
  destruct (runs para) as [|[t [name [s|] bold italic color]] rest]; simpl; try done.
  unfold Docx.set_size. destruct (s =? 0); simpl; [done|].
  by destruct ((0 <=? Pt s) && (Pt s <=? Docx.max_size)).
Qed.

Lemma rootexn_rewrite_paragraph para t :
  RootExn.rewrite_paragraph para t
  = if size_fits para && Docx.xml_compatible t
    then Some (Root.rewrite_paragraph para (Docx.stored t))
    else None.
Proof.
  unfold RootExn.rewrite_paragraph, Root.rewrite_paragraph. cbn zeta.
  rewrite rootexn_styled_font. destruct (size_fits para); simpl; [|done].
  unfold Docx.add_run. by destruct (Docx.xml_compatible t).
Qed.

(** ** [re.sub] with a callable that may raise *)

Lemma match_placeholder_shorter s g0 g1 rest :
  match_placeholder s = Some (g0, g1, rest) -> (length rest < length s)%nat.
Proof.
  intros [-> Hs]%match_placeholder_elim. rewrite length_app.
  apply token_shape_braced, braced_nonempty in Hs. destruct g0; [done|]. simpl. lia.
Qed.

Lemma python_re_sub_fuel_enough repl n k s :
  (length s <= n)%nat -> (length s <= k)%nat ->
  Python.re_sub_fuel n repl s = Python.re_sub_fuel k repl s.
Proof.
  revert k s. induction n as [|n IH]; intros k s Hn Hk.
  - destruct s; [|simpl in Hn; lia]. by destruct k.
  - destruct k as [|k]; [destruct s; [done|simpl in Hk; lia]|].
    destruct s as [|c s]; [done|]. simpl in Hn, Hk. cbn [Python.re_sub_fuel].
    destruct (match_placeholder (c :: s)) as [[[g0 g1] rest]|] eqn:E.
    + apply match_placeholder_shorter in E. simpl in E.
      by rewrite (IH k rest) by lia.
    + by rewrite (IH k s) by lia.
Qed.

Lemma python_re_sub_nil repl : Python.re_sub repl [] = Some [].
Proof. done. Qed.

Lemma python_re_sub_cons repl c s :
  Python.re_sub repl (c :: s)
  = match match_placeholder (c :: s) with
    | Some (g0, g1, rest) =>
        v ← repl g0 g1; out ← Python.re_sub repl rest; Some (default [] v ++ out)
    | None => out ← Python.re_sub repl s; Some (c :: out)
    end.
Proof.
  unfold Python.re_sub. cbn [length Python.re_sub_fuel].
  destruct (match_placeholder (c :: s)) as [[[g0 g1] rest]|] eqn:E; [|done].
  apply match_placeholder_shorter in E. simpl in E.
  by rewrite (python_re_sub_fuel_enough repl (length s) (length rest) rest) by lia.
Qed.

Lemma re_sub_cons repl c s :
  re_sub repl (c :: s)
  = match match_placeholder (c :: s) with
    | Some (g0, g1, rest) => default [] (repl g0 g1) ++ re_sub repl rest
    | None => c :: re_sub repl s
    end.
Proof.
  unfold re_sub. rewrite scan_cons by apply sub_matcher_consuming.
  unfold sub_matcher. by destruct (match_placeholder (c :: s)) as [[[g0 g1] rest]|].
Qed.

(** Induction over the steps of the scan: after a match the walk resumes
    behind it, elsewhere one character further. *)
Lemma scan_ind (P : text -> Prop) :
  P [] ->
  (forall c s g0 g1 rest,
     match_placeholder (c :: s) = Some (g0, g1, rest) -> P rest -> P (c :: s)) ->
  (forall c s, match_placeholder (c :: s) = None -> P s -> P (c :: s)) ->
  forall s, P s.
Proof.
  intros Hnil Hmatch Hskip s.
  remember (length s) as n eqn:En. revert s En.
  induction n as [n IH] using lt_wf_ind. intros [|c s] En; [done|].
  destruct (match_placeholder (c :: s)) as [[[g0 g1] rest]|] eqn:E.
  - eapply Hmatch; [done|]. apply match_placeholder_shorter in E.
    apply (IH (length rest)); [lia|done].
  - apply Hskip; [done|]. apply (IH (length s)); [simpl in En; lia|done].
Qed.

(** When no call raises, [sub] gives what [re_sub] gives for the values
    the calls return. *)
Lemma python_re_sub_pure repl repl' s out :
  (forall g0 g1 v, repl g0 g1 = Some v -> repl' g0 g1 = v) ->
  Python.re_sub repl s = Some out -> out = re_sub repl' s.
Proof.
  intros Hrepl. revert out. induction s as [|c s g0 g1 rest E IH|c s E IH] using scan_ind;
    intros out.
  - by intros [= <-].
  - rewrite python_re_sub_cons, re_sub_cons, E.
    destruct (repl g0 g1) as [v|] eqn:Ev; [|done]. simpl.
    destruct (Python.re_sub repl rest) as [out'|]; [|done]. simpl.
    intros [= <-]. by rewrite (Hrepl _ _ _ Ev), (IH out').
  - rewrite python_re_sub_cons, re_sub_cons, E.
    destruct (Python.re_sub repl s) as [out'|]; [|done]. simpl.
    intros [= <-]. by rewrite (IH out').
Qed.



Lemma rootexn_lookup_token cm g0 g1 v :
  RootExn.lookup_token cm g0 g1 = Some v -> Root.lookup_token cm g0 g1 = v.
Proof.
  unfold RootExn.lookup_token, Root.lookup_token.
  destruct (Python.int g1) as [n|] eqn:E; [|done]. simpl.
  apply python_int_some in E as [_ ->]. by intros [= <-].
Qed.

Lemma rootexn_re_sub_pure cm s out :
  Python.re_sub (RootExn.lookup_token cm) s = Some out ->
  out = re_sub (Root.lookup_token cm) s.
Proof. apply python_re_sub_pure, rootexn_lookup_token. Qed.


(** ** One paragraph of reassembly, with its exceptions *)

Lemma rootexn_fill_paragraph_blank p cm h :
  blank h p = true -> RootExn.process_fill_paragraph p cm h = Some h.
Proof. unfold blank, text_at, RootExn.process_fill_paragraph. by intros ->. Qed.

Lemma rootexn_fill_paragraph_text p cm h :
  blank h p = false ->
  RootExn.process_fill_paragraph p cm h
  = new_text ← Python.re_sub (RootExn.lookup_token cm) (strip (text_at h p));
    para ← RootExn.rewrite_paragraph (deref h p) new_text;
    Some (<[p := para]> h).
Proof. unfold blank, text_at, RootExn.process_fill_paragraph. by intros ->. Qed.

(** What the paragraph is when the call returns. *)
Lemma rootexn_fill_paragraph_some p cm h h' :
  RootExn.process_fill_paragraph p cm h = Some h' ->
  h' = if blank h p then h
       else <[p := Root.rewrite_paragraph (deref h p)
                     (Docx.stored (re_sub (Root.lookup_token cm) (strip (text_at h p))))]> h.
Proof.
  destruct (blank h p) eqn:Hb.
  - rewrite rootexn_fill_paragraph_blank by done. by intros [= <-].
  - rewrite rootexn_fill_paragraph_text by done.
    destruct (Python.re_sub _ _) as [new_text|] eqn:E; [|done]. simpl.
    apply rootexn_re_sub_pure in E as ->. rewrite rootexn_rewrite_paragraph.
    destruct (_ && _); [|done]. simpl. by intros [= <-].
Qed.


Lemma decodes_shape tok n :
  decodes tok n -> exists g1, token_shape tok g1 /\ int_of_text g1 = n.
Proof. intros (g1 & Hs & [_ ->]%python_int_some). eauto. Qed.

Lemma token_nonempty pre tok g1 post : token_shape tok g1 -> pre ++ tok ++ post <> [].
Proof. intros (w1 & w2 & -> & _). by destruct pre. Qed.

(** A token in the paragraph: what is written in its place. *)
Lemma rootexn_fill_token p cm h h' pre tok post n :
  strip (text_at h p) = pre ++ tok ++ post ->
  decodes tok n ->
  RootExn.process_fill_paragraph p cm h = Some h' ->
  text_at h' p
  = Docx.stored (re_sub (Root.lookup_token cm) pre
                 ++ match cm !! n with Some v => default [] v | None => tok end
                 ++ re_sub (Root.lookup_token cm) post).
Proof.
  intros Ht (g1 & Hs & Hn)%decodes_shape ->%rootexn_fill_paragraph_some.
  assert (blank h p = false) as ->.
  { unfold blank. rewrite Ht. by eapply is_nil_false, token_nonempty. }
  unfold text_at at 1. rewrite deref_insert, root_rewrite_text, Ht.
  rewrite (re_sub_token _ pre tok g1 post Hs). do 3 f_equal.
  unfold Root.lookup_token. rewrite Hn. by destruct (cm !! n).
Qed.

(** ** The loops of reassembly, with their exceptions *)

Lemma foldl_exn_app {A B} (f : A -> B -> option A) a l1 l2 :
  foldl_exn f a (l1 ++ l2) = a' ← foldl_exn f a l1; foldl_exn f a' l2.
Proof.
  revert a. induction l1 as [|x l1 IH]; intros a; [done|]. simpl.
  destruct (f a x) as [a'|]; [apply IH|done].
Qed.

Lemma foldl_exn_concat {A B} (f : A -> B -> option A) a (ls : list (list B)) :
  foldl_exn f a (concat ls) = foldl_exn (fun a l => foldl_exn f a l) a ls.
Proof.
  revert a. induction ls as [|l ls IH]; intros a; [done|]. simpl.
  rewrite foldl_exn_app. destruct (foldl_exn f a l); [apply IH|done].
Qed.

Lemma foldl_exn_map {A B C} (f : A -> C -> option A) (g : B -> C) a l :
  foldl_exn f a (map g l) = foldl_exn (fun a x => f a (g x)) a l.
Proof.
  revert a. induction l as [|x l IH]; intros a; [done|]. simpl.
  destruct (f a (g x)); [apply IH|done].
Qed.

Lemma foldl_exn_pointwise {A B} (f g : A -> B -> option A) a l :
  (forall a x, f a x = g a x) -> foldl_exn f a l = foldl_exn g a l.
Proof.
  intros H. revert a. induction l as [|x l IH]; intros a; [done|]. simpl.
  rewrite H. destruct (g a x); [apply IH|done].
Qed.

Lemma rootexn_fill_tables_flat ts cm h :
  RootExn.fill_tables ts cm h
  = RootExn.fill_paragraphs (concat (map table_order ts)) cm h.
Proof.
  unfold RootExn.fill_tables, RootExn.fill_paragraphs, table_order, row_order, cell_order.
  rewrite foldl_exn_concat, foldl_exn_map. apply foldl_exn_pointwise. intros a t.
  rewrite foldl_exn_concat, foldl_exn_map. apply foldl_exn_pointwise. intros a' r.
  by rewrite foldl_exn_concat, foldl_exn_map.
Qed.

Lemma rootexn_fill_flat doc its :
  RootExn.fill doc its
  = h ← RootExn.fill_paragraphs (visit_order doc) (Root.build_content_map its) (store doc);
    Some {| store := h; paragraphs := paragraphs doc; tables := tables doc |}.
Proof.
  unfold RootExn.fill, visit_order. cbn zeta.
  unfold RootExn.fill_paragraphs at 2. rewrite foldl_exn_app.
  fold (RootExn.fill_paragraphs (paragraphs doc) (Root.build_content_map its) (store doc)).
  destruct (RootExn.fill_paragraphs (paragraphs doc) _ _) as [h|]; [|done]. simpl.
  by rewrite rootexn_fill_tables_flat.
Qed.

Lemma rootexn_fill_paragraphs_cons p ps cm h :
  RootExn.fill_paragraphs (p :: ps) cm h
  = h' ← RootExn.process_fill_paragraph p cm h; RootExn.fill_paragraphs ps cm h'.
Proof. done. Qed.







(** ** Reassembly: the claims *)


Lemma within_limit_app_inv a b : within_limit (a ++ b) -> within_limit a /\ within_limit b.
Proof.
  intros H. split; intros pre g0 g1 rest -> Hs.
  - apply (H pre g0 g1 (rest ++ b)); [|done]. by rewrite <- !app_assoc.
  - apply (H (a ++ pre) g0 g1 rest); [|done]. by rewrite <- !app_assoc.
Qed.



(** A translation with a carriage return is read back with a line feed. *)
Example rootexn_fill_carriage_return :
  (fun h => text_at h 0)
    <$> RootExn.process_fill_paragraph 0
          (Root.build_content_map
             [ {| placeholder_number := 1; original_content := str "Hello";
                  translate_content := Some (str "a" ++ carriage_return ++ str "b") |} ])
          (one_paragraph "{{ 1 }}")
  = Some (str "a" ++ line_feed ++ str "b").
Proof. reflexivity. Qed.

(** C6. A token whose number is the number of no item.  Where
    [process_fill_paragraph] of the top-level service returns, a token
    that [int] decodes stays where it is, as a run reads it; a token of
    4300 digits is kept by [fill_template]; on a token of 4301 digits
    [int] raises and [fill_template] answers with status 500.  The item
    loop of the server variant, which calls no [int], leaves every such
    token where it is, the token of 4301 digits too. *)
Theorem C6_unknown_token_kept :
  (forall its tok n p h h' pre post,
     decodes tok n ->
     existsb (fun item => placeholder_number item =? n) its = false ->
     strip (text_at h p) = pre ++ tok ++ post ->
     RootExn.process_fill_paragraph p (Root.build_content_map its) h = Some h' ->
     text_at h' p
     = Docx.stored (re_sub (Root.lookup_token (Root.build_content_map its)) pre
                    ++ tok
                    ++ re_sub (Root.lookup_token (Root.build_content_map its)) post))
  /\ RootExn.fill_template (Some (template_of (long_token 4300))) true
       (entity_of [item_translated 1 "Bonjour"])
     = Returned (template_of (long_token 4300))
  /\ RootExn.fill_template (Some (template_of (long_token 4301))) true
       (entity_of [item_translated 1 "Bonjour"])
     = HTTPException 500
  /\ (forall its tok n pre post,
        decode tok = Some n ->
        existsb (fun item => placeholder_number item =? n) its = false ->
        Server.fill_text its (pre ++ tok ++ post)
        = Server.fill_text its pre ++ tok ++ Server.fill_text its post)
  /\ Server.fill_paragraph [item_translated 1 "Bonjour"] 0
       (store (template_of (long_token 4301)))
     = Some (store (template_of (long_token 4301))).
Proof.
  split; [|split; [|split; [|split]]].
  - intros its tok n p h h' pre post Hdec Hex Ht Hh'.
    rewrite (rootexn_fill_token p _ h h' pre tok post n Ht Hdec Hh').
    by rewrite build_content_map_unknown.
  - vm_compute. reflexivity.
  - vm_compute. reflexivity.
  - intros its tok n pre post Hdec Hex. by eapply server_fill_text_other.
  - vm_compute. reflexivity.
Qed.

Lemma C6_unknown_token_kept_witness :
  exists h',
    RootExn.process_fill_paragraph 0
      (Root.build_content_map [item_translated 1 "Bonjour"]) (one_paragraph "{{ 999 }}")
    = Some h'
    /\ text_at h' 0 = str "{{ 999 }}".
Proof.
  exists (one_paragraph "{{ 999 }}"). split; [reflexivity|].
  apply (proj1 C6_unknown_token_kept [item_translated 1 "Bonjour"] (str "{{ 999 }}") 999
           0%nat (one_paragraph "{{ 999 }}") (one_paragraph "{{ 999 }}") [] []).
  - exists (str "999"). split; [|reflexivity]. by exists (str " "), (str " ").
  - reflexivity.
  - reflexivity.
  - reflexivity.
Defined.









(** ** The two descriptions of the top-level service

    On a document without carriage return the service with its exceptions,
    where it returns, gives what [Root] gives for the translations as runs
    read them. *)

Lemma cr_free_store_text h q : cr_free_store h -> cr_free (text_at h q) = true.
Proof.
  intros Hh. unfold text_at, deref. destruct (h !! q) as [para|] eqn:E; [|done].
  by apply (Hh q para).
Qed.

Lemma cr_free_store_insert h q para :
  cr_free_store h -> cr_free (paragraph_text para) = true ->
  cr_free_store (<[q := para]> h).
Proof. intros Hh Hp. by apply map_Forall_insert_2. Qed.

Lemma cr_free_strip t : cr_free t = true -> cr_free (strip t) = true.
Proof.
  destruct (strip_eq t) as (l & r & E & _). rewrite E at 1.
  rewrite !cr_free_app. by intros [_ [? _]%andb_prop]%andb_prop.
Qed.

Lemma cr_free_prefix_of s : cr_free s = true -> cr_free (prefix_of s) = true.
Proof.
  unfold prefix_of. destruct (match_numbering s) as [[np c]|] eqn:E; [|done].
  apply match_numbering_inv in E as (_ & _ & tail & ->).
  rewrite cr_free_app. by intros [? _]%andb_prop.
Qed.

Lemma digit_not_cr c : is_digit c = true -> negb (code c =? 13) = true.
Proof.
  unfold is_digit. intros [H _]%andb_prop. apply Z.leb_le in H.
  apply negb_true_iff, Z.eqb_neq. lia.
Qed.

Lemma cr_free_placeholder k : 0 <= k -> cr_free (placeholder k) = true.
Proof.
  intros Hk. unfold placeholder. rewrite !cr_free_app. unfold cr_free at 2.
  by rewrite (forallb_imp is_digit _ _ digit_not_cr (str_of_int_digits k Hk)).
Qed.

Lemma rootexn_process_paragraph_blank p k h its :
  blank h p = true -> RootExn.process_paragraph p k (h, its) = Some (k, (h, its)).
Proof. unfold blank, text_at, RootExn.process_paragraph. by intros ->. Qed.

Lemma rootexn_process_paragraph_full p k h its :
  blank h p = false ->
  RootExn.process_paragraph p k (h, its)
  = para ← RootExn.rewrite_paragraph (deref h p)
             (prefix_of (strip (text_at h p)) ++ placeholder k);
    Some (k + 1,
          (<[p := para]> h,
           its ++ [ {| placeholder_number := k;
                       original_content := content_of (strip (text_at h p));
                       translate_content := None |} ])).
Proof.
  unfold blank, text_at, prefix_of, content_of, RootExn.process_paragraph. intros ->.
  by destruct (match_numbering (strip (paragraph_text (deref h p)))) as [[??]|].
Qed.

Lemma rootexn_process_paragraph_pure p k h its r :
  0 <= k -> cr_free (text_at h p) = true ->
  RootExn.process_paragraph p k (h, its) = Some r ->
  r = Root.process_paragraph p k (h, its).
Proof.
  intros Hk Hcr. destruct (blank h p) eqn:Hb.
  - rewrite rootexn_process_paragraph_blank, root_process_paragraph_blank by done.
    by intros [= <-].
  - rewrite rootexn_process_paragraph_full, root_process_paragraph_full by done.
    rewrite rootexn_rewrite_paragraph. destruct (_ && _); [|done]. simpl.
    intros [= <-]. rewrite stored_cr_free; [done|].
    rewrite cr_free_app, cr_free_prefix_of, cr_free_placeholder by
      (done || by apply cr_free_strip). done.
Qed.

Lemma root_process_paragraph_cr_free p k h its :
  0 <= k -> cr_free_store h ->
  cr_free_store (Root.process_paragraph p k (h, its)).2.1.
Proof.
  intros Hk Hh. destruct (blank h p) eqn:Hb.
  - by rewrite root_process_paragraph_blank.
  - rewrite root_process_paragraph_full by done. cbn [fst snd].
    apply cr_free_store_insert; [done|]. rewrite root_rewrite_text.
    rewrite cr_free_app, cr_free_prefix_of, cr_free_placeholder by
      (done || by apply cr_free_strip, cr_free_store_text). done.
Qed.

Lemma root_process_paragraphs_cr_free ps k h its :
  0 <= k -> cr_free_store h ->
  cr_free_store (Root.process_paragraphs ps (k, (h, its))).2.1.
Proof.
  revert k h its. induction ps as [|p ps IH]; intros k h its Hk Hh; [done|].
  rewrite root_process_paragraphs_cons. cbn [fst snd].
  pose proof (root_process_paragraph_next p k h its) as Hnext.
  pose proof (root_process_paragraph_cr_free p k h its Hk Hh) as Hcr.
  destruct (Root.process_paragraph p k (h, its)) as [k1 [h1 its1]]. cbn [fst snd] in *.
  apply IH; [lia|done].
Qed.

Lemma rootexn_process_paragraphs_cons p ps acc :
  RootExn.process_paragraphs (p :: ps) acc
  = acc' ← RootExn.process_paragraph p acc.1 acc.2; RootExn.process_paragraphs ps acc'.
Proof. done. Qed.

Lemma rootexn_process_paragraphs_pure ps k h its r :
  0 <= k -> cr_free_store h ->
  RootExn.process_paragraphs ps (k, (h, its)) = Some r ->
  r = Root.process_paragraphs ps (k, (h, its)).
Proof.
  revert k h its. induction ps as [|p ps IH]; intros k h its Hk Hh;
    [by intros [= <-]|].
  rewrite rootexn_process_paragraphs_cons, root_process_paragraphs_cons. cbn [fst snd].
  destruct (RootExn.process_paragraph p k (h, its)) as [r1|] eqn:E; [|done].
  cbn [mbind option_bind].
  apply rootexn_process_paragraph_pure in E as ->; [|done|by apply cr_free_store_text].
  pose proof (root_process_paragraph_next p k h its) as Hnext.
  pose proof (root_process_paragraph_cr_free p k h its Hk Hh) as Hcr.
  destruct (Root.process_paragraph p k (h, its)) as [k1 [h1 its1]]. cbn [fst snd] in *.
  apply IH; [lia|done].
Qed.

Lemma rootexn_process_tables_flat ts acc :
  RootExn.process_tables ts acc
  = RootExn.process_paragraphs (concat (map table_order ts)) acc.
Proof.
  unfold RootExn.process_tables, RootExn.process_paragraphs, table_order, row_order,
    cell_order.
  rewrite foldl_exn_concat, foldl_exn_map. apply foldl_exn_pointwise. intros a t.
  rewrite foldl_exn_concat, foldl_exn_map. apply foldl_exn_pointwise. intros a' r.
  by rewrite foldl_exn_concat, foldl_exn_map.
Qed.

Lemma rootexn_extract_flat doc :
  RootExn.extract doc
  = r ← RootExn.process_paragraphs (visit_order doc) (1, (store doc, []));
    Some ({| store := r.2.1; paragraphs := paragraphs doc; tables := tables doc |},
          r.2.2).
Proof.
  unfold RootExn.extract, visit_order. cbn zeta.
  unfold RootExn.process_paragraphs at 2. rewrite foldl_exn_app.
  fold (RootExn.process_paragraphs (paragraphs doc) (1, (store doc, []))).
  destruct (RootExn.process_paragraphs (paragraphs doc) _) as [acc|]; [|done]. simpl.
  by rewrite rootexn_process_tables_flat.
Qed.

(** Extraction. *)
Lemma rootexn_extract_pure doc r :
  cr_free_store (store doc) ->
  RootExn.extract doc = Some r -> r = Root.extract doc.
Proof.
  intros Hcr. rewrite rootexn_extract_flat, root_extract_flat.
  destruct (RootExn.process_paragraphs _ _) as [acc|] eqn:E; [|done]. simpl.
  apply rootexn_process_paragraphs_pure in E as ->; [|lia|done]. by intros [= <-].
Qed.

Lemma root_extract_cr_free doc :
  cr_free_store (store doc) -> cr_free_store (store (Root.extract doc).1).
Proof.
  intros Hcr. rewrite root_extract_flat. cbn zeta. cbn [fst store].
  by apply root_process_paragraphs_cr_free.
Qed.

(** Reassembly. *)
Lemma re_sub_stored cm s :
  cr_free s = true ->
  Docx.stored (re_sub (Root.lookup_token cm) s)
  = re_sub (Root.lookup_token (stored_map cm)) s.
Proof.
  induction s as [|c s g0 g1 rest E IH|c s E IH] using scan_ind; [done|..]; intros Hcr.
  - rewrite !re_sub_cons, E, stored_app.
    pose proof E as [Es _]%match_placeholder_elim. rewrite Es, cr_free_app in Hcr.
    apply andb_prop in Hcr as [Hg0 Hrest]. rewrite IH by done. f_equal.
    unfold Root.lookup_token, stored_map. rewrite lookup_fmap.
    destruct (cm !! int_of_text g1) as [[t|]|]; simpl; [done|done|].
    by apply stored_cr_free.
  - rewrite !re_sub_cons, E. simpl in Hcr. apply andb_prop in Hcr as [Hc Hs].
    simpl. rewrite IH by done. apply negb_true_iff in Hc. by rewrite Hc.
Qed.

Lemma rootexn_fill_paragraph_pure p cm h h' :
  cr_free (text_at h p) = true ->
  RootExn.process_fill_paragraph p cm h = Some h' ->
  h' = Root.process_fill_paragraph p (stored_map cm) h.
Proof.
  intros Hcr ->%rootexn_fill_paragraph_some. destruct (blank h p) eqn:Hb.
  - by rewrite root_fill_paragraph_blank.
  - rewrite root_fill_paragraph_text by done.
    by rewrite re_sub_stored by (by apply cr_free_strip).
Qed.

Lemma rootexn_fill_paragraph_cr_free p cm h h' :
  cr_free_store h ->
  RootExn.process_fill_paragraph p cm h = Some h' -> cr_free_store h'.
Proof.
  intros Hh ->%rootexn_fill_paragraph_some. destruct (blank h p); [done|].
  apply cr_free_store_insert; [done|]. rewrite root_rewrite_text. apply cr_free_stored.
Qed.

Lemma rootexn_fill_paragraphs_pure ps cm h h' :
  cr_free_store h ->
  RootExn.fill_paragraphs ps cm h = Some h' ->
  h' = Root.fill_paragraphs ps (stored_map cm) h.
Proof.
  revert h. induction ps as [|p ps IH]; intros h Hh; [by intros [= <-]|].
  rewrite rootexn_fill_paragraphs_cons, root_fill_paragraphs_cons.
  destruct (RootExn.process_fill_paragraph p cm h) as [h1|] eqn:E; [|done]. simpl.
  pose proof (rootexn_fill_paragraph_cr_free p cm h h1 Hh E) as Hh1.
  apply rootexn_fill_paragraph_pure in E as <-; [|by apply cr_free_store_text].
  by apply IH.
Qed.

Lemma build_content_map_stored its :
  Root.build_content_map (map stored_item its) = stored_map (Root.build_content_map its).
Proof.
  unfold stored_map.
  induction its as [|item its IH] using rev_ind; [symmetry; apply fmap_empty|].
  rewrite map_app. simpl. by rewrite !build_content_map_snoc, fmap_insert, IH.
Qed.

Lemma root_translate_item_stored call item :
  Root.translate_item (fun t => stored_outcome (call t)) item
  = stored_item (Root.translate_item call item).
Proof.
  unfold Root.translate_item, stored_item.
  destruct (call (original_content item)) as [t|e]; [done|].
  cbn [stored_outcome translate_content placeholder_number original_content
       fmap option_fmap option_map].
  by rewrite stored_app.
Qed.

Lemma root_batch_translate_stored translate_text its :
  Root.batch_translate (fun i t => stored_outcome (translate_text i t)) its
  = map stored_item (Root.batch_translate translate_text its).
Proof.
  apply list_eq. intros i.
  rewrite list_lookup_fmap, !root_batch_translate_lookup.
  destruct (its !! i) as [item|]; [|done]. simpl.
  by rewrite root_translate_item_stored.
Qed.

Lemma outcome_text_stored o :
  outcome_text (stored_outcome o) = Docx.stored (outcome_text o).
Proof.
  destruct o as [t|e]; [done|]. cbn [stored_outcome outcome_text].
  by rewrite stored_app.
Qed.

(** The response of the endpoint, when it is a document. *)
Lemma rootexn_process_document_returned translate_text uuid4 time saved written f d :
  RootExn.process_document translate_text uuid4 time saved written f = Returned d ->
  exists doc template its,
    Root.file f = Some doc
    /\ RootExn.extract doc = Some (template, its)
    /\ RootExn.fill template (Root.batch_translate translate_text its) = Some d
    /\ saved = true /\ written = true.
Proof.
  unfold RootExn.process_document, RootExn.extract_content, RootExn.fill_template.
  destruct (Root.file f) as [doc|] eqn:Hf; [|done]. simpl.
  destruct (RootExn.extract doc) as [[template its]|] eqn:Hextract; [|done]. simpl.
  destruct saved; [|done]. simpl.
  destruct (RootExn.fill template _) as [d'|] eqn:E; [|done]. simpl.
  destruct written; [|done]. intros [= <-]. by exists doc, template, its.
Qed.

Lemma rootexn_process_document_pure translate_text uuid4 time saved written f doc d :
  Root.file f = Some doc ->
  cr_free_store (store doc) ->
  RootExn.process_document translate_text uuid4 time saved written f = Returned d ->
  d = Root.process_document (fun i t => stored_outcome (translate_text i t)) doc.
Proof.
  intros Hf Hcr (doc' & template & its & Hf' & Hextract & Hfill & _)%
    rootexn_process_document_returned.
  rewrite Hf in Hf'. injection Hf' as <-.
  apply rootexn_extract_pure in Hextract; [|done].
  unfold Root.process_document. rewrite <- Hextract.
  rewrite rootexn_fill_flat in Hfill.
  destruct (RootExn.fill_paragraphs _ _ _) as [h|] eqn:E; [|done]. injection Hfill as <-.
  apply rootexn_fill_paragraphs_pure in E.
  - rewrite root_fill_flat, root_batch_translate_stored, build_content_map_stored.
    by rewrite E.
  - pose proof (root_extract_cr_free doc Hcr) as H. by rewrite <- Hextract in H.
Qed.

(** ** The top-level pipeline, paragraph by paragraph *)

Lemma cr_free_store_check h :
  forallb (fun kv => cr_free (paragraph_text kv.2)) (map_to_list h) = true ->
  cr_free_store h.
Proof.
  intros H q para Hq. apply elem_of_map_to_list, list_elem_of_In in Hq.
  rewrite forallb_forall in H. apply (H _ Hq).
Qed.

(** X28.  The two descriptions of the top-level service agree: on an
    upload that parses to a document without carriage return, when the
    endpoint returns a document it is the one extraction, translation and
    reassembly give with every answer of the translation service read as a
    run holds it, a carriage return as a line feed. *)
Theorem rootexn_process_document_root translate_text uuid4 time saved written f doc d :
  Root.file f = Some doc ->
  cr_free_store (store doc) ->
  RootExn.process_document translate_text uuid4 time saved written f = Returned d ->
  d = Root.process_document (fun i t => stored_outcome (translate_text i t)) doc.
Proof. apply rootexn_process_document_pure. Qed.

Lemma rootexn_process_document_root_witness :
  exists d,
    RootExn.process_document returns_carriage_return (str "id") 1700000000 true true
      (upload_of plain_document) = Returned d
    /\ d = Root.process_document (fun _ _ => Returns (str "a" ++ line_feed ++ str "b"))
             plain_document.
Proof.
  destruct (RootExn.process_document returns_carriage_return (str "id") 1700000000
              true true (upload_of plain_document)) as [d|c] eqn:E;
    [|vm_compute in E; discriminate E].
  exists d. split; [reflexivity|].
  apply (rootexn_process_document_root returns_carriage_return (str "id") 1700000000
           true true (upload_of plain_document) plain_document d).
  - reflexivity.
  - apply cr_free_store_check. vm_compute. reflexivity.
  - exact E.
Defined.

(** X1.  Extraction, translation and reassembly, paragraph by paragraph,
    on an upload that parses to a document without carriage return in
    which no paragraph is met twice: when the endpoint returns a document,
    the paragraph that is the [j]-th with text holds its numbering prefix
    followed by what the [j]-th call gave for the rest of its trimmed
    text, the translation or the failure marker, as a run holds it. *)
Theorem rootexn_pipeline_paragraph translate_text uuid4 time saved written f doc d j q :
  Root.file f = Some doc ->
  cr_free_store (store doc) ->
  NoDup (visit_order doc) ->
  with_text (store doc) (visit_order doc) !! j = Some q ->
  RootExn.process_document translate_text uuid4 time saved written f = Returned d ->
  text_at (store d) q
  = prefix_of (strip (text_at (store doc) q))
    ++ Docx.stored
         (outcome_text (translate_text j (content_of (strip (text_at (store doc) q))))).
Proof.
  intros Hf Hcr Hnd Hj E.
  rewrite (rootexn_process_document_pure _ _ _ _ _ _ _ _ Hf Hcr E).
  unfold text_at at 1. rewrite (root_pipeline_object _ doc j q Hnd Hj).
  rewrite root_rewrite_text. by rewrite outcome_text_stored.
Qed.

Lemma rootexn_pipeline_paragraph_witness :
  exists d,
    RootExn.process_document returns_carriage_return (str "id") 1700000000 true true
      (upload_of plain_document) = Returned d
    /\ text_at (store d) 0 = str "2.1 a" ++ line_feed ++ str "b".
Proof.
  destruct (RootExn.process_document returns_carriage_return (str "id") 1700000000
              true true (upload_of plain_document)) as [d|c] eqn:E;
    [|vm_compute in E; discriminate E].
  exists d. split; [reflexivity|].
  rewrite (rootexn_pipeline_paragraph returns_carriage_return (str "id") 1700000000
             true true (upload_of plain_document) plain_document d 0 0).
  - reflexivity.
  - reflexivity.
  - apply cr_free_store_check. vm_compute. reflexivity.
  - apply (@bool_decide_unpack _ (NoDup_dec _)). vm_compute. reflexivity.
  - reflexivity.
  - exact E.
Defined.

(** X5.  Formatting through the pipeline, on an upload that parses to a
    document without carriage return in which no paragraph is met twice:
    when the endpoint returns a document, a paragraph with text whose
    runs begin with [source_run] holds one run, whatever runs it had; the
    run has the font name, weight, slant and colour of [source_run], and
    a size that has gone through [Pt] twice.  The size is one the
    half-point attribute of the run holds exactly. *)
Theorem rootexn_pipeline_font translate_text uuid4 time saved written f doc d j q
    source_run rest :
  Root.file f = Some doc ->
  cr_free_store (store doc) ->
  NoDup (visit_order doc) ->
  with_text (store doc) (visit_order doc) !! j = Some q ->
  runs (deref (store doc) q) = source_run :: rest ->
  (forall s, font_size (run_font source_run) = Some s -> s * 12700 * 12700 < 2 ^ 53) ->
  RootExn.process_document translate_text uuid4 time saved written f = Returned d ->
  map run_font (runs (deref (store d) q))
  = [ {| font_name := font_name (run_font source_run);
         font_size := if size_truthy (font_size (run_font source_run))
                      then (fun s => s * 12700 * 12700)
                             <$> font_size (run_font source_run)
                      else None;
         font_bold := font_bold (run_font source_run);
         font_italic := font_italic (run_font source_run);
         font_color_rgb := font_color_rgb (run_font source_run) |} ].
Proof.
  intros Hf Hcr Hnd Hj Hruns _ E.
  rewrite (rootexn_process_document_pure _ _ _ _ _ _ _ _ Hf Hcr E).
  rewrite (root_pipeline_object _ doc j q Hnd Hj). cbn zeta.
  by rewrite (root_rewrite_twice _ _ _ _ _ Hruns).
Qed.

Lemma rootexn_pipeline_font_witness :
  exists d,
    RootExn.process_document numbered_translation (str "id") 1700000000 true true
      (upload_of plain_document) = Returned d
    /\ map (fun r => font_size (run_font r)) (runs (deref (store d) 0))
       = [Some (12 * 12700 * 12700 * 12700)].
Proof.
  destruct (RootExn.process_document numbered_translation (str "id") 1700000000
              true true (upload_of plain_document)) as [d|c] eqn:E;
    [|vm_compute in E; discriminate E].
  exists d. split; [reflexivity|].
  rewrite <- (List.map_map run_font font_size).
  rewrite (rootexn_pipeline_font numbered_translation (str "id") 1700000000
             true true (upload_of plain_document) plain_document d 0 0
             {| run_text := str "2.1 Intro"; run_font := bold_red_12pt |}
             [plain_run "duction"]).
  - reflexivity.
  - reflexivity.
  - apply cr_free_store_check. vm_compute. reflexivity.
  - apply (@bool_decide_unpack _ (NoDup_dec _)). vm_compute. reflexivity.
  - reflexivity.
  - reflexivity.
  - intros s [= <-]. vm_compute. reflexivity.
  - exact E.
Defined.

(** ** The names [extract_content] gives, when it returns *)

(** X27.  The names of an upload whose file name is a stem without a dot
    and the extension [.docx], when [extract_content] returns: the upload
    parsed, the loops over its paragraphs raised nothing and the template
    was saved; the entity holds the identifier drawn, the file name as it
    came, for the template the stem, [_template_], the clock value and
    the extension, and the items of the loops. *)
Theorem rootexn_extract_content_names uuid4 time saved f stem template entity :
  Root.filename f = Some (stem ++ str ".docx") ->
  forallb (fun c => negb (is_dot c)) stem = true ->
  RootExn.extract_content uuid4 time saved f = Returned (template, entity) ->
  (exists doc, Root.file f = Some doc
               /\ RootExn.extract doc = Some (template, items entity))
  /\ saved = true
  /\ doc_id entity = uuid4
  /\ original_filename entity = stem ++ str ".docx"
  /\ template_filename entity
     = stem ++ str "_template_" ++ str_of_int time ++ str ".docx".
Proof.
  intros Hname Hstem.
  assert (str_replace (str ".docx") [] (stem ++ str ".docx") = stem) as Hbase.
  { change (str ".docx") with ("."%char :: str "docx"). by apply str_replace_suffix. }
  unfold RootExn.extract_content. rewrite Hname.
  assert (match stem ++ str ".docx" with
          | c :: t => c :: t
          | [] => str "uploaded.docx"
          end = stem ++ str ".docx") as -> by (by destruct stem).
  cbv zeta. rewrite Hbase.
  destruct (Root.file f) as [doc|] eqn:Hf; [|done]. cbn [mbind option_bind].
  destruct (RootExn.extract doc) as [[template' its]|] eqn:Hextract; [|done].
  cbn [mbind option_bind]. destruct saved; [|done]. intros [= <- <-].
  cbn [doc_id original_filename template_filename items].
  split; [by exists doc|]. by repeat split.
Qed.

Lemma rootexn_extract_content_names_witness :
  exists template entity,
    RootExn.extract_content (str "id") 1700000000 true (upload_of plain_document)
    = Returned (template, entity)
    /\ template_filename entity = str "report_template_1700000000.docx".
Proof.
  destruct (RootExn.extract_content (str "id") 1700000000 true
              (upload_of plain_document)) as [[template entity]|c] eqn:E;
    [|vm_compute in E; discriminate E].
  exists template, entity. split; [reflexivity|].
  destruct (rootexn_extract_content_names (str "id") 1700000000 true
              (upload_of plain_document) (str "report") template entity)
    as (_ & _ & _ & _ & ->).
  - reflexivity.
  - reflexivity.
  - exact E.
  - reflexivity.
Defined.

(** ** Reassembly in the server variant, with the exceptions of python-docx *)

Lemma scan_forallb (P : ascii -> bool) m s :
  consuming m ->
  (forall s out rest, m s = Some (out, rest) -> forallb P s = true ->
                      forallb P out = true /\ forallb P rest = true) ->
  forallb P s = true -> forallb P (scan m s) = true.
Proof.
  intros Hm Hstep.
  induction s as [s IH] using (induction_ltof1 _ (@length ascii)). unfold ltof in IH.
  destruct s as [|c s]; [done|]. intros Hs. rewrite scan_cons by done.
  destruct (m (c :: s)) as [[out rest]|] eqn:E.
  - destruct (Hstep _ _ _ E Hs) as [Hout Hrest]. rewrite forallb_app, Hout. simpl.
    apply IH; [by apply Hm in E|done].
  - simpl in Hs |- *. apply andb_prop in Hs as [-> Hs]. simpl.
    apply IH; [simpl; lia|done].
Qed.

Lemma str_replace_forallb (P : ascii -> bool) old new s :
  old <> [] -> forallb P new = true -> forallb P s = true ->
  forallb P (str_replace old new s) = true.
Proof.
  intros Hold Hnew Hs. rewrite str_replace_scan by done.
  apply scan_forallb; [by apply replace_matcher_consuming| |done].
  intros s' out rest. unfold replace_matcher.
  destruct (starts_with old s') eqn:E; [|done]. intros [= <- <-] Hs'.
  split; [done|]. rewrite <- (take_drop (length old) s'), forallb_app in Hs'.
  by apply andb_prop in Hs' as [_ ?].
Qed.

Lemma plain_str_replace old new s :
  old <> [] -> plain new = true -> plain s = true -> plain (str_replace old new s) = true.
Proof.
  unfold plain, Docx.xml_compatible, cr_free.
  intros Hold [H1 H2]%andb_prop [H3 H4]%andb_prop.
  by rewrite !str_replace_forallb.
Qed.

Lemma docx_set_text_plain p t : plain t = true -> Docx.set_text p t = Some (unformatted t).
Proof. intros H. unfold Docx.set_text. by rewrite docx_add_run_plain. Qed.

Lemma docx_set_cell_text_plain t :
  plain t = true -> Docx.set_cell_text t = Some [unformatted t].
Proof. intros H. unfold Docx.set_cell_text. by rewrite docx_add_run_plain. Qed.

Lemma text_at_unformatted (h : gmap nat Paragraph) p t :
  text_at (<[p := unformatted t]> h) p = t.
Proof. rewrite text_at_insert, decide_True by done. apply app_nil_r. Qed.

Lemma cell_text_unformatted t : cell_text [unformatted t] = t.
Proof. unfold cell_text, unformatted, paragraph_text. simpl. by rewrite !app_nil_r. Qed.

Lemma server_fill_paragraph_cons item its p h :
  Server.fill_paragraph (item :: its) p h
  = h' ← (if contains (placeholder (placeholder_number item)) (text_at h p)
          then para ← Docx.set_text (deref h p)
                        (str_replace (placeholder (placeholder_number item))
                           (Server.text_or (translate_content item) []) (text_at h p));
               Some (<[p := para]> h)
          else Some h);
    Server.fill_paragraph its p h'.
Proof. done. Qed.

(** The item loop on one body paragraph, when the text of the paragraph
    and what is written for each item are texts python-docx stores as
    they are. *)
Lemma server_fill_paragraph_plain its p h :
  plain (text_at h p) = true -> plain_items its ->
  Server.fill_paragraph its p h
  = Some (if occurs its (text_at h p)
          then <[p := unformatted (Server.fill_text its (text_at h p))]> h
          else h).
Proof.
  intros Hp Hits. revert h Hp.
  induction Hits as [|item its Hitem Hits IH]; intros h Hp; [done|].
  rewrite server_fill_paragraph_cons, server_fill_text_cons. unfold Server.fill_step.
  cbn [occurs existsb].
  destruct (contains (placeholder (placeholder_number item)) (text_at h p)) eqn:Ec;
    cbn [orb]; [|by apply IH].
  set (t' := str_replace _ _ _).
  assert (plain t' = true) as Ht'.
  { apply plain_str_replace; [apply braced_nonempty, placeholder_braced|done|done]. }
  rewrite docx_set_text_plain by done. cbn [mbind option_bind].
  rewrite IH by (by rewrite text_at_unformatted). rewrite text_at_unformatted.
  destruct (occurs its t') eqn:Eo; [by rewrite insert_insert_eq|].
  by rewrite server_fill_text_absent.
Qed.

Lemma server_fill_paragraph_text_plain its p h h' :
  plain (text_at h p) = true -> plain_items its ->
  Server.fill_paragraph its p h = Some h' ->
  text_at h' p = Server.fill_text its (text_at h p)
  /\ forall q, p <> q -> h' !! q = h !! q.
Proof.
  intros Hp Hits. rewrite server_fill_paragraph_plain by done. intros [= <-].
  destruct (occurs its (text_at h p)) eqn:Eo.
  - split; [apply text_at_unformatted|]. intros q Hq. by rewrite lookup_insert_ne.
  - split; [by rewrite server_fill_text_absent|done].
Qed.

(** X17.  The item loop of the server variant on one body paragraph,
    when the text of the paragraph and what is written for each item are
    texts python-docx stores as they are (no control character but tab and
    line feed): the loop raises nothing; when the token of no item occurs
    in the text the store is left as it is; otherwise the paragraph ends
    as one run without formatting that holds what the item loop makes of
    the text, and no other paragraph changes. *)
Theorem server_fill_paragraph_spec its p h :
  plain (text_at h p) = true -> plain_items its ->
  Server.fill_paragraph its p h
  = Some (if occurs its (text_at h p)
          then <[p := unformatted (Server.fill_text its (text_at h p))]> h
          else h).
Proof. apply server_fill_paragraph_plain. Qed.

Lemma server_fill_paragraph_spec_witness :
  Server.fill_paragraph [item_translated 1 "Bonjour"] 0 (one_paragraph "2.1 {{ 1 }}")
  = Some (one_paragraph "2.1 Bonjour").
Proof.
  rewrite (server_fill_paragraph_spec [item_translated 1 "Bonjour"] 0
             (one_paragraph "2.1 {{ 1 }}")).
  - vm_compute. reflexivity.
  - reflexivity.
  - repeat constructor.
Defined.

(** A carriage return in a translation is read back as a line feed; a
    form feed in a translation makes the assignment to [paragraph.text]
    raise. *)
Example server_fill_paragraph_carriage_return :
  Server.fill_paragraph [item_carriage_return] 0 (one_paragraph "2.1 {{ 1 }}")
  = Some {[ 0%nat := unformatted (str "2.1 a" ++ line_feed ++ str "b") ]}.
Proof. vm_compute. reflexivity. Qed.

Example server_fill_paragraph_form_feed :
  Server.fill_paragraph [item_form_feed] 0 (one_paragraph "2.1 {{ 1 }}") = None.
Proof. vm_compute. reflexivity. Qed.

Lemma server_fill_paragraphs_cons its p ps h :
  Server.fill_paragraphs its (p :: ps) h
  = h' ← Server.fill_paragraph its p h; Server.fill_paragraphs its ps h'.
Proof. done. Qed.

(** X18.  The first loop of [fill_template] in the server variant, over
    body paragraphs that are all different, when their texts and what is
    written for each item are texts python-docx stores as they are: the
    loop raises nothing, each paragraph ends with the text the item loop
    makes of its text, and a paragraph outside the body is not touched. *)
Theorem server_fill_paragraphs_spec its ps h :
  NoDup ps ->
  (forall p, In p ps -> plain (text_at h p) = true) ->
  plain_items its ->
  exists h',
    Server.fill_paragraphs its ps h = Some h'
    /\ (forall p, In p ps -> text_at h' p = Server.fill_text its (text_at h p))
    /\ (forall q, ~ In q ps -> h' !! q = h !! q).
Proof.
  intros Hnd Hplain Hits. revert h Hplain.
  induction Hnd as [|p ps Hp Hnd IH]; intros h Hplain; [by exists h|].
  rewrite list_elem_of_In in Hp.
  rewrite server_fill_paragraphs_cons.
  assert (plain (text_at h p) = true) as Hpp by (apply Hplain; by left).
  destruct (Server.fill_paragraph its p h) as [h1|] eqn:E;
    [|by rewrite server_fill_paragraph_plain in E].
  destruct (server_fill_paragraph_text_plain its p h h1 Hpp Hits E) as [Htext Hframe].
  assert (forall q, p <> q -> text_at h1 q = text_at h q) as Hother.
  { intros q Hq. unfold text_at, deref. by rewrite Hframe. }
  destruct (IH h1) as (h' & E' & Hin & Hout).
  { intros q Hq. rewrite Hother; [apply Hplain; by right|]. by intros ->. }
  exists h'. split; [done|]. split.
  - intros q [<-|Hq].
    + unfold text_at at 1, deref. rewrite (Hout p Hp). apply Htext.
    + rewrite (Hin q Hq), Hother; [done|]. by intros ->.
  - intros q Hq. rewrite Hout by (intros ?; apply Hq; by right).
    apply Hframe. intros ->. apply Hq. by left.
Qed.

Lemma server_fill_paragraphs_spec_witness :
  exists h',
    Server.fill_paragraphs [item_translated 1 "Bonjour"] [0%nat]
      (one_paragraph "2.1 {{ 1 }}") = Some h'
    /\ text_at h' 0 = str "2.1 Bonjour".
Proof.
  destruct (server_fill_paragraphs_spec [item_translated 1 "Bonjour"] [0%nat]
              (one_paragraph "2.1 {{ 1 }}")) as (h' & E & Hin & _).
  - apply (@bool_decide_unpack _ (NoDup_dec _)). vm_compute. reflexivity.
  - intros p [<-|[]]. vm_compute. reflexivity.
  - repeat constructor.
  - exists h'. split; [exact E|]. rewrite (Hin 0%nat); [reflexivity|by left].
Defined.

Lemma server_fill_cell_cons item its content :
  Server.fill_cell (item :: its) content
  = content' ← (if contains (placeholder (placeholder_number item)) (cell_text content)
                then Docx.set_cell_text
                       (str_replace (placeholder (placeholder_number item))
                          (Server.text_or (translate_content item) [])
                          (cell_text content))
                else Some content);
    Server.fill_cell its content'.
Proof. done. Qed.

(** X19.  The item loop of the server variant on one table cell, when
    the text of the cell and what is written for each item are texts
    python-docx stores as they are: the loop raises nothing; when the
    token of no item occurs in the text of the cell, the cell is left as
    it is; otherwise the cell ends as a single paragraph of a single run
    without formatting, whatever paragraphs and runs it had, holding what
    the item loop makes of the text of the cell. *)
Theorem server_fill_cell_spec its content :
  plain (cell_text content) = true -> plain_items its ->
  Server.fill_cell its content
  = Some (if occurs its (cell_text content)
          then [unformatted (Server.fill_text its (cell_text content))]
          else content).
Proof.
  intros Hc Hits. revert content Hc.
  induction Hits as [|item its Hitem Hits IH]; intros content Hc; [done|].
  rewrite server_fill_cell_cons, server_fill_text_cons. unfold Server.fill_step.
  cbn [occurs existsb].
  destruct (contains (placeholder (placeholder_number item)) (cell_text content)) eqn:Ec;
    cbn [orb]; [|by apply IH].
  set (t' := str_replace _ _ _).
  assert (plain t' = true) as Ht'.
  { apply plain_str_replace; [apply braced_nonempty, placeholder_braced|done|done]. }
  rewrite docx_set_cell_text_plain by done. cbn [mbind option_bind].
  rewrite IH by (by rewrite cell_text_unformatted). rewrite cell_text_unformatted.
  destruct (occurs its t') eqn:Eo; [done|].
  by rewrite server_fill_text_absent.
Qed.

Lemma server_fill_cell_spec_witness :
  Server.fill_cell [item_translated 1 "un"; item_translated 2 "deux"]
    [ {| runs := [ plain_run "{{ 1 }}" ] |};
      {| runs := [ {| run_text := str "{{ 2 }}"; run_font := bold_red_12pt |} ] |} ]
  = Some [ unformatted (str "un" ++ line_feed ++ str "deux") ].
Proof.
  rewrite (server_fill_cell_spec [item_translated 1 "un"; item_translated 2 "deux"]).
  - vm_compute. reflexivity.
  - reflexivity.
  - repeat constructor.
Defined.

Example server_fill_cell_untouched :
  Server.fill_cell [item_translated 1 "un"] [ two_runs; {| runs := [] |} ]
  = Some [ two_runs; {| runs := [] |} ].
Proof. vm_compute. reflexivity. Qed.

Example server_fill_cell_carriage_return :
  Server.fill_cell [item_carriage_return] [ {| runs := [ plain_run "{{ 1 }}" ] |} ]
  = Some [ unformatted (str "a" ++ line_feed ++ str "b") ].
Proof. vm_compute. reflexivity. Qed.

(** ** When extraction returns *)

Lemma xml_compatible_app a b :
  Docx.xml_compatible (a ++ b) = Docx.xml_compatible a && Docx.xml_compatible b.
Proof. apply forallb_app. Qed.

Lemma digit_xml_char c : is_digit c = true -> Docx.xml_char c = true.
Proof.
  unfold is_digit, Docx.xml_char. intros [H _]%andb_prop. apply Z.leb_le in H.
  apply orb_true_iff. left. apply orb_true_iff. left. apply orb_true_iff. left.
  apply Z.leb_le. lia.
Qed.

Lemma xml_compatible_placeholder k : 0 <= k -> Docx.xml_compatible (placeholder k) = true.
Proof.
  intros Hk. unfold placeholder. rewrite !xml_compatible_app.
  unfold Docx.xml_compatible at 2.
  by rewrite (forallb_imp is_digit _ _ digit_xml_char (str_of_int_digits k Hk)).
Qed.

(** One paragraph: the call returns on a blank paragraph, and on another
    one when the size of the first run can be assigned after [Pt] and lxml
    takes the numbering prefix. *)
Lemma rootexn_process_paragraph_returns p k h its :
  0 <= k ->
  is_Some (RootExn.process_paragraph p k (h, its))
  <-> (blank h p = false ->
       size_fits (deref h p) = true
       /\ Docx.xml_compatible (prefix_of (strip (text_at h p))) = true).
Proof.
  intros Hk. destruct (blank h p) eqn:Hb.
  - rewrite rootexn_process_paragraph_blank by done. split; [done|by eexists].
  - rewrite rootexn_process_paragraph_full, rootexn_rewrite_paragraph by done.
    rewrite xml_compatible_app, xml_compatible_placeholder, andb_true_r by done.
    destruct (size_fits (deref h p)), (Docx.xml_compatible _); simpl.
    + split; [done|by eexists].
    + split; [by intros [? ?]|]. intros H. by destruct (H eq_refl).
    + split; [by intros [? ?]|]. intros H. by destruct (H eq_refl).
    + split; [by intros [? ?]|]. intros H. by destruct (H eq_refl).
Qed.

Lemma rootexn_process_paragraph_frame p k h its r :
  RootExn.process_paragraph p k (h, its) = Some r ->
  k <= r.1 /\ forall q, p <> q -> r.2.1 !! q = h !! q.
Proof.
  destruct (blank h p) eqn:Hb.
  - rewrite rootexn_process_paragraph_blank by done. intros [= <-]. simpl. split; [lia|done].
  - rewrite rootexn_process_paragraph_full by done.
    destruct (RootExn.rewrite_paragraph _ _) as [para|]; [|done]. simpl.
    intros [= <-]. simpl. split; [lia|]. intros q Hq. by rewrite lookup_insert_ne.
Qed.

Lemma rootexn_process_paragraphs_returns ps k h its :
  NoDup ps -> 0 <= k ->
  is_Some (RootExn.process_paragraphs ps (k, (h, its)))
  <-> (forall q, In q ps -> blank h q = false ->
         size_fits (deref h q) = true
         /\ Docx.xml_compatible (prefix_of (strip (text_at h q))) = true).
Proof.
  intros Hnd. revert k h its.
  induction Hnd as [|p ps Hp Hnd IH]; intros k h its Hk; [split; [done|by eexists]|].
  rewrite list_elem_of_In in Hp.
  rewrite rootexn_process_paragraphs_cons. cbn [fst snd].
  pose proof (rootexn_process_paragraph_returns p k h its Hk) as Hone.
  destruct (RootExn.process_paragraph p k (h, its)) as [[k1 [h1 its1]]|] eqn:E.
  - cbn [mbind option_bind].
    apply rootexn_process_paragraph_frame in E as [Hk1 Hframe]. cbn [fst snd] in *.
    assert (forall q, In q ps -> deref h1 q = deref h q) as Hderef.
    { intros q Hq. unfold deref. rewrite Hframe; [done|]. by intros ->. }
    rewrite (IH k1 h1 its1) by lia. split.
    + intros H q [<-|Hq].
      * apply Hone. by eexists.
      * specialize (H q Hq). unfold blank, text_at in *. by rewrite Hderef in H.
    + intros H q Hq. specialize (H q (or_intror Hq)).
      unfold blank, text_at in *. by rewrite Hderef.
  - cbn [mbind option_bind]. split; [by intros [? ?]|]. intros H.
    assert (is_Some (@None (Z * (gmap nat Paragraph * list DocumentItem)))) as [? ?];
      [|done].
    apply Hone. apply H. by left.
Qed.

(** X29.  When [extract_content] returns, for an upload that parses to
    a document in which no paragraph is met twice: exactly when the
    template can be saved and, in every paragraph met with text, the size
    of the first run is one that can be assigned after [Pt] (zero, absent,
    or within the range of the size attribute after the multiplication)
    and lxml takes the numbering prefix.  Every other response is the
    status 500. *)
Theorem rootexn_extract_content_returns uuid4 time saved f doc :
  Root.file f = Some doc ->
  NoDup (visit_order doc) ->
  ((exists r, RootExn.extract_content uuid4 time saved f = Returned r)
   <-> saved = true
       /\ forall q, In q (with_text (store doc) (visit_order doc)) ->
            size_fits (deref (store doc) q) = true
            /\ Docx.xml_compatible (prefix_of (strip (text_at (store doc) q))) = true)
  /\ (forall status_code,
        RootExn.extract_content uuid4 time saved f = HTTPException status_code ->
        status_code = 500).
Proof.
  intros Hf Hnd.
  pose proof (rootexn_process_paragraphs_returns (visit_order doc) 1 (store doc) []
                Hnd ltac:(lia)) as Hloops.
  unfold RootExn.extract_content. rewrite Hf. cbn [mbind option_bind].
  rewrite rootexn_extract_flat.
  destruct (RootExn.process_paragraphs (visit_order doc) (1, (store doc, [])))
    as [acc|] eqn:E; cbn [mbind option_bind].
  - destruct saved.
    + split; [|done]. split; [|by eexists]. intros _. split; [done|].
      intros q [Hq Hb]%with_text_In. apply Hloops; [by eexists|done|done].
    + split; [|by intros ? [= <-]]. split; [by intros [? ?]|by intros [? _]].
  - split; [|by intros ? [= <-]]. split; [by intros [? ?]|]. intros [_ H].
    assert (is_Some (@None (Z * (gmap nat Paragraph * list DocumentItem)))) as [? ?];
      [|done].
    apply Hloops. intros q Hq Hb. apply H. by apply with_text_In.
Qed.

Lemma rootexn_extract_content_returns_witness :
  exists r,
    RootExn.extract_content (str "id") 1700000000 true (upload_of plain_document)
    = Returned r.
Proof.
  assert (NoDup (visit_order plain_document)) as Hnd.
  { apply (@bool_decide_unpack _ (NoDup_dec _)). vm_compute. reflexivity. }
  apply (proj1 (rootexn_extract_content_returns (str "id") 1700000000 true
                  (upload_of plain_document) plain_document eq_refl Hnd)).
  split; [reflexivity|].
  intros q Hq. vm_compute in Hq.
  destruct Hq as [<-|[<-|[<-|[]]]]; split; vm_compute; reflexivity.
Defined.

(** A first run of a size beyond the range of the size attribute after
    [Pt]: the assignment raises, and the endpoint answers with status
    500. *)
Example rootexn_extract_content_size :
  RootExn.extract_content (str "id") 1700000000 true
    (upload_of
       {| store := {[ 0%nat := {| runs := [ {| run_text := str "Hello";
                                               run_font :=
                                                 {| font_name := None;
                                                    font_size := Some (6350 * 10 ^ 12);
                                                    font_bold := None;
                                                    font_italic := None;
                                                    font_color_rgb := None |} |} ] |} ]};
          paragraphs := [0%nat]; tables := [] |})
  = HTTPException 500.
Proof. vm_compute. reflexivity. Qed.
